(** * ldesign-config: merge engine, validation engine and file discovery

    A shallow embedding of [src/utils.ts] ([deepMerge], [validateConfig],
    [findConfigFiles] and the helpers they call), followed by the
    properties of these functions.

    Modelling conventions.
    - JavaScript values are scalars or references into a store of
      objects; a plain object is an insertion-ordered association list of
      own enumerable properties, an array is a list of elements.  An
      object literal or spread allocates a new object at the end of the
      store; an assignment [o[k] = v] updates the object in place, so
      aliasing and identity are those of the program.
    - Every object of the store has the prototype [Object.prototype]
      and is represented by its own properties.  Where the merge
      functions look a key up in an object of options
      ([customMergers[key]], [transformers[key]]) or assign to a key of
      the object they build, a name inherited from [Object.prototype]
      ([prototypeNames]) is treated as the program treats it: the
      inherited member is found and called, and an assignment to
      [__proto__] goes to the inherited setter ([put]); a step whose
      result the store cannot express fails with [NotModelled].  The
      statements about these functions that promise a result take a
      source none of whose keys is an inherited name ([plainKeys]).
      The validation functions read [config[key]] at the own properties
      of the configuration, which is what the program reads for every
      key that is no inherited name; the statements about what is
      reported for a key the configuration lacks take a schema without
      such keys ([plainSchema]).  Integer-like keys are kept in
      insertion order like every other key.
    - Numbers are integers; only equality of numbers is ever used.
    - User callbacks (custom mergers, transforms, validators) are
      functions on the store; a callback that throws is not modelled.
    - [deepMerge] recurses on the documents, which the store does not
      force to be finite trees; its model takes fuel, and
      [MergeTotal.deepMerge_returns] shows that the nesting depth of
      [source] is fuel enough.  [validateConfig] recurses on the schema
      and needs none. *)

From stdpp Require Import base list strings.
From Stdlib Require Import ZArith Lia Ascii Sorted.


(* ================================================================= *)
(** ** Values, objects and the store *)

Module JS.

Abbreviation loc := nat.

Inductive value : Type :=
  | VUndefined
  | VNull
  | VBool (b : bool)
  | VNum (n : Z)
  | VStr (s : string)
  | VRef (l : loc).

#[global] Instance value_eq_dec : EqDecision value.
Proof. solve_decision. Defined.

(** Own enumerable properties of a plain object, in property order. *)
Abbreviation props := (list (string * value)).

Inductive cell : Type :=
  | Obj (ps : props)
  | Arr (xs : list value).

Abbreviation heap := (list cell).

(** How a call ends: it returns, or it fails.  [TypeError] is the
    exception JavaScript raises when a property of [null] or [undefined]
    is read or something that is not a function is called;
    [NotADocument] marks an argument outside the modelled domain (a
    top-level argument that is a string, an array or an unallocated
    reference); [OutOfFuel] marks a recursion deeper than the fuel
    given; [NotModelled] marks a step of the program the store cannot
    express: a built-in function or a wrapper object that becomes the
    value of a key, or an object whose prototype is replaced. *)
Inductive failure : Type := TypeError | NotADocument | OutOfFuel | NotModelled.

Inductive outcome (A : Type) : Type :=
  | Returns (a : A)
  | Fails (f : failure).
Arguments Returns {A} a.
Arguments Fails {A} f.

#[global] Instance outcome_ret : MRet outcome := fun A a => Returns a.
#[global] Instance outcome_bind : MBind outcome := fun A B f m =>
  match m with
  | Returns a => f a
  | Fails e => Fails e
  end.

(** [obj.k] on a property list: the first binding of [k]. *)
Fixpoint lookup_prop (k : string) (ps : props) : option value :=
  match ps with
  | [] => None
  | (k', v) :: ps' => if decide (k' = k) then Some v else lookup_prop k ps'
  end.

Definition get_prop (ps : props) (k : string) : value :=
  default VUndefined (lookup_prop k ps).

(** [obj[k] = v] on a property list: an existing key keeps its place,
    a new key goes last. *)
Fixpoint set_prop (ps : props) (k : string) (v : value) : props :=
  match ps with
  | [] => [(k, v)]
  | (k', v') :: ps' =>
      if decide (k' = k) then (k', v) :: ps' else (k', v') :: set_prop ps' k v
  end.

(** [{ ...a, ...b }] once [a] has been copied: each property of [b] is
    defined on the copy in turn. *)
Definition spread_onto (a b : props) : props :=
  fold_left (fun acc kv => set_prop acc kv.1 kv.2) b a.

Definition alloc (h : heap) (c : cell) : heap * value :=
  (h ++ [c], VRef (length h)).

Definition is_undefined (v : value) : bool :=
  match v with VUndefined => true | _ => false end.

Definition is_null (v : value) : bool :=
  match v with VNull => true | _ => false end.

(** [Array.isArray(v)] *)
Definition isArray (h : heap) (v : value) : bool :=
  match v with
  | VRef l => match h !! l with Some (Arr _) => true | _ => false end
  | _ => false
  end.

(** [typeof v].  A reference that is not allocated denotes no object;
    it is reported as ["undefined"]. *)
Definition typeOf (h : heap) (v : value) : string :=
  match v with
  | VUndefined => "undefined"
  | VNull => "object"
  | VBool _ => "boolean"
  | VNum _ => "number"
  | VStr _ => "string"
  | VRef l => match h !! l with Some _ => "object" | None => "undefined" end
  end.

(** The elements [...v] of an array. *)
Definition elements (h : heap) (v : value) : list value :=
  match v with
  | VRef l => match h !! l with Some (Arr xs) => xs | _ => [] end
  | _ => []
  end.

(** The property list a spread [{...v}] copies and a [for (k in v)]
    walks.  Scalars other than strings have no own enumerable property. *)
Definition ownProps (h : heap) (v : value) : outcome props :=
  match v with
  | VUndefined | VNull | VBool _ | VNum _ => Returns []
  | VStr _ => Fails NotADocument
  | VRef l =>
      match h !! l with
      | Some (Obj ps) => Returns ps
      | _ => Fails NotADocument
      end
  end.

(** [o[k]] where [o] is known to be a plain object (or a scalar without
    properties), read at the own properties of [o]: never throws. *)
Definition get (h : heap) (o : value) (k : string) : value :=
  match o with
  | VRef l => match h !! l with Some (Obj ps) => get_prop ps k | _ => VUndefined end
  | _ => VUndefined
  end.

(** [o[k]] for an arbitrary [o], read at the own properties of [o]:
    reading a property of [null] or [undefined] throws. *)
Definition member (h : heap) (o : value) (k : string) : outcome value :=
  match o with
  | VUndefined | VNull => Fails TypeError
  | VBool _ | VNum _ => Returns VUndefined
  | VStr _ => Fails NotADocument
  | VRef l =>
      match h !! l with
      | Some (Obj ps) => Returns (get_prop ps k)
      | _ => Fails NotADocument
      end
  end.

(** [o[k] = v] on the object stored at [o], as an own property. *)
Definition assign (h : heap) (o : loc) (k : string) (v : value) : heap :=
  match h !! o with
  | Some (Obj ps) => <[o := Obj (set_prop ps k v)]> h
  | _ => h
  end.

(** The property names every object inherits from [Object.prototype]. *)
Definition prototypeNames : list string :=
  ["constructor"; "__defineGetter__"; "__defineSetter__"; "hasOwnProperty";
   "__lookupGetter__"; "__lookupSetter__"; "isPrototypeOf";
   "propertyIsEnumerable"; "toString"; "valueOf"; "__proto__";
   "toLocaleString"].

(** [k] names a member of [Object.prototype]: [o[k]] is that member
    when the object [o] has no property [k] of its own. *)
Definition inherited (k : string) : bool :=
  bool_decide (k ∈ prototypeNames).

(** [Object.hasOwn(o, k)] *)
Definition hasOwn (h : heap) (o : value) (k : string) : bool :=
  match o with
  | VRef l =>
      match h !! l with
      | Some (Obj ps) => bool_decide (is_Some (lookup_prop k ps))
      | _ => false
      end
  | _ => false
  end.

(** [o[k] = v] on the object stored at [o], for any key.  On an object
    without own property [__proto__] the assignment to that key runs the
    setter inherited from [Object.prototype]: a primitive or [undefined]
    is ignored, an object or [null] would replace the prototype. *)
Definition put (h : heap) (o : loc) (k : string) (v : value) : outcome heap :=
  if bool_decide (k = "__proto__") && negb (hasOwn h (VRef o) k) then
    match v with
    | VUndefined | VBool _ | VNum _ | VStr _ => Returns h
    | VNull | VRef _ => Fails NotModelled
    end
  else Returns (assign h o k v).

(** [list.includes(k)] *)
Definition includes (l : list string) (k : string) : bool :=
  bool_decide (k ∈ l).

(** [new Set(xs)] followed by a spread: the elements in the order of
    their first occurrence.  [Set] compares with SameValueZero: scalars
    by value, objects and arrays by identity, which is equality on
    [value]. *)
Definition set_add (acc : list value) (x : value) : list value :=
  if bool_decide (x ∈ acc) then acc else acc ++ [x].

Definition set_of (xs : list value) : list value :=
  fold_left set_add xs [].

(** A [for (const key in ...)] loop whose body updates the store. *)
Fixpoint forIn (body : heap -> string -> outcome heap)
    (keys : list string) (h : heap) : outcome heap :=
  match keys with
  | [] => Returns h
  | k :: keys' => h' ← body h k; forIn body keys' h'
  end.

End JS.

Export JS.

(* ================================================================= *)
(** ** The merge engine: [deepMerge] *)

Module Merge.

Inductive MergeStrategy : Type := deep | shallow | replace | append | prepend.

Inductive ArrayMergeStrategy : Type := arr_replace | arr_concat | arr_unique.

(** A custom merger [(target, source) => merged]. *)
Definition merger : Type := heap -> value -> value -> heap * value.

Record MergeOptions : Type := {
  strategy : option MergeStrategy;
  arrayMergeStrategy : option ArrayMergeStrategy;
  customMergers : option (string -> option merger);
  skipKeys : option (list string);
  onlyKeys : option (list string)
}.

(** [options = {}] *)
Definition defaultOptions : MergeOptions :=
  {| strategy := None; arrayMergeStrategy := None; customMergers := None;
     skipKeys := None; onlyKeys := None |}.

(** The destructuring defaults of [deepMerge]. *)
Definition strategy_of (o : MergeOptions) : MergeStrategy :=
  default deep (strategy o).
Definition arrayMergeStrategy_of (o : MergeOptions) : ArrayMergeStrategy :=
  default arr_replace (arrayMergeStrategy o).
Definition customMergers_of (o : MergeOptions) : string -> option merger :=
  default (fun _ => None) (customMergers o).
Definition skipKeys_of (o : MergeOptions) : list string :=
  default [] (skipKeys o).

(** [typeof v === 'object' && v !== null && !Array.isArray(v)] *)
Definition isPlainObject (h : heap) (v : value) : bool :=
  bool_decide (typeOf h v = "object") && negb (is_null v) && negb (isArray h v).

(** [customMergers[key](targetValue, sourceValue)] when [customMergers]
    has no property [key] of its own and [key] is an inherited name:
    the member of [Object.prototype] is called with [customMergers] as
    [this].  [own] tells whether [result] has [key] as own property, in
    which case [targetValue] is its value; otherwise [result[key]] is
    itself the inherited member.
    - [__proto__] is [Object.prototype], not a function: the call
      throws.
    - [__defineGetter__] and [__defineSetter__] throw when their second
      argument is not a function, which no value of the store is.
    - [toString] ignores its arguments and gives ["[object Object]"];
      [toLocaleString] calls [this.toString()], which is the merger
      registered for [toString] when there is one, called without
      arguments.
    - [isPrototypeOf] gives [false]: [customMergers] is on the prototype
      chain of no value.
    - [valueOf] gives [customMergers] itself: the empty object the
      destructuring default has just made, or an object of the caller
      that the store does not hold.
    - [constructor] is [Object]: [Object(targetValue)] is a new empty
      object for [undefined] and [null], the object itself for an
      object, and a wrapper object for a primitive.
    - [hasOwnProperty], [propertyIsEnumerable], [__lookupGetter__] and
      [__lookupSetter__] convert [targetValue] to a property key first;
      that conversion is not modelled. *)
Definition inheritedMerger (o : MergeOptions) (key : string) (h : heap)
    (own : bool) (targetValue : value) : outcome (heap * value) :=
  if bool_decide (key = "__proto__") then Fails TypeError
  else if bool_decide (key = "__defineGetter__")
          || bool_decide (key = "__defineSetter__") then Fails TypeError
  else if bool_decide (key = "toString") then
    Returns (h, VStr "[object Object]")
  else if bool_decide (key = "toLocaleString") then
    match customMergers_of o "toString" with
    | Some m => Returns (m h VUndefined VUndefined)
    | None => Returns (h, VStr "[object Object]")
    end
  else if bool_decide (key = "isPrototypeOf") then Returns (h, VBool false)
  else if bool_decide (key = "valueOf") then
    match customMergers o with
    | None => Returns (alloc h (Obj []))
    | Some _ => Fails NotModelled
    end
  else if bool_decide (key = "constructor") then
    if own then
      match targetValue with
      | VUndefined | VNull => Returns (alloc h (Obj []))
      | VRef l => Returns (h, VRef l)
      | VBool _ | VNum _ | VStr _ => Fails NotModelled
      end
    else Fails NotModelled
  else Fails NotModelled.

(** The body of the [for (const key in source)] loop; [self] is the
    recursive call [deepMerge(targetValue, sourceValue, options)] and
    [result] the location of the object under construction.  The test
    [if (customMergers[key])] finds a merger of [customMergers] itself
    or, for an inherited name, the member of [Object.prototype]; a
    merger registered under an inherited name that [result] does not
    hold would be handed that member as [targetValue]. *)
Definition mergeKey
    (self : heap -> value -> value -> outcome (heap * value))
    (o : MergeOptions) (source : value) (result : loc)
    (h : heap) (key : string) : outcome heap :=
  if includes (skipKeys_of o) key then Returns h
  else if match onlyKeys o with
          | Some only => negb (includes only key)
          | None => false
          end then Returns h
  else
    let sourceValue := get h source key in
    let targetValue := get h (VRef result) key in
    if is_undefined sourceValue then Returns h
    else match customMergers_of o key with
    | Some m =>
        if inherited key && negb (hasOwn h (VRef result) key) then
          Fails NotModelled
        else
          let '(h', v) := m h targetValue sourceValue in
          Returns (assign h' result key v)
    | None =>
        if inherited key then
          '(h', v) ← inheritedMerger o key h (hasOwn h (VRef result) key)
                       targetValue;
          Returns (assign h' result key v)
        else if isArray h sourceValue then
          if isArray h targetValue then
            match arrayMergeStrategy_of o with
            | arr_concat =>
                let '(h', a) :=
                  alloc h (Arr (elements h targetValue ++ elements h sourceValue)) in
                Returns (assign h' result key a)
            | arr_unique =>
                let '(h', a) :=
                  alloc h (Arr (set_of (elements h targetValue ++ elements h sourceValue))) in
                Returns (assign h' result key a)
            | arr_replace => Returns (assign h result key sourceValue)
            end
          else Returns (assign h result key sourceValue)
        else if isPlainObject h sourceValue && isPlainObject h targetValue then
          '(h', v) ← self h targetValue sourceValue;
          Returns (assign h' result key v)
        else Returns (assign h result key sourceValue)
    end.

Fixpoint deepMerge (fuel : nat) (h : heap) (target source : value)
    (o : MergeOptions) : outcome (heap * value) :=
  match fuel with
  | O => Fails OutOfFuel
  | S fuel' =>
      match strategy_of o with
      | shallow =>
          tp ← ownProps h target;
          sp ← ownProps h source;
          Returns (alloc h (Obj (spread_onto tp sp)))
      | replace => Returns (h, source)
      | _ =>
          tp ← ownProps h target;
          let '(h1, result) := alloc h (Obj tp) in
          sp ← ownProps h1 source;
          h2 ← forIn (mergeKey (fun h' t s => deepMerge fuel' h' t s o)
                        o source (length h))
                 (map fst sp) h1;
          Returns (h2, result)
      end
  end.

End Merge.

(* ================================================================= *)
(** ** The validation engine: [validateConfig] *)

Module Validate.

(** [type?: 'string' | 'number' | 'boolean' | 'object' | 'array'] *)
Inductive SchemaType : Type := TString | TNumber | TBoolean | TObject | TArray.

Definition type_name (t : SchemaType) : string :=
  match t with
  | TString => "string"
  | TNumber => "number"
  | TBoolean => "boolean"
  | TObject => "object"
  | TArray => "array"
  end.

(** One entry of a [ValidationSchema] and the schema itself, an ordered
    sequence of [(key, rule)] entries as [Object.entries] lists them.
    An omitted [required] is [false], an omitted [default] is
    [VUndefined]. *)
Inductive Rule : Type :=
  | mkRule (type : option SchemaType)
           (required : bool)
           (default : value)
           (validator : option (heap -> value -> value))
           (transform : option (heap -> value -> heap * value))
           (children : option Schema)
with Schema : Type :=
  | SNil
  | SCons (key : string) (rule : Rule) (rest : Schema).

Definition type (r : Rule) : option SchemaType :=
  let '(mkRule t _ _ _ _ _) := r in t.
Definition required (r : Rule) : bool :=
  let '(mkRule _ b _ _ _ _) := r in b.
Definition default (r : Rule) : value :=
  let '(mkRule _ _ d _ _ _) := r in d.
Definition validator (r : Rule) : option (heap -> value -> value) :=
  let '(mkRule _ _ _ f _ _) := r in f.
Definition transform (r : Rule) : option (heap -> value -> heap * value) :=
  let '(mkRule _ _ _ _ f _) := r in f.
Definition children (r : Rule) : option Schema :=
  let '(mkRule _ _ _ _ _ cs) := r in cs.

Record ValidationResult : Type := {
  isValid : bool;
  errors : list string;
  validated : value
}.

(** [Array.isArray(value) ? 'array' : typeof value] *)
Definition actualType (h : heap) (v : value) : string :=
  if isArray h v then "array" else typeOf h v.

(** The body of [validateConfig] around its loop; [entries] is the
    [for (const [key, rule] of Object.entries(schema))] loop. *)
Definition validateConfig_body
    (entries : heap -> list string -> value -> loc -> outcome (heap * list string))
    (h : heap) (config : value) : outcome (heap * ValidationResult) :=
  ps ← ownProps h config;
  let '(h1, validated) := alloc h (Obj ps) in
  '(h2, errors) ← entries h1 [] config (length h);
  Returns (h2, {| isValid := bool_decide (length errors = 0);
                  errors := errors;
                  validated := validated |}).

(** [validateValue] is the closure of the same name; the error list it
    pushes to is passed in and out.  [validateEntries] is the loop
    [validated[key] = validateValue(config[key], key, rule)]. *)
Fixpoint validateValue (rule : Rule) (h : heap) (errors : list string)
    (val : value) (key path : string) {struct rule}
    : outcome (heap * list string * value) :=
  if required rule && (is_undefined val || is_null val) then
    Returns (h, errors ++ [path +:+ " is required"], default rule)
  else if is_undefined val && negb (is_undefined (default rule)) then
    Returns (h, errors, default rule)
  else if is_undefined val then
    Returns (h, errors, val)
  else
    let '(h, val) :=
      match transform rule with
      | Some f => f h val
      | None => (h, val)
      end in
    match
      match type rule with
      | Some ty =>
          if bool_decide (actualType h val ≠ type_name ty)
          then Some (path +:+ " should be " +:+ type_name ty +:+ ", got "
                       +:+ actualType h val)
          else None
      | None => None
      end
    with
    | Some err => Returns (h, errors ++ [err], default rule)
    | None =>
      match
        match validator rule with
        | Some check =>
            match check h val with
            | VBool true => None
            | VStr msg => Some msg
            | _ => Some (path +:+ " validation failed")
            end
        | None => None
        end
      with
      | Some err => Returns (h, errors ++ [err], default rule)
      | None =>
        match children rule with
        | Some cs =>
            if bool_decide (typeOf h val = "object") && negb (isArray h val) then
              '(h', childResult) ← validateConfig_body (validateEntries cs) h val;
              Returns (h',
                       errors ++ map (fun err => path +:+ "." +:+ err)
                                     (Validate.errors childResult),
                       validated childResult)
            else Returns (h, errors, val)
        | None => Returns (h, errors, val)
        end
      end
    end
with validateEntries (schema : Schema) (h : heap) (errors : list string)
    (config : value) (validated : loc) {struct schema}
    : outcome (heap * list string) :=
  match schema with
  | SNil => Returns (h, errors)
  | SCons key rule rest =>
      val ← member h config key;
      '(h', errors', v) ← validateValue rule h errors val key key;
      validateEntries rest (assign h' validated key v) errors' config validated
  end.

Definition validateConfig (h : heap) (config : value) (schema : Schema)
    : outcome (heap * ValidationResult) :=
  validateConfig_body (validateEntries schema) h config.

End Validate.

(* ================================================================= *)
(** ** File discovery: [findConfigFiles] *)

Module Discovery.

(** [ConfigFormat = 'ts' | 'js' | 'json' | 'json5' | 'yaml' | 'yml' | 'env'] *)
Inductive ConfigFormat : Type :=
  F_ts | F_js | F_json | F_json5 | F_yaml | F_yml | F_env.

#[global] Instance ConfigFormat_eq_dec : EqDecision ConfigFormat.
Proof. solve_decision. Defined.

Definition format_name (f : ConfigFormat) : string :=
  match f with
  | F_ts => "ts"
  | F_js => "js"
  | F_json => "json"
  | F_json5 => "json5"
  | F_yaml => "yaml"
  | F_yml => "yml"
  | F_env => "env"
  end.

Record ConfigFileInfo : Type := {
  path : string;
  format : ConfigFormat;
  ext : string;
  env : option string;
  isBase : bool;
  mtime : Z
}.

(** The file system as [existsSync] and [statSync] see it: the
    modification time of each existing path. *)
Definition filesystem : Type := string -> option Z.

Definition existsSync (fs : filesystem) (p : string) : bool :=
  bool_decide (is_Some (fs p)).

(** [statSync(p).mtime], read only for paths that exist. *)
Definition statSync_mtime (fs : filesystem) (p : string) : Z :=
  default 0%Z (fs p).

(** [path.extname] on POSIX paths: the last dot of the last path
    segment and what follows it, nothing when that segment has no dot
    or only a leading one.  [ext_scan] walks the path backwards. *)
Fixpoint ext_scan (rev_path : list ascii) (acc : list ascii) : list ascii :=
  match rev_path with
  | [] => []
  | c :: rest =>
      if decide (c = "/"%char) then []
      else if decide (c = "."%char) then
        match rest with
        | [] => []
        | c' :: _ => if decide (c' = "/"%char) then [] else c :: acc
        end
      else ext_scan rest (c :: acc)
  end.

Definition extname (p : string) : string :=
  String.string_of_list_ascii (ext_scan (rev (String.list_ascii_of_string p)) []).

Definition lower_ascii (c : ascii) : ascii :=
  let n := nat_of_ascii c in
  if (65 <=? n)%nat && (n <=? 90)%nat then ascii_of_nat (n + 32) else c.

Definition toLowerCase (s : string) : string :=
  String.string_of_list_ascii (map lower_ascii (String.list_ascii_of_string s)).

(** [s.slice(1)] *)
Definition slice1 (s : string) : string :=
  match s with
  | EmptyString => EmptyString
  | String _ s' => s'
  end.

(** [path.resolve(configDir, file)] for an absolute, normalised
    [configDir] and a plain file name. *)
Definition resolve (configDir file : string) : string :=
  configDir +:+ "/" +:+ file.

Definition getConfigFormat (filePath : string) : option ConfigFormat :=
  let ext := toLowerCase (slice1 (extname filePath)) in
  if decide (ext = "ts") then Some F_ts
  else if decide (ext = "js") then Some F_js
  else if decide (ext = "mjs") then Some F_js
  else if decide (ext = "cjs") then Some F_js
  else if decide (ext = "json") then Some F_json
  else if decide (ext = "json5") then Some F_json5
  else if decide (ext = "yaml") then Some F_yaml
  else if decide (ext = "yml") then Some F_yaml
  else if decide (ext = "env") then Some F_env
  else None.

Definition defaultExtensions : list ConfigFormat :=
  [F_ts; F_js; F_json; F_json5; F_yaml; F_yml; F_env].

(** [if (env)]: an absent or empty environment name is falsy. *)
Definition truthy (env : option string) : option string :=
  match env with
  | Some EmptyString => None
  | e => e
  end.

Definition generateConfigPaths (configDir name : string) (env : option string)
    (extensions : option (list ConfigFormat)) : list string :=
  map (fun ext =>
         match truthy env with
         | Some e =>
             resolve configDir
               (name +:+ ".config." +:+ e +:+ "." +:+ format_name ext)
         | None =>
             resolve configDir (name +:+ ".config." +:+ format_name ext)
         end)
      (default defaultExtensions extensions).

(** One pass [for (const path of paths) if (existsSync(path)) ...
    files.push(...)]: the descriptors pushed, in order. *)
Definition collect (fs : filesystem) (env : option string) (base : bool)
    (paths : list string) : list ConfigFileInfo :=
  flat_map (fun p =>
    if existsSync fs p then
      match getConfigFormat p with
      | Some f =>
          [ {| path := p; format := f; ext := extname p; env := env;
               isBase := base; mtime := statSync_mtime fs p |} ]
      | None => []
      end
    else []) paths.

(** [list.indexOf(x)] *)
Fixpoint indexOf_from {A} `{EqDecision A} (l : list A) (x : A) (i : Z) : Z :=
  match l with
  | [] => (-1)%Z
  | y :: l' => if decide (y = x) then i else indexOf_from l' x (i + 1)%Z
  end.

Definition indexOf {A} `{EqDecision A} (l : list A) (x : A) : Z :=
  indexOf_from l x 0%Z.

(** [Array.prototype.sort] with a comparator: a stable sort. *)
Fixpoint insert_sorted {A} (cmp : A -> A -> Z) (x : A) (l : list A) : list A :=
  match l with
  | [] => [x]
  | y :: l' =>
      if (cmp x y <=? 0)%Z then x :: y :: l' else y :: insert_sorted cmp x l'
  end.

Definition sort {A} (cmp : A -> A -> Z) (l : list A) : list A :=
  foldr (insert_sorted cmp) [] l.

Definition priorityOrder : list ConfigFormat :=
  [F_env; F_yml; F_yaml; F_json5; F_json; F_js; F_ts].

Definition byPriority (a b : ConfigFileInfo) : Z :=
  let indexA := indexOf priorityOrder (format a) in
  let indexB := indexOf priorityOrder (format b) in
  (indexA - indexB)%Z.

Definition findConfigFiles (fs : filesystem) (name configDir : string)
    (env : option string) (extensions : option (list ConfigFormat))
    : list ConfigFileInfo :=
  let basePaths := generateConfigPaths configDir name None extensions in
  let files := collect fs None true basePaths in
  let files :=
    match truthy env with
    | Some e =>
        let envPaths := generateConfigPaths configDir name (Some e) extensions in
        files ++ collect fs (Some e) false envPaths
    | None => files
    end in
  sort byPriority files.

End Discovery.

(* ================================================================= *)
(** ** Well-formedness notions used by the statements *)

Module Frame.
Import Merge.

(** A callback is allocation-only when every object that existed before
    the call is the same after it: it may allocate, it does not write to
    existing objects. *)
Definition allocOnly (m : merger) : Prop :=
  forall h t s, h `prefix_of` (m h t s).1.

Definition pureMergers (o : MergeOptions) : Prop :=
  forall k m, customMergers_of o k = Some m -> allocOnly m.

(** A value is allocated in [h] when it is a scalar or a reference to an
    existing object. *)
Definition allocated (h : heap) (v : value) : Prop :=
  match v with
  | VRef l => l < length h
  | _ => True
  end.

(** [stable_except r h h']: going from [h] to [h'] nothing was freed and
    no object other than the one at [r] was written to. *)
Definition stable_except (r : loc) (h h' : heap) : Prop :=
  length h <= length h' /\
  forall l, l < length h -> l <> r -> h' !! l = h !! l.

(** [shallower n h v]: every reference met when descending from [v]
    through properties of plain objects is allocated, and at most [n]
    plain objects are nested along any such path.  Tree-shaped parsed
    documents satisfy this for some [n]. *)
Fixpoint shallower (n : nat) (h : heap) (v : value) : bool :=
  match v with
  | VRef l =>
      match h !! l with
      | Some (Obj ps) =>
          match n with
          | O => false
          | S n' => forallb (fun kv => shallower n' h kv.2) ps
          end
      | Some (Arr _) => true
      | None => false
      end
  | _ => true
  end.

(** [plainKeys n h v]: [v] is tree-shaped with at most [n] nested plain
    objects, as for [shallower], and no key met when descending from
    [v] is a name inherited from [Object.prototype]. *)
Fixpoint plainKeys (n : nat) (h : heap) (v : value) : bool :=
  match v with
  | VRef l =>
      match h !! l with
      | Some (Obj ps) =>
          match n with
          | O => false
          | S n' =>
              forallb (fun kv => negb (inherited kv.1) && plainKeys n' h kv.2) ps
          end
      | Some (Arr _) => true
      | None => false
      end
  | _ => true
  end.

(** The strategies handled by the key-by-key loop of [deepMerge]. *)
Definition deepLike (s : MergeStrategy) : bool :=
  match s with
  | shallow | replace => false
  | _ => true
  end.

(** [k] passes the [skipKeys] and [onlyKeys] filters. *)
Definition unfiltered (o : MergeOptions) (k : string) : bool :=
  negb (includes (skipKeys_of o) k) &&
  match onlyKeys o with
  | Some only => includes only k
  | None => true
  end.


(** Options that set only the array policy and the key filters. *)
Definition opts (policy : option ArrayMergeStrategy)
    (skip only : option (list string)) : MergeOptions :=
  {| strategy := None; arrayMergeStrategy := policy; customMergers := None;
     skipKeys := skip; onlyKeys := only |}.

(** String, number, boolean or explicit null. *)
Definition is_scalar (v : value) : bool :=
  match v with
  | VNull | VBool _ | VNum _ | VStr _ => true
  | VUndefined | VRef _ => false
  end.

(** The elements of a list in the order of their first occurrence, each
    kept once. *)
Fixpoint first_occurrences (xs : list value) : list value :=
  match xs with
  | [] => []
  | x :: xs' => x :: filter (fun y => y <> x) (first_occurrences xs')
  end.

(** The sequence built for a key when both values are sequences, by
    array policy, in the words of the specification. *)
Definition combined (policy : ArrayMergeStrategy) (tv sv : list value)
    : list value :=
  match policy with
  | arr_replace => sv
  | arr_concat => tv ++ sv
  | arr_unique => first_occurrences (tv ++ sv)
  end.

End Frame.

(* ================================================================= *)
(** ** Well-formedness notions for schemas *)

Module SchemaFrame.
Import Validate.

(** Induction over a rule and the schemas nested in it through
    [children]. *)
Section RuleSchemaInd.
Variable P : Rule -> Prop.
Variable Q : Schema -> Prop.
Hypothesis P_rule : forall ty req def vd tr ch,
  match ch with Some cs => Q cs | None => True end ->
  P (mkRule ty req def vd tr ch).
Hypothesis Q_nil : Q SNil.
Hypothesis Q_cons : forall k r rest, P r -> Q rest -> Q (SCons k r rest).

Fixpoint Rule_nested_ind (r : Rule) : P r :=
  match r with
  | mkRule ty req def vd tr ch =>
      P_rule ty req def vd tr ch
        match ch as o return match o with Some cs => Q cs | None => True end with
        | Some cs => Schema_nested_ind cs
        | None => I
        end
  end
with Schema_nested_ind (s : Schema) : Q s :=
  match s with
  | SNil => Q_nil
  | SCons k r rest => Q_cons k r rest (Rule_nested_ind r) (Schema_nested_ind rest)
  end.

Definition Rule_Schema_ind : (forall r, P r) /\ (forall s, Q s) :=
  conj Rule_nested_ind Schema_nested_ind.
End RuleSchemaInd.

(** The entries of a schema as a list, and its keys. *)
Fixpoint schema_entries (s : Schema) : list (string * Rule) :=
  match s with
  | SNil => []
  | SCons k r rest => (k, r) :: schema_entries rest
  end.

Definition schema_keys (s : Schema) : list string :=
  map fst (schema_entries s).

(** Every [transform] of the schema, at any depth, is allocation-only:
    it may build new objects, it does not write to existing ones. *)
Fixpoint pureRule (r : Rule) : Prop :=
  match r with
  | mkRule _ _ _ _ tr ch =>
      match tr with
      | Some f => forall h v, h `prefix_of` (f h v).1
      | None => True
      end /\
      match ch with
      | Some cs => pureSchema cs
      | None => True
      end
  end
with pureSchema (s : Schema) : Prop :=
  match s with
  | SNil => True
  | SCons _ r rest => pureRule r /\ pureSchema rest
  end.

(** No key of the schema, at any depth, is a name inherited from
    [Object.prototype]: [config[key]] is then an own property of the
    configuration or [undefined]. *)
Fixpoint plainRule (r : Rule) : bool :=
  match r with
  | mkRule _ _ _ _ _ ch =>
      match ch with
      | Some cs => plainSchema cs
      | None => true
      end
  end
with plainSchema (s : Schema) : bool :=
  match s with
  | SNil => true
  | SCons k r rest => negb (inherited k) && plainRule r && plainSchema rest
  end.

(** No value can reach the children of a rule as null: every rule with
    children, at any depth, is required and has no transform. *)
Fixpoint guardedRule (r : Rule) : Prop :=
  match r with
  | mkRule _ req _ _ tr ch =>
      match ch with
      | Some cs => req = true /\ tr = None /\ guardedSchema cs
      | None => True
      end
  end
with guardedSchema (s : Schema) : Prop :=
  match s with
  | SNil => True
  | SCons _ r rest => guardedRule r /\ guardedSchema rest
  end.

(** The store and value a rule's checks see: [value] after
    [rule.transform], when there is one. *)
Definition transformed (r : Rule) (h : heap) (v : value) : heap * value :=
  match transform r with
  | Some f => f h v
  | None => (h, v)
  end.

(** The rule's type check accepts [v]. *)
Definition type_ok (r : Rule) (h : heap) (v : value) : Prop :=
  match type r with
  | Some ty => actualType h v = type_name ty
  | None => True
  end.

(** The rule's validator accepts [v]: it returns [true]. *)
Definition validator_ok (r : Rule) (h : heap) (v : value) : Prop :=
  match validator r with
  | Some check => check h v = VBool true
  | None => True
  end.

End SchemaFrame.

(* ================================================================= *)
(** ** The order of discovered files *)

Module DiscoveryOrder.
Import Discovery.

(** The rank [findConfigFiles] sorts by: the position of a file's
    format in [priorityOrder]. *)
Definition priority (f : ConfigFileInfo) : Z :=
  indexOf priorityOrder (format f).

End DiscoveryOrder.

(* ================================================================= *)
(** ** The merge variants layered on [deepMerge] *)

Module MergeVariants.
Import Merge.

(** [condition: boolean | ((key, value) => boolean)]; a predicate reads
    the store and returns a boolean. *)
Inductive Condition : Type :=
  | CondBool (b : bool)
  | CondFn (f : heap -> string -> value -> bool).

(** An omitted [options] argument is [undefined], for which [deepMerge]
    takes its default [{}]. *)
Definition options_or_default (options : option MergeOptions) : MergeOptions :=
  default defaultOptions options.

(** The body of the loop that builds [filteredSource]; [key] is an own
    key of [source].  [filteredSource] starts empty, so an accepted key
    [__proto__] goes to the inherited setter ([put]). *)
Definition filterKey (f : heap -> string -> value -> bool) (source : value)
    (filteredSource : loc) (h : heap) (key : string) : outcome heap :=
  if f h key (get h source key)
  then put h filteredSource key (get h source key)
  else Returns h.

Definition conditionalMerge (fuel : nat) (h : heap) (target source : value)
    (condition : Condition) (options : option MergeOptions)
    : outcome (heap * value) :=
  match condition with
  | CondBool b =>
      if b then deepMerge fuel h target source (options_or_default options)
      else Returns (h, target)
  | CondFn f =>
      let '(h1, filteredSource) := alloc h (Obj []) in
      sp ← ownProps h1 source;
      h2 ← forIn (filterKey f source (length h)) (map fst sp) h1;
      deepMerge fuel h2 target filteredSource (options_or_default options)
  end.

(** The properties copied to [filteredSource] by the loop over [keys],
    starting with [fp]. *)
Definition filtered_props (f : heap -> string -> value -> bool) (h : heap)
    (sp : props) (keys : list string) (fp : props) : props :=
  fold_left (fun fp key =>
               if f (h ++ [Obj fp]) key (get_prop sp key)
               then set_prop fp key (get_prop sp key) else fp) keys fp.

(** The options with the strategy replaced. *)
Definition withStrategy (o : MergeOptions) (s : MergeStrategy) : MergeOptions :=
  {| strategy := Some s;
     arrayMergeStrategy := arrayMergeStrategy o;
     customMergers := customMergers o;
     skipKeys := skipKeys o;
     onlyKeys := onlyKeys o |}.

(** [ConfigTemplate]; [condition] reads the store. *)
Record ConfigTemplate : Type := {
  name : string;
  description : option string;
  condition : heap -> value -> bool;
  template : value
}.

Definition applyTemplate (fuel : nat) (h : heap) (config : value)
    (t : ConfigTemplate) : outcome (heap * value) :=
  if negb (condition t h config) then Returns (h, config)
  else deepMerge fuel h config (template t) defaultOptions.

(** [deepMergeHelper] of [define-config.ts], the merge without options;
    [helperKey] is the body of its loop.  For a key that [result] does
    not own, [result[key]] is [undefined] or, for an inherited name, a
    member of [Object.prototype]: a function, which the test on
    [targetValue] treats as it treats [undefined], or for [__proto__]
    the prototype itself, in which case the assignment that follows
    goes to the inherited setter ([put]) whichever branch is taken. *)
Definition helperKey
    (self : heap -> value -> value -> outcome (heap * value))
    (source : value) (result : loc) (h : heap) (key : string) : outcome heap :=
  let sourceValue := get h source key in
  let targetValue := get h (VRef result) key in
  if is_undefined sourceValue then Returns h
  else if isPlainObject h sourceValue && isPlainObject h targetValue then
    '(h', v) ← self h targetValue sourceValue;
    put h' result key v
  else put h result key sourceValue.

Fixpoint deepMergeHelper (fuel : nat) (h : heap) (target source : value)
    : outcome (heap * value) :=
  match fuel with
  | O => Fails OutOfFuel
  | S fuel' =>
      tp ← ownProps h target;
      let '(h1, result) := alloc h (Obj tp) in
      sp ← ownProps h1 source;
      h2 ← forIn (helperKey (deepMergeHelper fuel') source (length h))
             (map fst sp) h1;
      Returns (h2, result)
  end.

End MergeVariants.

(* ================================================================= *)
(** ** Further notions for schemas *)

Module SchemaMore.
Import Validate.

(** The entry of a schema that makes [validateConfig] throw: a rule
    that is not required, has no transform and no validator, declares
    the type [object] or none, and has at least one child. *)
Definition unguarded (r : Rule) : Prop :=
  required r = false /\ transform r = None /\ validator r = None /\
  (type r = None \/ type r = Some TObject) /\
  exists k' r' rest', children r = Some (SCons k' r' rest').

End SchemaMore.

(* ================================================================= *)
(** ** File names: [getExtensionVariants], [parseConfigFileName] *)

Module FileNames.
Import Discovery.

(** The characters of a string. *)
Abbreviation chars := String.list_ascii_of_string.

Definition getExtensionVariants (format : ConfigFormat) : list string :=
  match format with
  | F_js => ["js"; "mjs"; "cjs"]
  | F_yaml => ["yaml"; "yml"]
  | F_json5 => ["json5"]
  | f => [format_name f]
  end.

(** The characters of the last path segment; [segment_scan] walks the
    path backwards up to the last slash. *)
Fixpoint segment_scan (rev_path : list ascii) (acc : list ascii) : list ascii :=
  match rev_path with
  | [] => acc
  | c :: rest =>
      if decide (c = "/"%char) then acc else segment_scan rest (c :: acc)
  end.

Definition last_segment (p : list ascii) : list ascii :=
  segment_scan (rev p) [].

Fixpoint strip_prefix (pre s : list ascii) : option (list ascii) :=
  match pre, s with
  | [], _ => Some s
  | c :: pre', d :: s' => if decide (c = d) then strip_prefix pre' s' else None
  | _ :: _, [] => None
  end.

Definition strip_suffix (suf s : list ascii) : option (list ascii) :=
  @rev ascii <$> strip_prefix (rev suf) (rev s).

(** [path.basename(p, ext)] on POSIX paths that do not end with a
    slash: the last segment, without the suffix [ext] when the segment
    ends with it and is longer than it.  An empty [ext], or one longer
    than the path, is ignored; an [ext] equal to the whole path gives
    the empty string. *)
Definition basename (p ext : string) : string :=
  let pl := String.list_ascii_of_string p in
  let el := String.list_ascii_of_string ext in
  let seg := last_segment pl in
  String.string_of_list_ascii
    (if bool_decide (el <> []) && bool_decide (length el <= length pl) then
       if decide (el = pl) then []
       else match strip_suffix el seg with
            | Some [] => seg
            | Some stem => stem
            | None => seg
            end
     else seg).

(** The regular expression [/^(.+)\.config(?:\.([^.]+))?$/].  A dot
    matches every character but a line terminator; strings being
    sequences of 8-bit characters, these are line feed and carriage
    return. *)
Definition is_line_terminator (c : ascii) : bool :=
  bool_decide (c = "010"%char) || bool_decide (c = "013"%char).

(** No character of the string is a line terminator. *)
Abbreviation no_terminator :=
  (forallb (fun c => negb (is_line_terminator c))).

(** [(?:\.([^.]+))?$] on what follows [.config]: nothing, or a dot and
    a non-empty run of characters other than dots up to the end; the
    group captured, if any. *)
Definition match_env (tail : list ascii) : option (option (list ascii)) :=
  match tail with
  | [] => Some None
  | c :: x =>
      if decide (c = "."%char) then
        if bool_decide (x <> []) && forallb (fun d => bool_decide (d <> "."%char)) x
        then Some (Some x) else None
      else None
  end.

(** [\.config(?:\.([^.]+))?$] *)
Definition match_rest (rest : list ascii) : option (option (list ascii)) :=
  match strip_prefix (String.list_ascii_of_string ".config") rest with
  | Some tail => match_env tail
  | None => None
  end.

(** The greedy group [(.+)] takes the first [n] characters, the longest
    choice being tried first. *)
Fixpoint match_from (n : nat) (s : list ascii)
    : option (list ascii * option (list ascii)) :=
  match n with
  | O => None
  | S n' =>
      if forallb (fun c => negb (is_line_terminator c)) (take n s) then
        match match_rest (drop n s) with
        | Some e => Some (take n s, e)
        | None => match_from n' s
        end
      else match_from n' s
  end.

(** [fileName.match(configPattern)]: the two groups of the match. *)
Definition matchConfigPattern (fileName : string)
    : option (string * option string) :=
  let s := String.list_ascii_of_string fileName in
  match match_from (length s) s with
  | Some (b, e) =>
      Some (String.string_of_list_ascii b, String.string_of_list_ascii <$> e)
  | None => None
  end.

Record ParsedFileName : Type := {
  baseName : string;
  env : option string;
  format : option ConfigFormat
}.

Definition parseConfigFileName (filePath : string) : ParsedFileName :=
  let fileName := basename filePath (extname filePath) in
  let format := getConfigFormat filePath in
  match matchConfigPattern fileName with
  | Some (baseName, env) =>
      {| baseName := baseName; env := env; format := format |}
  | None => {| baseName := fileName; env := None; format := format |}
  end.

(** The format [getConfigFormat] gives for the extension named after a
    format: [yml] files are reported as [yaml]. *)
Definition canonical (f : ConfigFormat) : ConfigFormat :=
  match f with
  | F_yml => F_yaml
  | f => f
  end.

End FileNames.

(* ================================================================= *)
(** ** [transformMerge] *)

Module Transform.
Import Merge MergeVariants.

(** A transformer [(value) => transformed]. *)
Definition transformer : Type := heap -> value -> heap * value.

(** [transformers: Record<string, (value) => any>], by key. *)
Abbreviation Transformers := (list (string * transformer)).

Fixpoint lookup_transformer (k : string) (ts : Transformers)
    : option transformer :=
  match ts with
  | [] => None
  | (k', t) :: ts' =>
      if decide (k' = k) then Some t else lookup_transformer k ts'
  end.

(** [path ? `${path}.${key}` : key] *)
Definition currentPath (path key : string) : string :=
  if decide (path = "") then key else path +:+ "." +:+ key.

(** The transformer [transformers[currentPath] || transformers[key]]
    finds among the properties of [transformers] itself. *)
Definition transformerFor (ts : Transformers) (path key : string)
    : option transformer :=
  match lookup_transformer (currentPath path key) ts with
  | Some t => Some t
  | None => lookup_transformer key ts
  end.

(** [transformer(value)] when the lookup found no transformer of
    [transformers] itself and [key] is an inherited name: the member of
    [Object.prototype] is called as a plain function, without [this].
    - [__proto__] is [Object.prototype], not a function: the call
      throws.
    - [toString] gives ["[object Undefined]"].
    - [isPrototypeOf] gives [false] for a value that is not an object
      and throws for an object, having no [this] to compare with.
    - [constructor] is [Object]: a new empty object for [undefined] and
      [null], the object itself for an object, a wrapper object for a
      primitive.
    - Every other member converts [this] to an object first and
      throws. *)
Definition inheritedTransformer (key : string) (h : heap) (v : value)
    : outcome (heap * value) :=
  if bool_decide (key = "toString") then
    Returns (h, VStr "[object Undefined]")
  else if bool_decide (key = "isPrototypeOf") then
    match v with
    | VRef _ => Fails TypeError
    | _ => Returns (h, VBool false)
    end
  else if bool_decide (key = "constructor") then
    match v with
    | VUndefined | VNull => Returns (alloc h (Obj []))
    | VRef l => Returns (h, VRef l)
    | VBool _ | VNum _ | VStr _ => Fails NotModelled
    end
  else Fails TypeError.

(** The body of the loop of [applyTransformers]; [self] is the
    recursive call and [result] the location of the object under
    construction, which starts empty.  A path with a dot is no
    inherited name, so the lookup finds an inherited member only
    through [transformers[key]]. *)
Definition transformKey
    (self : heap -> value -> string -> outcome (heap * value))
    (ts : Transformers) (obj : value) (path : string) (result : loc)
    (h : heap) (key : string) : outcome heap :=
  let value := get h obj key in
  match transformerFor ts path key with
  | Some t =>
      let '(h', v) := t h value in
      put h' result key v
  | None =>
      if inherited key then
        '(h', v) ← inheritedTransformer key h value;
        put h' result key v
      else if isPlainObject h value then
        '(h', v) ← self h value (currentPath path key);
        put h' result key v
      else put h result key value
  end.

Fixpoint applyTransformers (fuel : nat) (ts : Transformers) (h : heap)
    (obj : value) (path : string) : outcome (heap * value) :=
  match fuel with
  | O => Fails OutOfFuel
  | S fuel' =>
      if negb (isPlainObject h obj) then
        match lookup_transformer path ts with
        | Some t => Returns (t h obj)
        | None => Returns (h, obj)
        end
      else
        let '(h1, result) := alloc h (Obj []) in
        ps ← ownProps h1 obj;
        h2 ← forIn (transformKey (applyTransformers fuel' ts) ts obj path
                      (length h))
               (map fst ps) h1;
        Returns (h2, result)
  end.

Definition transformMerge (fuel : nat) (h : heap) (target source : value)
    (ts : Transformers) (options : option MergeOptions)
    : outcome (heap * value) :=
  '(h1, transformedTarget) ← applyTransformers fuel ts h target "";
  '(h2, transformedSource) ← applyTransformers fuel ts h1 source "";
  deepMerge fuel h2 transformedTarget transformedSource
    (options_or_default options).

End Transform.

(* ================================================================= *)
(** ** The loader: [LDesignConfig] *)

Module Loader.
Import Merge Validate MergeVariants Transform.

(** [this.options], once the constructor has filled in its defaults. *)
Record LDesignConfigOptions : Type := {
  extensions : list Discovery.ConfigFormat;
  mergeOptions : MergeOptions;
  validationSchema : option Schema;
  templates : list ConfigTemplate;
  transformers : Transformers
}.

Record ConfigResult : Type := {
  config : value;
  files : list Discovery.ConfigFileInfo;
  env : option string
}.

(** What a call of the loader throws: a failure of the merge or
    validation engine, the error of a parser, or an [Error] with a
    message. *)
Inductive thrown : Type :=
  | Failure (f : failure)
  | ParseError (path : string)
  | Error (message : string).

Inductive completion (A : Type) : Type :=
  | Normal (a : A)
  | Throws (e : thrown).
Arguments Normal {A} a.
Arguments Throws {A} e.

#[global] Instance completion_ret : MRet completion := fun A a => Normal a.
#[global] Instance completion_bind : MBind completion := fun A B f m =>
  match m with
  | Normal a => f a
  | Throws e => Throws e
  end.

Definition lift {A} (m : outcome A) : completion A :=
  match m with
  | Returns a => Normal a
  | Fails f => Throws (Failure f)
  end.

(** [parserRegistry.parseFile(path)] followed by [resolveConfig]: the
    document a file holds, allocated in the store, or nothing when
    parsing throws. *)
Definition parser : Type := heap -> string -> option (heap * value).

(** [errors.join(', ')] *)
Fixpoint join (sep : string) (l : list string) : string :=
  match l with
  | [] => ""
  | [x] => x
  | x :: l' => x +:+ sep +:+ join sep l'
  end.

(** [files.filter(f => f.isBase)] *)
Definition baseFiles (files : list Discovery.ConfigFileInfo)
    : list Discovery.ConfigFileInfo :=
  filter (fun f => Discovery.isBase f = true) files.

(** [files.filter(f => !f.isBase && f.env === env)] *)
Definition envFiles (files : list Discovery.ConfigFileInfo)
    (env : option string) : list Discovery.ConfigFileInfo :=
  filter (fun f => Discovery.isBase f = false /\ Discovery.env f = env) files.

(** The body of the two loading loops: parse, then transform when there
    are transformers. *)
Definition loadFile (parse : parser) (o : LDesignConfigOptions) (fuel : nat)
    (h : heap) (file : Discovery.ConfigFileInfo) : completion (heap * value) :=
  match parse h (Discovery.path file) with
  | None => Throws (ParseError (Discovery.path file))
  | Some (h1, config) =>
      if bool_decide (0 < length (transformers o)) then
        lift (transformMerge fuel h1 config config (transformers o) None)
      else Normal (h1, config)
  end.

(** [for (const file of ...) { ...; configs.push(config) }] *)
Fixpoint loadFiles (parse : parser) (o : LDesignConfigOptions) (fuel : nat)
    (files : list Discovery.ConfigFileInfo) (h : heap) (configs : list value)
    : completion (heap * list value) :=
  match files with
  | [] => Normal (h, configs)
  | file :: files' =>
      '(h1, config) ← loadFile parse o fuel h file;
      loadFiles parse o fuel files' h1 (configs ++ [config])
  end.

(** [for (const config of configs) mergedConfig = deepMerge(mergedConfig,
    config, mergeOptions)] *)
Fixpoint mergeAll (fuel : nat) (o : MergeOptions) (configs : list value)
    (h : heap) (mergedConfig : value) : outcome (heap * value) :=
  match configs with
  | [] => Returns (h, mergedConfig)
  | config :: configs' =>
      '(h1, merged) ← deepMerge fuel h mergedConfig config o;
      mergeAll fuel o configs' h1 merged
  end.

(** The validation step that ends [loadConfig]. *)
Definition validateLoaded (schema : option Schema) (h : heap)
    (mergedConfig : value) : completion (heap * value) :=
  match schema with
  | None => Normal (h, mergedConfig)
  | Some s =>
      '(h1, validation) ← lift (validateConfig h mergedConfig s);
      if isValid validation then Normal (h1, validated validation)
      else Throws (Error ("Configuration validation failed: "
                            +:+ join ", " (errors validation)))
  end.

Definition loadConfig (fs : Discovery.filesystem) (parse : parser)
    (configName configDir : string) (o : LDesignConfigOptions) (fuel : nat)
    (h : heap) (env : option string) : completion (heap * ConfigResult) :=
  let files :=
    Discovery.findConfigFiles fs configName configDir env
      (Some (extensions o)) in
  if bool_decide (length files = 0) then
    let '(h1, mergedConfig) := alloc h (Obj []) in
    '(h2, mergedConfig) ← validateLoaded (validationSchema o) h1 mergedConfig;
    Normal (h2, {| config := mergedConfig; files := []; env := env |})
  else
    '(h1, configs) ← loadFiles parse o fuel (baseFiles files) h [];
    '(h2, configs) ← loadFiles parse o fuel (envFiles files env) h1 configs;
    let '(h3, mergedConfig) := alloc h2 (Obj []) in
    '(h4, mergedConfig) ← lift (mergeAll fuel (mergeOptions o) configs h3
                                  mergedConfig);
    '(h5, mergedConfig) ← validateLoaded (validationSchema o) h4 mergedConfig;
    Normal (h5, {| config := mergedConfig; files := files; env := env |}).

(** [applyTemplates]: the templates of the options, applied in turn. *)
Fixpoint applyTemplates (fuel : nat) (ts : list ConfigTemplate) (h : heap)
    (result : value) : outcome (heap * value) :=
  match ts with
  | [] => Returns (h, result)
  | t :: ts' =>
      '(h1, result) ← applyTemplate fuel h result t;
      applyTemplates fuel ts' h1 result
  end.

(** [validateConfiguration] *)
Definition validateConfiguration (o : LDesignConfigOptions) (h : heap)
    (config : value) : outcome (heap * ValidationResult) :=
  match validationSchema o with
  | None => Returns (h, {| isValid := true; errors := []; validated := config |})
  | Some s => validateConfig h config s
  end.

End Loader.

(* ================================================================= *)
(** ** [mergeConfigs] of [define-config.ts] *)

Module DefineConfig.
Import MergeVariants.

(** [ConfigDefinition]: a document, or a function that produces one. *)
Inductive ConfigDefinition : Type :=
  | Plain (config : value)
  | Thunk (f : heap -> heap * value).

(** The function [mergeConfigs] returns, called. *)
Fixpoint mergeConfigs_from (fuel : nat) (configs : list ConfigDefinition)
    (h : heap) (result : value) : outcome (heap * value) :=
  match configs with
  | [] => Returns (h, result)
  | config :: configs' =>
      let '(h1, resolved) :=
        match config with
        | Plain c => (h, c)
        | Thunk f => f h
        end in
      '(h2, result) ← deepMergeHelper fuel h1 result resolved;
      mergeConfigs_from fuel configs' h2 result
  end.

Definition mergeConfigs (fuel : nat) (configs : list ConfigDefinition)
    (h : heap) : outcome (heap * value) :=
  let '(h1, result) := alloc h (Obj []) in
  mergeConfigs_from fuel configs h1 result.

(** *** [createConfigSchema] *)

(** One entry of the schema of [createConfigSchema]; an omitted
    [required] is [false], an omitted [default] is [VUndefined]. *)
Record FieldRule : Type := {
  type : Validate.SchemaType;
  required : bool;
  default : value;
  validator : option (heap -> value -> value)
}.

(** The schema: its entries as [Object.entries] lists them. *)
Abbreviation FieldSchema := (list (string * FieldRule)).

(** The values JavaScript takes for true in a condition. *)
Definition truthy_value (v : value) : bool :=
  match v with
  | VUndefined | VNull => false
  | VBool b => b
  | VNum n => negb (n =? 0)%Z
  | VStr s => negb (bool_decide (s = EmptyString))
  | VRef _ => true
  end.

(** The body of the loop of [validate]. *)
Definition validateField (key : string) (rules : FieldRule) (h : heap)
    (config : value) (result : loc) : Loader.completion heap :=
  value ← Loader.lift (member h config key);
  if required rules && (is_undefined value || is_null value) then
    Loader.Throws
      (Loader.Error ("Required configuration field '" +:+ key
                       +:+ "' is missing"))
  else if is_undefined value && negb (is_undefined (default rules)) then
    Loader.Normal (assign h result key (default rules))
  else if is_undefined value then Loader.Normal h
  else
    let actualType := Validate.actualType h value in
    if bool_decide (actualType <> Validate.type_name (type rules)) then
      Loader.Throws
        (Loader.Error ("Configuration field '" +:+ key
                         +:+ "' should be of type '"
                         +:+ Validate.type_name (type rules)
                         +:+ "', got '" +:+ actualType +:+ "'"))
    else if match validator rules with
            | Some check => negb (truthy_value (check h value))
            | None => false
            end then
      Loader.Throws
        (Loader.Error ("Configuration field '" +:+ key
                         +:+ "' failed custom validation"))
    else Loader.Normal (assign h result key value).

Fixpoint validateFields (schema : FieldSchema) (h : heap) (config : value)
    (result : loc) : Loader.completion heap :=
  match schema with
  | [] => Loader.Normal h
  | (key, rules) :: rest =>
      h1 ← validateField key rules h config result;
      validateFields rest h1 config result
  end.

(** [createConfigSchema(schema).validate(config)] *)
Definition validate (schema : FieldSchema) (h : heap) (config : value)
    : Loader.completion (heap * value) :=
  let '(h1, result) := alloc h (Obj []) in
  h2 ← validateFields schema h1 config (length h);
  Loader.Normal (h2, result).


(** The same entry as a rule of [validateConfig], and the same schema
    as one of its schemas. *)
Definition toRule (rules : FieldRule) : Validate.Rule :=
  Validate.mkRule (Some (type rules)) (required rules) (default rules)
    (validator rules) None None.

Fixpoint toSchema (schema : FieldSchema) : Validate.Schema :=
  match schema with
  | [] => Validate.SNil
  | (key, rules) :: rest => Validate.SCons key (toRule rules) (toSchema rest)
  end.

End DefineConfig.

(* ================================================================= *)
(** ** Well-formed inputs of the merge loops *)

Module LoaderFrame.
Import Frame.

(** A parsed document of the store: a mapping with distinct keys that
    is tree-shaped, of depth at most [fuel], and none of whose keys is
    a name inherited from [Object.prototype]. *)
Definition document (fuel : nat) (h : heap) (c : value) : Prop :=
  exists ps, ownProps h c = Returns ps /\ NoDup (map fst ps) /\
             plainKeys fuel h c = true.

(** What a configuration definition resolves to: the document itself,
    or the document its function returns. *)
Definition resolved (config : DefineConfig.ConfigDefinition) (h : heap)
    : heap * value :=
  match config with
  | DefineConfig.Plain c => (h, c)
  | DefineConfig.Thunk f => f h
  end.

(** [gives fuel h0 config k v]: in every store that extends [h0] the
    definition resolves, allocating at most, to a document that has [v]
    at [k] ([undefined] when it does not define the key). *)
Definition gives (fuel : nat) (h0 : heap) (config : DefineConfig.ConfigDefinition)
    (k : string) (v : value) : Prop :=
  forall h, h0 `prefix_of` h ->
    h `prefix_of` (resolved config h).1 /\
    document fuel (resolved config h).1 (resolved config h).2 /\
    get (resolved config h).1 (resolved config h).2 k = v.

(** [reads fuel h0 parse file k v]: in every store that extends [h0]
    the file parses, the parser allocating at most, to a document that
    has [v] at [k]. *)
Definition reads (fuel : nat) (h0 : heap) (parse : Loader.parser)
    (file : Discovery.ConfigFileInfo) (k : string) (v : value) : Prop :=
  forall h, h0 `prefix_of` h ->
    exists h1 d, parse h (Discovery.path file) = Some (h1, d) /\
      h `prefix_of` h1 /\ document fuel h1 d /\ get h1 d k = v.

End LoaderFrame.

(* ================================================================= *)
(** ** Nested keys *)

Module Paths.

(** [v.k1.k2...kn], read through mappings; [undefined] when a step
    meets something that is not a mapping. *)
Fixpoint get_path (h : heap) (v : value) (path : list string) : value :=
  match path with
  | [] => v
  | k :: path' => get_path h (get h v k) path'
  end.

(** The mappings of the store have distinct keys, as objects do. *)
Definition distinct_keys (h : heap) : Prop :=
  forall l ps, h !! l = Some (Obj ps) -> NoDup (map fst ps).

(** [confined a b n h v]: [v] is tree-shaped, of depth at most [n], no
    key met when descending from it is a name inherited from
    [Object.prototype], and no reference met lies in the range from [a]
    up to [b], excluded. *)
Fixpoint confined (a b : nat) (n : nat) (h : heap) (v : value) : bool :=
  match v with
  | VRef l =>
      (bool_decide (l < a) || bool_decide (b <= l)) &&
      match h !! l with
      | Some (Obj ps) =>
          match n with
          | O => false
          | S n' =>
              forallb (fun kv => negb (inherited kv.1) && confined a b n' h kv.2)
                ps
          end
      | Some (Arr _) => true
      | None => false
      end
  | _ => true
  end.

(** Every transformer returns a scalar or [undefined] that depends on
    the value only, and leaves the store alone. *)
Definition scalar_transformers (ts : list (string * (heap -> value -> heap * value)))
    : Prop :=
  forall k t, (k, t) ∈ ts ->
    exists g : value -> value,
      (forall h x, t h x = (h, g x)) /\ (forall x l, g x <> VRef l).

End Paths.

(* ================================================================= *)
(** ** The parser registry *)

Module Parsers.
Import Discovery FileNames.

(** The parsers the registry holds. *)
Inductive ConfigParser : Type :=
  | TypeScriptParser
  | JavaScriptParser
  | JsonParser
  | Json5Parser
  | YamlParser
  | EnvParser.

(** [s.endsWith(suffix)] *)
Definition endsWith (s suffix : string) : bool :=
  bool_decide (chars suffix `suffix_of` chars s).

Definition extensions (parser : ConfigParser) : list string :=
  match parser with
  | TypeScriptParser => ["ts"]
  | JavaScriptParser => ["js"; "mjs"; "cjs"]
  | JsonParser => ["json"]
  | Json5Parser => ["json5"]
  | YamlParser => ["yaml"; "yml"]
  | EnvParser => ["env"]
  end.

(** [canParse]; the two regular expressions test the end of the path
    for one of their alternatives. *)
Definition canParse (parser : ConfigParser) (filePath : string) : bool :=
  match parser with
  | TypeScriptParser => endsWith filePath ".ts"
  | JavaScriptParser =>
      endsWith filePath ".js" || endsWith filePath ".mjs"
        || endsWith filePath ".cjs"
  | JsonParser => endsWith filePath ".json"
  | Json5Parser => endsWith filePath ".json5"
  | YamlParser => endsWith filePath ".yaml" || endsWith filePath ".yml"
  | EnvParser => endsWith filePath ".env"
  end.

(** The parsers of the default registry, in the order the constructor
    registers them. *)
Definition parsers : list ConfigParser :=
  [TypeScriptParser; JavaScriptParser; JsonParser; Json5Parser; YamlParser;
   EnvParser].

(** [this.parsers.find(parser => parser.canParse(filePath)) || null] *)
Definition getParser (filePath : string) : option ConfigParser :=
  List.find (fun parser => canParse parser filePath) parsers.

(** The parser that lists the extension of a format. *)
Definition parserOf (f : ConfigFormat) : ConfigParser :=
  match f with
  | F_ts => TypeScriptParser
  | F_js => JavaScriptParser
  | F_json => JsonParser
  | F_json5 => Json5Parser
  | F_yaml | F_yml => YamlParser
  | F_env => EnvParser
  end.

End Parsers.

(* ================================================================= *)
(** ** What a schema asks of an empty configuration *)

Module EmptyConfig.
Import Validate SchemaFrame.

(** The keys the schema requires, in schema order. *)
Definition requiredKeys (s : Schema) : list string :=
  map fst (filter (fun kr => required kr.2 = true) (schema_entries s)).

(** The defaults of the schema, set one after the other. *)
Definition defaultsOf (s : Schema) : props :=
  fold_left (fun acc kr => set_prop acc kr.1 (default kr.2)) (schema_entries s) [].

End EmptyConfig.

(* ================================================================= *)
(** ** Facts about property lists and the store *)

Module JSFacts.

Lemma lookup_set_prop_eq ps k v :
  lookup_prop k (set_prop ps k v) = Some v.
Proof.
  induction ps as [|[k' v'] ps IH]; simpl.
  - by rewrite decide_True.
  - destruct (decide (k' = k)) as [->|Hne]; simpl.
    + by rewrite decide_True.
    + by rewrite decide_False.
Qed.

Lemma lookup_set_prop_ne ps k k' v :
  k <> k' -> lookup_prop k (set_prop ps k' v) = lookup_prop k ps.
Proof.
  intros Hne. induction ps as [|[k0 v0] ps IH]; simpl.
  - rewrite decide_False; [done | congruence].
  - destruct (decide (k0 = k')) as [->|Hne0]; simpl.
    + rewrite !decide_False; [done | congruence | congruence].
    + by rewrite IH.
Qed.

Lemma lookup_prop_Some_elem k v (ps : props) :
  lookup_prop k ps = Some v -> (k, v) ∈ ps.
Proof.
  induction ps as [|[k' v'] ps IH]; simpl; [done|].
  destruct (decide (k' = k)) as [->|Hne].
  - intros [= ->]. left.
  - intros H. right. auto.
Qed.

Lemma lookup_prop_Some_key k v (ps : props) :
  lookup_prop k ps = Some v -> k ∈ map fst ps.
Proof.
  intros H. apply lookup_prop_Some_elem in H.
  apply list_elem_of_fmap. exists (k, v). done.
Qed.

Lemma assign_length h r k v : length (assign h r k v) = length h.
Proof.
  unfold assign. destruct (h !! r) as [[ps|xs]|]; try done.
  apply length_insert.
Qed.

Lemma assign_lookup_ne h r k v l :
  l <> r -> assign h r k v !! l = h !! l.
Proof.
  intros Hne. unfold assign. destruct (h !! r) as [[ps|xs]|]; try done.
  by apply list_lookup_insert_ne.
Qed.

Lemma assign_lookup_eq h r k v ps :
  h !! r = Some (Obj ps) ->
  assign h r k v !! r = Some (Obj (set_prop ps k v)).
Proof.
  intros H. unfold assign. rewrite H.
  apply list_lookup_insert_eq. by eapply lookup_lt_Some.
Qed.

Lemma assign_prefix h0 h r k v :
  h0 `prefix_of` h -> length h0 <= r -> h0 `prefix_of` assign h r k v.
Proof.
  intros [t ->] Hr. unfold assign.
  destruct ((h0 ++ t) !! r) as [[ps|xs]|]; try by exists t.
  rewrite insert_app_r_alt by done. by eexists.
Qed.

Lemma prefix_lookup_lt (h h' : heap) l :
  h `prefix_of` h' -> l < length h -> h' !! l = h !! l.
Proof.
  intros [t ->] Hl. by apply lookup_app_l.
Qed.

Lemma lookup_alloc (h : heap) c : (h ++ [c]) !! length h = Some c.
Proof. by apply list_lookup_middle. Qed.

Lemma ownProps_get h v ps k :
  ownProps h v = Returns ps -> get h v k = get_prop ps k.
Proof.
  destruct v as [| | | | |l]; simpl; try by intros [= <-].
  destruct (h !! l) as [[ps'|xs]|]; try done. by intros [= <-].
Qed.

End JSFacts.

(* ================================================================= *)
(** ** The merge loop: what one iteration does to the store *)

Module MergeFacts.
Import Merge Frame JSFacts.

Lemma stable_except_refl r h : stable_except r h h.
Proof. split; auto. Qed.

Lemma stable_except_trans r h1 h2 h3 :
  stable_except r h1 h2 -> stable_except r h2 h3 -> stable_except r h1 h3.
Proof.
  intros [L1 A1] [L2 A2]. split; [lia|].
  intros l Hl Hr. rewrite A2 by (auto; lia). auto.
Qed.

Lemma prefix_stable_except r (h h' : heap) :
  h `prefix_of` h' -> stable_except r h h'.
Proof.
  intros Hp. split.
  - by apply prefix_length.
  - intros l Hl _. by apply prefix_lookup_lt.
Qed.

Lemma assign_stable_except r h k v : stable_except r h (assign h r k v).
Proof.
  split.
  - by rewrite assign_length.
  - intros l _ Hne. by apply assign_lookup_ne.
Qed.

(** An inherited member called as merger only allocates. *)
Lemma inheritedMerger_prefix o key h own tv h1 v :
  pureMergers o ->
  inheritedMerger o key h own tv = Returns (h1, v) ->
  h `prefix_of` h1.
Proof.
  intros Hpure. unfold inheritedMerger.
  repeat (case_bool_decide; simpl; try done); try by intros [= <- <-].
  - destruct (customMergers_of o "toString") as [m|] eqn:Hm.
    + intros [= Heq]. pose proof (Hpure _ _ Hm h VUndefined VUndefined) as Hp.
      by rewrite Heq in Hp.
    + by intros [= <- <-].
  - destruct (customMergers o); [done|]. intros [= <- <-]. by apply prefix_app_r.
  - destruct own; [|done].
    destruct tv; try done; intros [= <- <-]; done || by apply prefix_app_r.
Qed.

(** Every iteration either leaves the store alone or lets the store grow
    and then assigns one property of [result]. *)
Lemma mergeKey_shape self o source r h key h' :
  pureMergers o ->
  (forall h t s h1 v, self h t s = Returns (h1, v) -> h `prefix_of` h1) ->
  mergeKey self o source r h key = Returns h' ->
  h' = h \/ exists h1 v, h `prefix_of` h1 /\ h' = assign h1 r key v.
Proof.
  intros Hpure Hself. unfold mergeKey.
  destruct (includes _ key); [intros [= <-]; by left|].
  destruct (match onlyKeys o with Some _ => _ | None => _ end);
    [intros [= <-]; by left|].
  destruct (is_undefined _); [intros [= <-]; by left|].
  destruct (customMergers_of o key) as [m|] eqn:Hm.
  - destruct (inherited key && _); [done|].
    specialize (Hpure _ _ Hm h (get h (VRef r) key) (get h source key)).
    destruct (m h _ _) as [h1 v]. intros [= <-]. right. by exists h1, v.
  - destruct (inherited key).
    { destruct (inheritedMerger o key h _ _) as [[h1 v]|] eqn:Hi; simpl; [|done].
      intros [= <-]. right. exists h1, v. split; [|done].
      by eapply inheritedMerger_prefix. }
    destruct (isArray h (get h source key)).
    + destruct (isArray h (get h (VRef r) key)).
      * destruct (arrayMergeStrategy_of o); simpl; intros [= <-]; right.
        -- exists h, (get h source key). done.
        -- eexists _, _. split; [|done]. by apply prefix_app_r.
        -- eexists _, _. split; [|done]. by apply prefix_app_r.
      * intros [= <-]. right. by exists h, (get h source key).
    + destruct (isPlainObject h (get h source key) && _).
      * destruct (self h _ _) as [[h1 v]|] eqn:Hs; simpl; [|done].
        intros [= <-]. right. exists h1, v. split; [|done]. eauto.
      * intros [= <-]. right. by exists h, (get h source key).
Qed.

Lemma mergeKey_prefix self o source r h0 h key h' :
  pureMergers o ->
  (forall h t s h1 v, self h t s = Returns (h1, v) -> h `prefix_of` h1) ->
  h0 `prefix_of` h -> length h0 <= r ->
  mergeKey self o source r h key = Returns h' ->
  h0 `prefix_of` h'.
Proof.
  intros Hpure Hself Hp Hr Hk.
  destruct (mergeKey_shape _ _ _ _ _ _ _ Hpure Hself Hk)
    as [->|(h1 & v & Hp1 & ->)]; [done|].
  apply assign_prefix; [|done]. by etrans.
Qed.

Lemma mergeKey_stable self o source r h key h' :
  pureMergers o ->
  (forall h t s h1 v, self h t s = Returns (h1, v) -> h `prefix_of` h1) ->
  mergeKey self o source r h key = Returns h' ->
  stable_except r h h'.
Proof.
  intros Hpure Hself Hk.
  destruct (mergeKey_shape _ _ _ _ _ _ _ Hpure Hself Hk)
    as [->|(h1 & v & Hp1 & ->)]; [apply stable_except_refl|].
  eapply stable_except_trans; [by apply prefix_stable_except|].
  apply assign_stable_except.
Qed.

(** The object under construction stays an object, and an iteration for
    [key] leaves its other properties as they were. *)
Lemma mergeKey_result self o source r h key h' rp :
  pureMergers o ->
  (forall h t s h1 v, self h t s = Returns (h1, v) -> h `prefix_of` h1) ->
  h !! r = Some (Obj rp) ->
  mergeKey self o source r h key = Returns h' ->
  exists rp', h' !! r = Some (Obj rp') /\
    forall k, k <> key -> lookup_prop k rp' = lookup_prop k rp.
Proof.
  intros Hpure Hself Hr Hk.
  destruct (mergeKey_shape _ _ _ _ _ _ _ Hpure Hself Hk)
    as [->|(h1 & v & Hp1 & ->)]; [by exists rp|].
  exists (set_prop rp key v). split.
  - apply assign_lookup_eq. rewrite (prefix_lookup_lt h h1); [done|done|].
    by eapply lookup_lt_Some.
  - intros k Hne. by apply lookup_set_prop_ne.
Qed.

Lemma forIn_app body ks1 ks2 h :
  forIn body (ks1 ++ ks2) h = (h' ← forIn body ks1 h; forIn body ks2 h').
Proof.
  revert h. induction ks1 as [|k ks1 IH]; intros h; simpl; [done|].
  destruct (body h k) as [h1|e]; simpl; [apply IH|done].
Qed.

(** A run of iterations over keys other than [k] keeps [result[k]]. *)
Lemma forIn_other self o source r k keys : forall h h' rp,
  pureMergers o ->
  (forall h t s h1 v, self h t s = Returns (h1, v) -> h `prefix_of` h1) ->
  k ∉ keys ->
  h !! r = Some (Obj rp) ->
  forIn (mergeKey self o source r) keys h = Returns h' ->
  stable_except r h h' /\
  exists rp', h' !! r = Some (Obj rp') /\ lookup_prop k rp' = lookup_prop k rp.
Proof.
  induction keys as [|key keys IH]; intros h h' rp Hpure Hself Hk Hr; simpl.
  - intros [= <-]. split; [apply stable_except_refl|]. by exists rp.
  - destruct (mergeKey self o source r h key) as [h1|e] eqn:H1; simpl; [|done].
    intros Hrest.
    destruct (mergeKey_result _ _ _ _ _ _ _ _ Hpure Hself Hr H1) as (rp1 & Hr1 & Heq1).
    apply not_elem_of_cons in Hk as [Hne Hk].
    destruct (IH h1 h' rp1 Hpure Hself Hk Hr1 Hrest) as (Hst & rp' & Hr' & Heq').
    split.
    + eapply stable_except_trans; [|done]. by eapply mergeKey_stable.
    + exists rp'. split; [done|]. rewrite Heq'. by apply Heq1.
Qed.

Lemma forIn_prefix self o source r h0 keys : forall h h',
  pureMergers o ->
  (forall h t s h1 v, self h t s = Returns (h1, v) -> h `prefix_of` h1) ->
  h0 `prefix_of` h -> length h0 <= r ->
  forIn (mergeKey self o source r) keys h = Returns h' ->
  h0 `prefix_of` h'.
Proof.
  induction keys as [|key keys IH]; intros h h' Hpure Hself Hp Hr; simpl.
  - by intros [= <-].
  - destruct (mergeKey self o source r h key) as [h1|e] eqn:H1; simpl; [|done].
    apply IH; try done. by eapply mergeKey_prefix.
Qed.

(** [deepMerge] only allocates: whatever the strategy, the store it
    returns extends the store it was given. *)
Lemma deepMerge_prefix o fuel : forall h target source h' res,
  pureMergers o ->
  deepMerge fuel h target source o = Returns (h', res) ->
  h `prefix_of` h'.
Proof.
  induction fuel as [|fuel IH]; intros h target source h' res Hpure; simpl; [done|].
  assert (Hself : forall h t s h1 v,
    deepMerge fuel h t s o = Returns (h1, v) -> h `prefix_of` h1) by eauto.
  assert (Hdeep :
    (tp ← ownProps h target;
     let '(h1, result) := alloc h (Obj tp) in
     sp ← ownProps h1 source;
     h2 ← forIn (mergeKey (fun h' t s => deepMerge fuel h' t s o)
                   o source (length h)) (map fst sp) h1;
     Returns (h2, result)) = Returns (h', res) -> h `prefix_of` h').
  { destruct (ownProps h target) as [tp|e]; simpl; [|done].
    destruct (ownProps (h ++ [Obj tp]) source) as [sp|e]; simpl; [|done].
    destruct (forIn _ _ _) as [h2|e] eqn:Hloop; simpl; [|done].
    intros [= <- <-].
    eapply forIn_prefix in Hloop; try done. by apply prefix_app_r. }
  destruct (strategy_of o); try exact Hdeep.
  - destruct (ownProps h target) as [tp|e]; simpl; [|done].
    destruct (ownProps h source) as [sp|e]; simpl; [|done].
    intros [= <- <-]. by apply prefix_app_r.
  - by intros [= <- <-].
Qed.

Lemma deepMerge_self_prefix o fuel :
  pureMergers o ->
  forall h t s h1 v,
    (fun h' t s => deepMerge fuel h' t s o) h t s = Returns (h1, v) ->
    h `prefix_of` h1.
Proof.
  intros Hpure h t s h1 v H. cbv beta in H.
  exact (deepMerge_prefix _ _ _ _ _ _ _ Hpure H).
Qed.

End MergeFacts.

(* ================================================================= *)
(** ** Reading values after the store has grown *)

Module GrowthFacts.
Import Merge Frame JSFacts MergeFacts.

Lemma ownProps_prefix (h h' : heap) v ps :
  h `prefix_of` h' -> ownProps h v = Returns ps -> ownProps h' v = Returns ps.
Proof.
  intros Hp. destruct v as [| | | | |l]; simpl; try done.
  destruct (h !! l) as [c|] eqn:Hl; [|done].
  rewrite (prefix_lookup_lt h h') by (done || by eapply lookup_lt_Some).
  by rewrite Hl.
Qed.

Lemma isArray_prefix (h h' : heap) v :
  h `prefix_of` h' -> allocated h v -> isArray h' v = isArray h v.
Proof.
  intros Hp. destruct v as [| | | | |l]; simpl; try done.
  intros Hl. by rewrite (prefix_lookup_lt h h').
Qed.

Lemma elements_prefix (h h' : heap) v :
  h `prefix_of` h' -> allocated h v -> elements h' v = elements h v.
Proof.
  intros Hp. destruct v as [| | | | |l]; simpl; try done.
  intros Hl. by rewrite (prefix_lookup_lt h h').
Qed.

Lemma isArray_allocated h v : isArray h v = true -> allocated h v.
Proof.
  destruct v as [| | | | |l]; simpl; try done.
  destruct (h !! l) eqn:Hl; [|done]. intros _. by eapply lookup_lt_Some.
Qed.

Lemma isPlainObject_ownProps h v :
  isPlainObject h v = true -> exists ps, ownProps h v = Returns ps.
Proof.
  unfold isPlainObject. destruct v as [| | | | |l]; simpl; try done.
  destruct (h !! l) as [[ps|xs]|]; simpl; try done. by exists ps.
Qed.

Lemma isPlainObject_scalar h v : is_scalar v = true -> isPlainObject h v = false.
Proof. by destruct v. Qed.

Lemma isArray_scalar h v : is_scalar v = true -> isArray h v = false.
Proof. by destruct v. Qed.

Lemma shallower_prefix n : forall (h h' : heap) v,
  h `prefix_of` h' -> shallower n h v = true -> shallower n h' v = true.
Proof.
  induction n as [|n IH]; intros h h' v Hp; destruct v as [| | | | |l];
    simpl; try done.
  - destruct (h !! l) as [c|] eqn:Hl; [|done].
    rewrite (prefix_lookup_lt h h') by (done || by eapply lookup_lt_Some).
    by rewrite Hl.
  - destruct (h !! l) as [c|] eqn:Hl; [|done].
    rewrite (prefix_lookup_lt h h') by (done || by eapply lookup_lt_Some).
    rewrite Hl. destruct c as [ps|xs]; [|done].
    rewrite !forallb_forall. intros Hall kv Hin. eapply IH; eauto.
Qed.

(** The values stored in a document of depth at most [S n] have depth
    at most [n]. *)
Lemma shallower_get n h source sp k :
  shallower (S n) h source = true ->
  ownProps h source = Returns sp ->
  shallower n h (get_prop sp k) = true.
Proof.
  unfold get_prop. destruct (lookup_prop k sp) as [v|] eqn:Hk; simpl;
    [|by destruct n].
  intros Hs Ho. apply lookup_prop_Some_elem in Hk.
  destruct source as [| | | | |l]; simpl in *; try done;
    try (injection Ho as <-; by apply elem_of_nil in Hk).
  destruct (h !! l) as [[ps|xs]|]; try done. injection Ho as ->.
  rewrite forallb_forall in Hs. apply (Hs (k, v)). by apply list_elem_of_In.
Qed.

Lemma shallower_plain_pos n h v :
  shallower n h v = true -> isPlainObject h v = true -> 0 < n.
Proof.
  unfold isPlainObject. destruct n; [|lia].
  destruct v as [| | | | |l]; simpl; try done.
  destruct (h !! l) as [[ps|xs]|]; simpl; done.
Qed.

Lemma shallower_props_pos n h v ps k x :
  shallower n h v = true -> ownProps h v = Returns ps ->
  lookup_prop k ps = Some x -> 0 < n.
Proof.
  destruct n; [|lia].
  destruct v as [| | | | |l]; simpl; try done; try by intros _ [= <-].
  destruct (h !! l) as [[ps'|xs]|]; simpl; done.
Qed.

(** A document with plain keys is tree-shaped, stays plain when the
    store grows, and so are the values it holds; none of its keys is an
    inherited name. *)
Lemma plainKeys_shallower n : forall h v,
  plainKeys n h v = true -> shallower n h v = true.
Proof.
  induction n as [|n IH]; intros h v; destruct v as [| | | | |l];
    simpl; try done.
  destruct (h !! l) as [[ps|xs]|]; try done.
  rewrite !forallb_forall. intros Hall kv Hin.
  apply IH. by destruct (andb_prop _ _ (Hall kv Hin)).
Qed.

Lemma plainKeys_prefix n : forall (h h' : heap) v,
  h `prefix_of` h' -> plainKeys n h v = true -> plainKeys n h' v = true.
Proof.
  induction n as [|n IH]; intros h h' v Hp; destruct v as [| | | | |l];
    simpl; try done.
  - destruct (h !! l) as [c|] eqn:Hl; [|done].
    rewrite (prefix_lookup_lt h h') by (done || by eapply lookup_lt_Some).
    by rewrite Hl.
  - destruct (h !! l) as [c|] eqn:Hl; [|done].
    rewrite (prefix_lookup_lt h h') by (done || by eapply lookup_lt_Some).
    rewrite Hl. destruct c as [ps|xs]; [|done].
    rewrite !forallb_forall. intros Hall kv Hin.
    destruct (andb_prop _ _ (Hall kv Hin)) as [Hk Hv].
    rewrite Hk. simpl. eapply IH; eauto.
Qed.

Lemma plainKeys_get n h source sp k :
  plainKeys (S n) h source = true ->
  ownProps h source = Returns sp ->
  plainKeys n h (get_prop sp k) = true.
Proof.
  unfold get_prop. destruct (lookup_prop k sp) as [v|] eqn:Hk; simpl;
    [|by destruct n].
  intros Hs Ho. apply lookup_prop_Some_elem in Hk.
  destruct source as [| | | | |l]; simpl in *; try done;
    try (injection Ho as <-; by apply elem_of_nil in Hk).
  destruct (h !! l) as [[ps|xs]|]; try done. injection Ho as ->.
  rewrite forallb_forall in Hs.
  by destruct (andb_prop _ _ (Hs (k, v) (proj1 (list_elem_of_In _ _) Hk))).
Qed.

Lemma plainKeys_key n h source sp k :
  plainKeys n h source = true ->
  ownProps h source = Returns sp ->
  k ∈ map fst sp ->
  inherited k = false.
Proof.
  intros Hs Ho Hk. apply list_elem_of_fmap in Hk as ([k' v] & -> & Hin).
  destruct source as [| | | | |l]; simpl in Ho; try done;
    try (injection Ho as <-; by apply elem_of_nil in Hin).
  destruct n; simpl in Hs;
    (destruct (h !! l) as [[ps|xs]|]; try done; injection Ho as ->).
  rewrite forallb_forall in Hs.
  destruct (andb_prop _ _ (Hs (k', v) (proj1 (list_elem_of_In _ _) Hin)))
    as [Hk _].
  by apply negb_true_iff in Hk.
Qed.

(** The values of a document with plain keys have plain keys, one level
    down. *)
Lemma plainKeys_sub n h source sp k :
  plainKeys n h source = true ->
  ownProps h source = Returns sp ->
  k ∈ map fst sp ->
  plainKeys (pred n) h (get_prop sp k) = true.
Proof.
  intros Hpl Hs Hk. destruct n as [|n].
  - apply list_elem_of_fmap in Hk as ([k' v] & -> & Hin).
    destruct source as [| | | | |l]; simpl in Hs; try done;
      try (injection Hs as <-; by apply elem_of_nil in Hin).
    simpl in Hpl. by destruct (h !! l) as [[ps|xs]|].
  - by eapply plainKeys_get.
Qed.

(** An assignment to a key that is no inherited name is an own
    property. *)
Lemma put_plain h o k v :
  inherited k = false -> put h o k v = Returns (assign h o k v).
Proof.
  intros Hk. unfold put. case_bool_decide as Hp; [|done].
  subst k. done.
Qed.

Lemma plainKeys_allocated n h v : plainKeys n h v = true -> allocated h v.
Proof.
  destruct n, v as [| | | | |l]; simpl; try done;
    (destruct (h !! l) eqn:Hl; [|done]); intros _; by eapply lookup_lt_Some.
Qed.

Lemma ownProps_shrink (h h' : heap) v ps :
  h `prefix_of` h' -> allocated h v ->
  ownProps h' v = Returns ps -> ownProps h v = Returns ps.
Proof.
  intros Hp. destruct v as [| | | | |l]; simpl; try done.
  intros Hl. by rewrite (prefix_lookup_lt h h').
Qed.

End GrowthFacts.

(* ================================================================= *)
(** ** [deepMerge] returns on tree-shaped documents *)

Module MergeTotal.
Import Merge Frame JSFacts MergeFacts GrowthFacts.

Lemma deepMerge_deep fuel h target source o :
  deepLike (strategy_of o) = true ->
  deepMerge (S fuel) h target source o =
    (tp ← ownProps h target;
     let '(h1, result) := alloc h (Obj tp) in
     sp ← ownProps h1 source;
     h2 ← forIn (mergeKey (fun h' t s => deepMerge fuel h' t s o)
                   o source (length h)) (map fst sp) h1;
     Returns (h2, result)).
Proof. simpl. by destruct (strategy_of o). Qed.

Lemma mergeKey_returns self o source r h key :
  inherited key = false ->
  (forall tv, isPlainObject h (get h source key) = true ->
     isPlainObject h tv = true ->
     exists res, self h tv (get h source key) = Returns res) ->
  exists h', mergeKey self o source r h key = Returns h'.
Proof.
  intros Hkey Hself. unfold mergeKey. rewrite Hkey.
  destruct (includes _ key); [by eexists|].
  destruct (match onlyKeys o with Some _ => _ | None => _ end); [by eexists|].
  destruct (is_undefined _); [by eexists|].
  destruct (customMergers_of o key) as [m|].
  { cbn [andb]. destruct (m h _ _). by eexists. }
  destruct (isArray h (get h source key)).
  { destruct (isArray h _); [destruct (arrayMergeStrategy_of o)|]; by eexists. }
  destruct (isPlainObject h (get h source key)) eqn:Hs; cbn [andb];
    [|by eexists].
  destruct (isPlainObject h (get h (VRef r) key)) eqn:Ht; [|by eexists].
  destruct (Hself _ eq_refl Ht) as [[h1 v] ->]. by eexists.
Qed.

(** [deepMerge] returns on a tree-shaped source with plain keys: the
    depth of [source] is fuel enough, and no key of it reaches an
    inherited member of [customMergers]. *)
Lemma deepMerge_returns o fuel : forall h target source tp sp,
  pureMergers o ->
  0 < fuel ->
  plainKeys fuel h source = true ->
  ownProps h target = Returns tp ->
  ownProps h source = Returns sp ->
  exists h' res, deepMerge fuel h target source o = Returns (h', res).
Proof.
  induction fuel as [|fuel IH]; intros h target source tp sp Hpure Hpos Hpl Ht Hs;
    [lia|].
  destruct (deepLike (strategy_of o)) eqn:Hd.
  2:{ simpl. destruct (strategy_of o); try done.
      - rewrite Ht, Hs. simpl. by eexists _, _.
      - by eexists _, _. }
  rewrite deepMerge_deep by done. rewrite Ht. simpl.
  assert (Hp1 : h `prefix_of` h ++ [Obj tp]) by by apply prefix_app_r.
  rewrite (ownProps_prefix _ _ _ _ Hp1 Hs). simpl.
  assert (Hloop : forall keys h1, keys ⊆ map fst sp -> h `prefix_of` h1 ->
    exists h2, forIn (mergeKey (fun h' t s => deepMerge fuel h' t s o)
                        o source (length h)) keys h1 = Returns h2).
  { induction keys as [|key keys IHk]; intros h1 Hsub Hp; simpl; [by eexists|].
    destruct (mergeKey_returns (fun h' t s => deepMerge fuel h' t s o)
                o source (length h) h1 key) as [h2 Hk].
    { eapply plainKeys_key; [done|done|]. apply Hsub. left. }
    { intros tv Hps Hpt.
      destruct (isPlainObject_ownProps _ _ Hps) as [sps Hsps].
      destruct (isPlainObject_ownProps _ _ Hpt) as [tps Htps].
      assert (Hpos' : plainKeys fuel h1 (get h1 source key) = true /\ 0 < fuel).
      { assert (plainKeys fuel h1 (get h1 source key) = true) as Hsh1.
        { rewrite (ownProps_get _ _ _ _ (ownProps_prefix _ _ _ _ Hp Hs)).
          eapply plainKeys_prefix; [done|]. by eapply plainKeys_get. }
        split; [done|].
        apply (shallower_plain_pos _ h1 (get h1 source key));
          [by apply plainKeys_shallower|done]. }
      destruct Hpos' as [Hsh' Hpos'].
      destruct (IH h1 tv (get h1 source key) tps sps) as (h2 & res & Hr);
        try done. by exists (h2, res). }
    rewrite Hk. simpl. apply IHk.
    - intros x Hx. apply Hsub. by right.
    - eapply mergeKey_prefix; try done. by apply deepMerge_self_prefix. }
  destruct (Hloop (map fst sp) (h ++ [Obj tp])) as [h2 ->]; [done|done|]. simpl.
  by eexists _, _.
Qed.

End MergeTotal.

(* ================================================================= *)
(** ** The iteration that handles a given key *)

Module MergeKeyFacts.
Import Merge Frame JSFacts MergeFacts GrowthFacts MergeTotal.

(** A key is filtered out when [skipKeys] lists it or a defined
    [onlyKeys] does not. *)
Lemma unfiltered_false o k :
  unfiltered o k = false <->
  k ∈ skipKeys_of o \/ exists only, onlyKeys o = Some only /\ k ∉ only.
Proof.
  unfold unfiltered, includes.
  destruct (decide (k ∈ skipKeys_of o)) as [Hs|Hs].
  - rewrite (bool_decide_true _ Hs). simpl. split; [by left|done].
  - rewrite (bool_decide_false _ Hs). simpl.
    destruct (onlyKeys o) as [only|].
    + rewrite bool_decide_eq_false. split.
      * intros Hn. right. by exists only.
      * intros [Hin|(only' & [= <-] & Hn)]; done.
    + split; [done|]. by intros [Hin|(only' & [=] & _)].
Qed.

Lemma mergeKey_filtered self o source r h k :
  unfiltered o k = false -> mergeKey self o source r h k = Returns h.
Proof.
  unfold unfiltered, mergeKey. destruct (includes (skipKeys_of o) k); [done|].
  simpl. destruct (onlyKeys o) as [only|]; [|done]. by intros ->.
Qed.

(** Past the filters [mergeKey] is what the code after them says. *)
Lemma mergeKey_unfiltered self o source r h k :
  unfiltered o k = true ->
  inherited k = false ->
  mergeKey self o source r h k =
    let sourceValue := get h source k in
    let targetValue := get h (VRef r) k in
    if is_undefined sourceValue then Returns h
    else match customMergers_of o k with
    | Some m =>
        let '(h', v) := m h targetValue sourceValue in
        Returns (assign h' r k v)
    | None =>
        if isArray h sourceValue then
          if isArray h targetValue then
            match arrayMergeStrategy_of o with
            | arr_concat =>
                let '(h', a) :=
                  alloc h (Arr (elements h targetValue ++ elements h sourceValue)) in
                Returns (assign h' r k a)
            | arr_unique =>
                let '(h', a) :=
                  alloc h (Arr (set_of (elements h targetValue ++ elements h sourceValue))) in
                Returns (assign h' r k a)
            | arr_replace => Returns (assign h r k sourceValue)
            end
          else Returns (assign h r k sourceValue)
        else if isPlainObject h sourceValue && isPlainObject h targetValue then
          '(h', v) ← self h targetValue sourceValue;
          Returns (assign h' r k v)
        else Returns (assign h r k sourceValue)
    end.
Proof.
  unfold unfiltered, mergeKey. intros Hu ->.
  destruct (includes (skipKeys_of o) k); [done|].
  simpl in *. destruct (onlyKeys o) as [only|]; [|done]. by rewrite Hu.
Qed.

Lemma mergeKey_scalar self o source r h k v :
  unfiltered o k = true ->
  inherited k = false ->
  customMergers_of o k = None ->
  get h source k = v ->
  is_scalar v = true ->
  mergeKey self o source r h k = Returns (assign h r k v).
Proof.
  intros Hu Hi Hm Hv Hs. rewrite mergeKey_unfiltered by done. cbv zeta.
  rewrite Hv, Hm, isArray_scalar, isPlainObject_scalar by done.
  by destruct v.
Qed.

(** A run of iterations in which every occurrence of [k] is filtered out
    keeps [result[k]]. *)
Lemma forIn_keeps self o source r k keys : forall h h' rp,
  pureMergers o ->
  (forall h t s h1 v, self h t s = Returns (h1, v) -> h `prefix_of` h1) ->
  (k ∈ keys -> unfiltered o k = false) ->
  h !! r = Some (Obj rp) ->
  forIn (mergeKey self o source r) keys h = Returns h' ->
  exists rp', h' !! r = Some (Obj rp') /\ lookup_prop k rp' = lookup_prop k rp.
Proof.
  induction keys as [|key keys IH]; intros h h' rp Hpure Hself Hk Hr; simpl.
  - intros [= <-]. by exists rp.
  - destruct (mergeKey self o source r h key) as [h1|e] eqn:H1; simpl; [|done].
    intros Hrest.
    assert (exists rp1, h1 !! r = Some (Obj rp1) /\
              lookup_prop k rp1 = lookup_prop k rp) as (rp1 & Hr1 & Heq1).
    { destruct (decide (key = k)) as [->|Hne].
      - rewrite mergeKey_filtered in H1 by (apply Hk; left).
        injection H1 as <-. by exists rp.
      - destruct (mergeKey_result _ _ _ _ _ _ _ _ Hpure Hself Hr H1)
          as (rp1 & Hr1 & Heq1).
        exists rp1. split; [done|]. by apply Heq1. }
    destruct (IH h1 h' rp1 Hpure Hself) as (rp' & Hr' & Heq'); try done.
    { intros Hin. apply Hk. by right. }
    exists rp'. split; [done|]. congruence.
Qed.

(** The merge seen from one key [k] of [source]: the iterations before
    it leave [result[k]] as it was in [target], then comes the iteration
    for [k], and the iterations after it leave [result[k]] alone. *)
Lemma deepMerge_at_key o fuel h target source tp sp k h' res :
  deepLike (strategy_of o) = true ->
  pureMergers o ->
  ownProps h target = Returns tp ->
  ownProps h source = Returns sp ->
  NoDup (map fst sp) ->
  k ∈ map fst sp ->
  deepMerge (S fuel) h target source o = Returns (h', res) ->
  res = VRef (length h) /\
  exists ha hb rpa,
    h `prefix_of` ha /\
    ha !! length h = Some (Obj rpa) /\
    lookup_prop k rpa = lookup_prop k tp /\
    mergeKey (fun h' t s => deepMerge fuel h' t s o) o source (length h) ha k
      = Returns hb /\
    stable_except (length h) hb h' /\
    forall rpb, hb !! length h = Some (Obj rpb) ->
      exists rp', h' !! length h = Some (Obj rp') /\
        lookup_prop k rp' = lookup_prop k rpb.
Proof.
  intros Hd Hpure Ht Hs Hnd Hk. rewrite deepMerge_deep by done.
  rewrite Ht. simpl.
  assert (Hp1 : h `prefix_of` h ++ [Obj tp]) by by apply prefix_app_r.
  rewrite (ownProps_prefix _ _ _ _ Hp1 Hs). simpl.
  apply list_elem_of_split in Hk as (ks1 & ks2 & Hkeys). rewrite Hkeys in *.
  apply NoDup_app in Hnd as (_ & Hdisj & Hnd2).
  apply NoDup_cons in Hnd2 as [Hk2 _].
  assert (Hk1 : k ∉ ks1). { intros Hin. apply (Hdisj _ Hin). left. }
  rewrite forIn_app.
  destruct (forIn _ ks1 _) as [ha|e] eqn:H1; simpl; [|done].
  destruct (mergeKey _ o source (length h) ha k) as [hb|e] eqn:Hkb; simpl;
    [|done].
  destruct (forIn _ ks2 hb) as [h2|e] eqn:H2; simpl; [|done].
  intros [= <- <-]. split; [done|].
  pose proof (deepMerge_self_prefix o fuel Hpure) as Hself.
  assert (Hr1 : (h ++ [Obj tp]) !! length h = Some (Obj tp)).
  { rewrite lookup_app_r by lia. by rewrite Nat.sub_diag. }
  destruct (forIn_other _ _ _ _ _ _ _ _ _ Hpure Hself Hk1 Hr1 H1)
    as (_ & rpa & Hra & Heqa).
  exists ha, hb, rpa. repeat split; try done.
  - eapply forIn_prefix in H1; try done.
  - destruct (mergeKey_result _ _ _ _ _ _ _ _ Hpure Hself Hra Hkb)
      as (rpb & Hrb & _).
    by destruct (forIn_other _ _ _ _ _ _ _ _ _ Hpure Hself Hk2 Hrb H2)
      as ([? ?] & _).
  - destruct (mergeKey_result _ _ _ _ _ _ _ _ Hpure Hself Hra Hkb)
      as (rpb & Hrb & _).
    destruct (forIn_other _ _ _ _ _ _ _ _ _ Hpure Hself Hk2 Hrb H2)
      as ([_ Hst] & _).
    apply Hst.
  - intros rpb Hrb.
    by destruct (forIn_other _ _ _ _ _ _ _ _ _ Hpure Hself Hk2 Hrb H2)
      as (_ & Hex).
Qed.

End MergeKeyFacts.

(* ================================================================= *)
(** ** Properties of the merge engine *)

(** The statements about [deepMerge] share these assumptions on their
    inputs: [target] and [source] are documents of the store ([ownProps]
    returns their properties), the keys of [source] are distinct, as the
    property names of an object are, [source] is tree-shaped and none of
    its keys is a name inherited from [Object.prototype] ([plainKeys],
    with the fuel as depth), and custom mergers are allocation-only
    ([pureMergers]). *)

Module MergeProperties.
Import Merge Frame JSFacts MergeFacts GrowthFacts MergeTotal MergeKeyFacts.

Lemma deep_is_deepLike o : strategy_of o = deep -> deepLike (strategy_of o) = true.
Proof. by intros ->. Qed.

(** What [result[k]] is once the iteration for [k] has assigned [v]. *)
Lemma deepMerge_assigned o fuel h target source tp sp k h' res v :
  deepLike (strategy_of o) = true ->
  pureMergers o ->
  ownProps h target = Returns tp ->
  ownProps h source = Returns sp ->
  NoDup (map fst sp) ->
  k ∈ map fst sp ->
  deepMerge (S fuel) h target source o = Returns (h', res) ->
  (forall ha, h `prefix_of` ha ->
     (exists rpa, ha !! length h = Some (Obj rpa) /\
        lookup_prop k rpa = lookup_prop k tp) ->
     exists h1, ha `prefix_of` h1 /\
       mergeKey (fun h' t s => deepMerge fuel h' t s o) o source (length h) ha k
         = Returns (assign h1 (length h) k v)) ->
  get h' res k = v.
Proof.
  intros Hd Hpure Ht Hs Hnd Hk Hm Hstep.
  destruct (deepMerge_at_key _ _ _ _ _ _ _ _ _ _ Hd Hpure Ht Hs Hnd Hk Hm)
    as (-> & ha & hb & rpa & Hpa & Hra & Heqa & Hkb & _ & Hafter).
  destruct (Hstep ha Hpa) as (h1 & Hp1 & Hkb'); [by exists rpa|].
  rewrite Hkb in Hkb'. injection Hkb' as ->.
  destruct (Hafter (set_prop rpa k v)) as (rp' & Hr' & Heq').
  { apply assign_lookup_eq. rewrite (prefix_lookup_lt ha h1); [done|done|].
    by eapply lookup_lt_Some. }
  simpl. rewrite Hr'. unfold get_prop. by rewrite Heq', lookup_set_prop_eq.
Qed.

(** A scalar [source[k]] that reaches the last branch of the loop body
    is the value of [k] in the merged document. *)
Lemma deepMerge_scalar fuel h target source o tp sp k v :
  strategy_of o = deep ->
  pureMergers o ->
  ownProps h target = Returns tp ->
  ownProps h source = Returns sp ->
  NoDup (map fst sp) ->
  plainKeys fuel h source = true ->
  lookup_prop k sp = Some v ->
  is_scalar v = true ->
  customMergers_of o k = None ->
  unfiltered o k = true ->
  exists h' res,
    deepMerge fuel h target source o = Returns (h', res) /\
    get h' res k = v.
Proof.
  intros Hd%deep_is_deepLike Hpure Ht Hs Hnd Hpl Hk Hsc Hcm Hu.
  pose proof (plainKeys_shallower _ _ _ Hpl) as Hsh.
  pose proof (shallower_props_pos _ _ _ _ _ _ Hsh Hs Hk) as Hpos.
  destruct (deepMerge_returns o fuel h target source tp sp)
    as (h' & res & Hm); try done.
  exists h', res. split; [done|].
  destruct fuel as [|fuel]; [lia|].
  apply (deepMerge_assigned o fuel h target source tp sp k h' res v
           Hd Hpure Ht Hs Hnd (lookup_prop_Some_key _ _ _ Hk) Hm).
  intros ha Hpa _. exists ha. split; [done|].
  apply mergeKey_scalar; try done.
  { eapply plainKeys_key; [done|done|]. by eapply lookup_prop_Some_key. }
  rewrite (ownProps_get _ _ sp) by by eapply ownProps_prefix.
  unfold get_prop. by rewrite Hk.
Qed.

(** C1.  The right-bias law fails on the code at a key named like a
    member of [Object.prototype].  Under the default options
    [deepMerge({toString: 'old'}, {toString: 'new'})] returns a document
    whose [toString] is ["[object Object]"], not the ['new'] of
    [source]: [customMergers[key]] finds [Object.prototype.toString],
    which is called as the custom merger of the key. *)
Theorem deepMerge_toString_not_right_biased :
  let h := [Obj [("toString", VStr "old")]; Obj [("toString", VStr "new")]] in
  customMergers_of defaultOptions "toString" = None /\
  unfiltered defaultOptions "toString" = true /\
  get h (VRef 0) "toString" = VStr "old" /\
  get h (VRef 1) "toString" = VStr "new" /\
  exists h' res,
    deepMerge 1 h (VRef 0) (VRef 1) defaultOptions = Returns (h', res) /\
    get h' res "toString" = VStr "[object Object]".
Proof.
  cbv zeta. repeat (split; [reflexivity|]).
  eexists _, _. split; reflexivity.
Qed.

(** C10, as amended.  Under the deep strategy, for a source none of
    whose keys is a name inherited from [Object.prototype] and a key
    [k] that passes [skipKeys]/[onlyKeys] and has no custom merger, an
    explicit null [source[k]] makes [k] null in the merged document,
    whatever [target[k]] is, a mapping included: null is written like
    any scalar and never merged into the target mapping. *)
Theorem deepMerge_null_overwrites fuel h target source o tp sp k :
  strategy_of o = deep ->
  pureMergers o ->
  ownProps h target = Returns tp ->
  ownProps h source = Returns sp ->
  NoDup (map fst sp) ->
  plainKeys fuel h source = true ->
  lookup_prop k sp = Some VNull ->
  customMergers_of o k = None ->
  unfiltered o k = true ->
  exists h' res,
    deepMerge fuel h target source o = Returns (h', res) /\
    get h' res k = VNull.
Proof.
  intros Hd Hpure Ht Hs Hnd Hsh Hk Hcm Hu.
  by eapply deepMerge_scalar.
Qed.

Lemma deepMerge_null_overwrites_witness :
  exists h' res,
    deepMerge 1 [Obj [("x", VNum 1)]; Obj [("a", VRef 0)]; Obj [("a", VNull)]]
      (VRef 1) (VRef 2) defaultOptions = Returns (h', res) /\
    get h' res "a" = VNull.
Proof.
  apply (deepMerge_null_overwrites 1 _ _ _ defaultOptions
           [("a", VRef 0)] [("a", VNull)] "a").
  - reflexivity.
  - intros k m H. discriminate H.
  - reflexivity.
  - reflexivity.
  - apply NoDup_singleton.
  - reflexivity.
  - reflexivity.
  - reflexivity.
  - reflexivity.
Defined.

(** C10 as stated fails: with [skipKeys: ['a']] the deep strategy keeps
    the target mapping at [a] although [source.a] is null. *)
Lemma deepMerge_null_skipped_counterexample :
  let h := [Obj [("x", VNum 1)]; Obj [("a", VRef 0)]; Obj [("a", VNull)]] in
  let o := {| strategy := Some deep; arrayMergeStrategy := None;
              customMergers := None; skipKeys := Some ["a"];
              onlyKeys := None |} in
  strategy_of o = deep /\
  get h (VRef 2) "a" = VNull /\
  exists h' res,
    deepMerge 1 h (VRef 1) (VRef 2) o = Returns (h', res) /\
    get h' res "a" = VRef 0 /\
    get h' res "a" <> VNull.
Proof.
  cbv zeta. split; [reflexivity|]. split; [reflexivity|].
  eexists _, _. split; [reflexivity|]. split; [reflexivity|]. discriminate.
Qed.

End MergeProperties.

(* ================================================================= *)
(** ** Key filters, custom mergers and the frame of [deepMerge] *)

Module MergeFilters.
Import Merge Frame JSFacts MergeFacts GrowthFacts MergeTotal MergeKeyFacts.

Lemma forIn_ext body body' keys : forall h,
  (forall h k, body h k = body' h k) ->
  forIn body keys h = forIn body' keys h.
Proof.
  induction keys as [|k keys IH]; intros h Hext; simpl; [done|].
  rewrite Hext. destruct (body' h k) as [h1|e]; simpl; [by apply IH|done].
Qed.

(** Two loop bodies that agree on the keys walked, in every store an
    invariant of the loop allows, run the same loop. *)
Lemma forIn_ext_inv (I : heap -> Prop) body body' keys : forall h,
  I h ->
  (forall h k, I h -> k ∈ keys -> body h k = body' h k) ->
  (forall h k h', I h -> k ∈ keys -> body' h k = Returns h' -> I h') ->
  forIn body keys h = forIn body' keys h.
Proof.
  induction keys as [|k keys IH]; intros h HI Hext Hinv; simpl; [done|].
  rewrite Hext by (done || by left).
  destruct (body' h k) as [h1|e] eqn:Hb; simpl; [|done].
  apply IH.
  - eapply Hinv; [done| |done]. by left.
  - intros h2 k2 HI2 Hk2. apply Hext; [done|by right].
  - intros h2 k2 h3 HI2 Hk2. apply Hinv; [done|by right].
Qed.




Lemma forIn_result_obj self o source r keys : forall h h' rp,
  pureMergers o ->
  (forall h t s h1 v, self h t s = Returns (h1, v) -> h `prefix_of` h1) ->
  h !! r = Some (Obj rp) ->
  forIn (mergeKey self o source r) keys h = Returns h' ->
  exists rp', h' !! r = Some (Obj rp').
Proof.
  induction keys as [|key keys IH]; intros h h' rp Hpure Hself Hr; simpl.
  - intros [= <-]. by exists rp.
  - destruct (mergeKey self o source r h key) as [h1|e] eqn:H1; simpl; [|done].
    destruct (mergeKey_result _ _ _ _ _ _ _ _ Hpure Hself Hr H1)
      as (rp1 & Hr1 & _).
    by apply (IH h1 h' rp1).
Qed.

Lemma ownProps_not_fresh h v ps : ownProps h v = Returns ps -> v <> VRef (length h).
Proof.
  destruct v as [| | | | |l]; simpl; try done.
  destruct (h !! l) as [c|] eqn:Hl; [|done].
  intros _ [= ->]. apply lookup_lt_Some in Hl. lia.
Qed.

(** C8, as amended.  Whatever the strategy, for custom mergers that
    only allocate, [deepMerge] returns and every object that existed
    before the call, the input documents included, is unchanged after
    it.  Under the [replace] strategy the document returned is the
    source document itself; under every other strategy it is a newly
    allocated mapping, which is neither input.  Under the strategies
    that walk the keys of [source] (every one but [shallow] and
    [replace]) this is stated for a source none of whose keys is a name
    inherited from [Object.prototype]. *)
Theorem deepMerge_leaves_inputs fuel h target source o tp sp :
  pureMergers o ->
  ownProps h target = Returns tp ->
  ownProps h source = Returns sp ->
  0 < fuel ->
  (deepLike (strategy_of o) = true -> plainKeys fuel h source = true) ->
  exists h' res,
    deepMerge fuel h target source o = Returns (h', res) /\
    h `prefix_of` h' /\
    match strategy_of o with
    | replace => res = source /\ h' = h
    | _ =>
        res = VRef (length h) /\ res <> target /\ res <> source /\
        exists ps, h' !! length h = Some (Obj ps)
    end.
Proof.
  intros Hpure Ht Hs Hpos Hsh.
  destruct fuel as [|fuel]; [lia|].
  destruct (deepLike (strategy_of o)) eqn:Hd.
  - destruct (deepMerge_returns o (S fuel) h target source tp sp)
      as (h' & res & Hm); try done; [by apply Hsh|].
    exists h', res. split; [done|]. split; [by eapply deepMerge_prefix|].
    assert (Hres : res = VRef (length h) /\ res <> target /\ res <> source /\
      exists ps, h' !! length h = Some (Obj ps)).
    { rewrite deepMerge_deep in Hm by done.
      rewrite Ht in Hm. simpl in Hm.
      assert (Hp1 : h `prefix_of` h ++ [Obj tp]) by by apply prefix_app_r.
      rewrite (ownProps_prefix _ _ _ _ Hp1 Hs) in Hm. simpl in Hm.
      destruct (forIn _ _ _) as [h2|e] eqn:Hloop; simpl in Hm; [|done].
      injection Hm as <- <-.
      split; [done|].
      split; [by eapply not_eq_sym, ownProps_not_fresh|].
      split; [by eapply not_eq_sym, ownProps_not_fresh|].
      eapply forIn_result_obj; [done| |by apply lookup_alloc|done].
      by apply deepMerge_self_prefix. }
    destruct (strategy_of o); done.
  - simpl. destruct (strategy_of o); try done.
    + rewrite Ht, Hs. simpl. eexists _, _. split; [done|].
      split; [by apply prefix_app_r|].
      split; [done|].
      split; [by eapply not_eq_sym, ownProps_not_fresh|].
      split; [by eapply not_eq_sym, ownProps_not_fresh|].
      eexists. by apply lookup_alloc.
    + by eexists _, _.
Qed.

Lemma deepMerge_leaves_inputs_witness :
  let h := [Obj [("a", VNum 1)]; Obj [("a", VNum 2)]] in
  exists h' res,
    deepMerge 1 h (VRef 0) (VRef 1) defaultOptions = Returns (h', res) /\
    h `prefix_of` h' /\
    res = VRef (length h) /\ res <> VRef 0 /\ res <> VRef 1 /\
    exists ps, h' !! length h = Some (Obj ps).
Proof.
  cbv zeta.
  apply (deepMerge_leaves_inputs 1 _ (VRef 0) (VRef 1) defaultOptions
           [("a", VNum 1)] [("a", VNum 2)]).
  - intros k m H. discriminate H.
  - reflexivity.
  - reflexivity.
  - lia.
  - intros _. reflexivity.
Defined.

(** C8 as stated fails.  Under the [replace] strategy the document
    returned is the source input itself and nothing is constructed.  And
    a custom merger that writes to its arguments, here
    [(t, s) => { t.push(...s); return t }], changes the target's
    sequence during a deep merge. *)
Lemma deepMerge_replace_counterexample :
  (let h := [Obj [("a", VNum 1)]; Obj [("a", VNum 2)]] in
   let o := {| strategy := Some replace; arrayMergeStrategy := None;
               customMergers := None; skipKeys := None; onlyKeys := None |} in
   deepMerge 1 h (VRef 0) (VRef 1) o = Returns (h, VRef 1)) /\
  (let h := [Arr [VNum 1]; Obj [("tags", VRef 0)];
             Arr [VNum 2]; Obj [("tags", VRef 2)]] in
   let push : merger := fun h t s =>
     match t with
     | VRef l => (<[l := Arr (elements h t ++ elements h s)]> h, t)
     | _ => (h, t)
     end in
   let o := {| strategy := Some deep; arrayMergeStrategy := None;
               customMergers := Some (fun _ => Some push);
               skipKeys := None; onlyKeys := None |} in
   exists h' res,
     deepMerge 1 h (VRef 1) (VRef 3) o = Returns (h', res) /\
     h !! 0 = Some (Arr [VNum 1]) /\
     h' !! 0 = Some (Arr [VNum 1; VNum 2])).
Proof.
  split; cbv zeta; [reflexivity|].
  eexists _, _. repeat split; reflexivity.
Qed.

End MergeFilters.

(* ================================================================= *)
(** ** Array policies *)

Module ArrayPolicies.
Import Merge Frame JSFacts MergeFacts GrowthFacts MergeTotal MergeKeyFacts.

Lemma fold_set_add xs : forall acc,
  fold_left set_add xs acc =
  acc ++ filter (fun y => y ∉ acc) (first_occurrences xs).
Proof.
  induction xs as [|x xs IH]; intros acc; simpl.
  - by rewrite app_nil_r.
  - rewrite IH. unfold set_add. rewrite filter_cons.
    destruct (decide (x ∈ acc)) as [Hin|Hnin].
    + rewrite bool_decide_true by done. rewrite decide_False by naive_solver.
      f_equal. rewrite list_filter_filter. apply list_filter_iff.
      intros y. naive_solver.
    + rewrite bool_decide_false by done. rewrite decide_True by done.
      rewrite <- app_assoc. simpl. do 2 f_equal.
      rewrite list_filter_filter. apply list_filter_iff.
      intros y. rewrite elem_of_app, list_elem_of_singleton. naive_solver.
Qed.

Lemma filter_not_in_nil (l : list value) : filter (fun y => y ∉ []) l = l.
Proof.
  induction l as [|x l IH]; [done|].
  rewrite filter_cons_True by apply not_elem_of_nil. by rewrite IH.
Qed.

(** [[...new Set(xs)]] keeps the first occurrence of every element. *)
Lemma set_of_first_occurrences xs : set_of xs = first_occurrences xs.
Proof.
  unfold set_of. rewrite fold_set_add. simpl.
  apply filter_not_in_nil.
Qed.

(** The iteration for an unfiltered key without custom merger whose
    source value is a sequence: the store grows by at most the combined
    array and [result[k]] is assigned a sequence. *)
Lemma mergeKey_sequence self o source r h k tv sv :
  unfiltered o k = true ->
  inherited k = false ->
  customMergers_of o k = None ->
  get h source k = sv ->
  get h (VRef r) k = tv ->
  isArray h sv = true ->
  exists h1 v,
    mergeKey self o source r h k = Returns (assign h1 r k v) /\
    h `prefix_of` h1 /\
    allocated h1 v /\
    isArray h1 v = true /\
    elements h1 v =
      (if isArray h tv
       then combined (arrayMergeStrategy_of o) (elements h tv) (elements h sv)
       else elements h sv) /\
    (isArray h tv = false \/ arrayMergeStrategy_of o = arr_replace -> v = sv).
Proof.
  intros Hu Hin Hcm Hsv Htv Harr. rewrite mergeKey_unfiltered by done. cbv zeta.
  rewrite Hsv, Htv, Hcm, Harr.
  assert (is_undefined sv = false) as -> by by destruct sv.
  pose proof (isArray_allocated _ _ Harr) as Hal.
  destruct (isArray h tv) eqn:Ht.
  2:{ exists h, sv. by repeat split. }
  destruct (arrayMergeStrategy_of o) eqn:Hp; simpl.
  - exists h, sv. by repeat split.
  - eexists (h ++ [Arr _]), (VRef (length h)).
    split; [done|]. split; [by apply prefix_app_r|]. simpl.
    rewrite length_app, lookup_alloc. simpl.
    repeat split; try done; try lia. by intros [|].
  - eexists (h ++ [Arr _]), (VRef (length h)).
    split; [done|]. split; [by apply prefix_app_r|]. simpl.
    rewrite length_app, lookup_alloc, set_of_first_occurrences. simpl.
    repeat split; try done; try lia. by intros [|].
Qed.

(** C2, as amended.  Under the deep strategy, for a source none of
    whose keys is a name inherited from [Object.prototype] and a key
    [k] that passes [skipKeys]/[onlyKeys], has no custom merger and
    whose source value is a sequence: the merged value is a sequence; when [target[k]] is a
    sequence too its elements are source's under [replace], target's
    followed by source's under [concat], and under [unique] that
    concatenation with every element kept at its first occurrence only,
    elements being compared as [Set] does (scalars by value, mappings
    and sequences by identity); when [target[k]] is not a sequence, and
    under [replace], the merged value is source's sequence itself. *)
Theorem deepMerge_sequences fuel h target source o tp sp k sv :
  strategy_of o = deep ->
  pureMergers o ->
  ownProps h target = Returns tp ->
  ownProps h source = Returns sp ->
  NoDup (map fst sp) ->
  plainKeys fuel h source = true ->
  lookup_prop k sp = Some sv ->
  isArray h sv = true ->
  allocated h (get_prop tp k) ->
  customMergers_of o k = None ->
  unfiltered o k = true ->
  exists h' res,
    deepMerge fuel h target source o = Returns (h', res) /\
    isArray h' (get h' res k) = true /\
    elements h' (get h' res k) =
      (if isArray h (get_prop tp k)
       then combined (arrayMergeStrategy_of o)
              (elements h (get_prop tp k)) (elements h sv)
       else elements h sv) /\
    (isArray h (get_prop tp k) = false \/ arrayMergeStrategy_of o = arr_replace ->
     get h' res k = sv).
Proof.
  intros Hd Hpure Ht Hs Hnd Hpl Hk Harr Hal Hcm Hu.
  pose proof (plainKeys_shallower _ _ _ Hpl) as Hsh.
  assert (Hin : inherited k = false).
  { eapply plainKeys_key; [done|done|]. by eapply lookup_prop_Some_key. }
  assert (Hdl : deepLike (strategy_of o) = true) by by rewrite Hd.
  pose proof (shallower_props_pos _ _ _ _ _ _ Hsh Hs Hk) as Hpos.
  destruct (deepMerge_returns o fuel h target source tp sp)
    as (h' & res & Hm); try done.
  exists h', res. split; [done|].
  destruct fuel as [|fuel]; [lia|].
  destruct (deepMerge_at_key _ _ _ _ _ _ _ _ _ _ Hdl Hpure Ht Hs Hnd
              (lookup_prop_Some_key _ _ _ Hk) Hm)
    as (-> & ha & hb & rpa & Hpa & Hra & Heqa & Hkb & Hst & Hafter).
  set (tv := get_prop tp k) in *.
  assert (Hgs : get ha source k = sv).
  { rewrite (ownProps_get _ _ sp) by by eapply ownProps_prefix.
    unfold get_prop. by rewrite Hk. }
  assert (Hgt : get ha (VRef (length h)) k = tv).
  { simpl. rewrite Hra. unfold tv, get_prop. by rewrite Heqa. }
  assert (Harr' : isArray ha sv = true).
  { rewrite (isArray_prefix h ha); try done. by apply isArray_allocated. }
  destruct (mergeKey_sequence (fun h' t s => deepMerge fuel h' t s o)
              o source (length h) ha k tv sv Hu Hin Hcm Hgs Hgt Harr')
    as (h1 & v & Hkb' & Hp1 & Hal1 & Hv1 & Hel1 & Hid).
  rewrite Hkb in Hkb'. injection Hkb' as ->.
  assert (Hrlt : length h < length ha) by by eapply lookup_lt_Some.
  destruct (Hafter (set_prop rpa k v)) as (rp' & Hr' & Heq').
  { apply assign_lookup_eq. rewrite (prefix_lookup_lt ha h1); done. }
  assert (Hget : get h' (VRef (length h)) k = v).
  { simpl. rewrite Hr'. unfold get_prop. by rewrite Heq', lookup_set_prop_eq. }
  rewrite Hget.
  assert (Hcell : forall l, v = VRef l -> h' !! l = h1 !! l).
  { intros l ->. simpl in Hv1.
    destruct Hst as [_ Hst]. rewrite Hst.
    - apply assign_lookup_ne. intros ->.
      rewrite (prefix_lookup_lt ha h1), Hra in Hv1; done.
    - by rewrite assign_length.
    - intros ->. rewrite (prefix_lookup_lt ha h1), Hra in Hv1; done. }
  rewrite (isArray_prefix h ha tv), (elements_prefix h ha tv),
    (elements_prefix h ha sv) in *; try done; try by apply isArray_allocated.
  split; [|split; [|done]].
  - destruct v as [| | | | |l]; try done. simpl. by rewrite (Hcell l).
  - rewrite <- Hel1. destruct v as [| | | | |l]; try done. simpl.
    by rewrite (Hcell l).
Qed.

Lemma deepMerge_sequences_witness :
  let h := [Arr [VNum 1; VNum 2]; Obj [("items", VRef 0)];
            Arr [VNum 2; VNum 3]; Obj [("items", VRef 2)]] in
  let o := {| strategy := None; arrayMergeStrategy := Some arr_unique;
              customMergers := None; skipKeys := None; onlyKeys := None |} in
  exists h' res,
    deepMerge 1 h (VRef 1) (VRef 3) o = Returns (h', res) /\
    isArray h' (get h' res "items") = true /\
    elements h' (get h' res "items") = [VNum 1; VNum 2; VNum 3].
Proof.
  cbv zeta.
  destruct (deepMerge_sequences 1
              [Arr [VNum 1; VNum 2]; Obj [("items", VRef 0)];
               Arr [VNum 2; VNum 3]; Obj [("items", VRef 2)]]
              (VRef 1) (VRef 3)
              {| strategy := None; arrayMergeStrategy := Some arr_unique;
                 customMergers := None; skipKeys := None; onlyKeys := None |}
              [("items", VRef 0)] [("items", VRef 2)] "items" (VRef 2))
    as (h' & res & Hm & Harr & Hel & _).
  - reflexivity.
  - intros k m H. discriminate H.
  - reflexivity.
  - reflexivity.
  - apply NoDup_singleton.
  - reflexivity.
  - reflexivity.
  - reflexivity.
  - simpl. lia.
  - reflexivity.
  - reflexivity.
  - exists h', res. split; [exact Hm|]. split; [exact Harr|]. exact Hel.
Defined.

(** C2 as stated fails twice.  With [skipKeys: ['items']] the [concat]
    policy leaves target's sequence [[1, 2]] in place although source has
    a sequence at that key.  Under [unique], two distinct mappings with
    the same content [{id: 1}] are both kept: [Set] compares objects by
    identity, so such duplicates are not removed. *)
Lemma deepMerge_sequences_counterexample :
  (let h := [Arr [VNum 1; VNum 2]; Obj [("items", VRef 0)];
             Arr [VNum 2; VNum 3]; Obj [("items", VRef 2)]] in
   let o := {| strategy := Some deep; arrayMergeStrategy := Some arr_concat;
               customMergers := None; skipKeys := Some ["items"];
               onlyKeys := None |} in
   exists h' res,
     deepMerge 1 h (VRef 1) (VRef 3) o = Returns (h', res) /\
     elements h' (get h' res "items") = [VNum 1; VNum 2]) /\
  (let h := [Obj [("id", VNum 1)]; Arr [VRef 0]; Obj [("items", VRef 1)];
             Obj [("id", VNum 1)]; Arr [VRef 3]; Obj [("items", VRef 4)]] in
   let o := {| strategy := Some deep; arrayMergeStrategy := Some arr_unique;
               customMergers := None; skipKeys := None; onlyKeys := None |} in
   exists h' res,
     deepMerge 1 h (VRef 2) (VRef 5) o = Returns (h', res) /\
     elements h' (get h' res "items") = [VRef 0; VRef 3] /\
     h' !! 0 = Some (Obj [("id", VNum 1)]) /\
     h' !! 3 = Some (Obj [("id", VNum 1)])).
Proof.
  split; cbv zeta.
  - eexists _, _. split; reflexivity.
  - eexists _, _. repeat split; reflexivity.
Qed.

End ArrayPolicies.

(* ================================================================= *)
(** ** The validation loop and the store *)

Module ValidateFacts.
Import Validate Frame SchemaFrame JSFacts MergeFacts GrowthFacts.

Lemma validateConfig_body_prefix entries h config h' res :
  (forall h1 errs h2 errs2,
     h `prefix_of` h1 -> 
     entries h1 errs config (length h) = Returns (h2, errs2) ->
     h `prefix_of` h2) ->
  validateConfig_body entries h config = Returns (h', res) ->
  h `prefix_of` h' /\ validated res = VRef (length h).
Proof.
  intros Hent. unfold validateConfig_body.
  destruct (ownProps h config) as [ps|e]; simpl; [|done].
  destruct (entries _ _ _ _) as [[h2 errs2]|e] eqn:He; simpl; [|done].
  intros [= <- <-]. split; [|done].
  eapply Hent; [|done]. by apply prefix_app_r.
Qed.

(** Validation only allocates, apart from filling in the object it is
    building. *)
Lemma validate_prefix_mut :
  (forall r, pureRule r ->
     forall h errs v key path h' errs' out,
       validateValue r h errs v key path = Returns (h', errs', out) ->
       h `prefix_of` h') /\
  (forall s, pureSchema s ->
     forall h0 h errs config vl h' errs',
       h0 `prefix_of` h -> length h0 <= vl ->
       validateEntries s h errs config vl = Returns (h', errs') ->
       h0 `prefix_of` h').
Proof.
  apply Rule_Schema_ind.
  - intros ty req def vd tr ch Hch [Htr Hpch] h errs v key path h' errs' out.
    simpl.
    destruct (req && _); [by intros [= <- <- <-]|].
    destruct (is_undefined v && _); [by intros [= <- <- <-]|].
    destruct (is_undefined v); [by intros [= <- <- <-]|].
    assert (Hp1 : h `prefix_of`
      (match tr with Some f => f h v | None => (h, v) end).1).
    { destruct tr as [f|]; [apply Htr|done]. }
    destruct (match tr with Some f => f h v | None => (h, v) end) as [h1 v1].
    simpl in Hp1.
    destruct (match ty with Some _ => _ | None => _ end);
      [by intros [= <- <- <-]|].
    destruct (match vd with Some _ => _ | None => _ end);
      [by intros [= <- <- <-]|].
    destruct ch as [cs|]; [|by intros [= <- <- <-]].
    destruct (_ && _); [|by intros [= <- <- <-]].
    destruct (validateConfig_body _ h1 v1) as [[h2 cr]|e] eqn:Hb; simpl; [|done].
    intros [= <- <- <-]. etrans; [done|].
    eapply validateConfig_body_prefix in Hb as [Hb _]; [done|].
    intros h3 errs3 h4 errs4 Hp3 He.
    by eapply (Hch Hpch h1 h3 errs3 v1 (length h1) h4 errs4).
  - intros _ h0 h errs config vl h' errs' Hp _. simpl. by intros [= <- <-].
  - intros key r rest IHr IHrest [Hr Hrest] h0 h errs config vl h' errs' Hp Hvl.
    simpl.
    destruct (member h config key) as [v|e]; simpl; [|done].
    destruct (validateValue r h errs v key key) as [[[h1 errs1] out]|e] eqn:Hv;
      simpl; [|done].
    apply IHrest; try done.
    apply assign_prefix; [|done]. etrans; [done|]. by eapply IHr.
Qed.

Lemma validateValue_prefix r h errs v key path h' errs' out :
  pureRule r ->
  validateValue r h errs v key path = Returns (h', errs', out) ->
  h `prefix_of` h'.
Proof. intros Hr. by apply (proj1 validate_prefix_mut r Hr). Qed.

Lemma validateEntries_prefix s h0 h errs config vl h' errs' :
  pureSchema s ->
  h0 `prefix_of` h -> length h0 <= vl ->
  validateEntries s h errs config vl = Returns (h', errs') ->
  h0 `prefix_of` h'.
Proof. intros Hs. by apply (proj2 validate_prefix_mut s Hs). Qed.

Lemma validateConfig_prefix h config s h' res :
  pureSchema s ->
  validateConfig h config s = Returns (h', res) ->
  h `prefix_of` h' /\ validated res = VRef (length h).
Proof.
  intros Hs. apply validateConfig_body_prefix.
  intros h1 errs h2 errs2 Hp. by apply validateEntries_prefix.
Qed.

Lemma typeOf_object_ownProps h v :
  typeOf h v = "object" -> isArray h v = false ->
  exists ps, ownProps h v = Returns ps.
Proof.
  destruct v as [| | | | |l]; simpl; try done; try by eexists.
  destruct (h !! l) as [[ps|xs]|]; try done. by exists ps.
Qed.

Lemma member_ownProps (h0 h : heap) config cps k :
  ownProps h0 config = Returns cps -> h0 `prefix_of` h ->
  member h config k = Returns (get_prop cps k) \/
  member h config k = Fails TypeError.
Proof.
  intros Ho Hp. apply (ownProps_prefix _ _ _ _ Hp) in Ho.
  destruct config as [| | | | |l]; simpl in *; try done;
    try (by right); try (injection Ho as <-; by left).
  destruct (h !! l) as [[ps|xs]|]; try done. injection Ho as ->. by left.
Qed.

(** The only way validation fails is the [TypeError] raised when the
    properties of a null value are read. *)
Lemma validate_fails_mut :
  (forall r, pureRule r ->
     forall h errs v key path e,
       validateValue r h errs v key path = Fails e -> e = TypeError) /\
  (forall s, pureSchema s ->
     forall h0 h errs config cps vl e,
       ownProps h0 config = Returns cps ->
       h0 `prefix_of` h -> length h0 <= vl ->
       validateEntries s h errs config vl = Fails e -> e = TypeError).
Proof.
  apply Rule_Schema_ind.
  - intros ty req def vd tr ch Hch [Htr Hpch] h errs v key path e. simpl.
    destruct (req && _); [done|].
    destruct (is_undefined v && _); [done|].
    destruct (is_undefined v); [done|].
    destruct (match tr with Some f => f h v | None => (h, v) end) as [h1 v1].
    destruct (match ty with Some _ => _ | None => _ end); [done|].
    destruct (match vd with Some _ => _ | None => _ end); [done|].
    destruct ch as [cs|]; [|done].
    destruct (bool_decide (typeOf h1 v1 = "object")) eqn:Hty; simpl; [|done].
    destruct (isArray h1 v1) eqn:Harr; simpl; [done|].
    apply bool_decide_eq_true in Hty.
    destruct (typeOf_object_ownProps _ _ Hty Harr) as [ps Hps].
    unfold validateConfig_body. rewrite Hps. simpl.
    destruct (validateEntries cs _ _ _ _) as [[h2 errs2]|e'] eqn:He; simpl;
      [done|].
    intros [= <-].
    apply (Hch Hpch h1 (h1 ++ [Obj ps]) [] v1 ps (length h1) e' Hps);
      [by apply prefix_app_r|done|done].
  - done.
  - intros key r rest IHr IHrest [Hr Hrest] h0 h errs config cps vl e Ho Hp Hvl.
    simpl.
    destruct (member_ownProps _ _ _ _ key Ho Hp) as [-> | ->]; simpl;
      [|by intros [= <-]].
    destruct (validateValue r h errs _ key key) as [[[h1 errs1] out]|e'] eqn:Hv;
      simpl.
    + apply (IHrest Hrest h0 _ _ _ cps); try done.
      apply assign_prefix; [|done]. etrans; [done|].
      by eapply validateValue_prefix.
    + intros [= <-]. by eapply IHr.
Qed.

(** Keys the schema does not name keep their binding in the object
    under construction. *)
Lemma validateEntries_keeps s : forall h errs config vl vp h' errs',
  pureSchema s ->
  h !! vl = Some (Obj vp) ->
  validateEntries s h errs config vl = Returns (h', errs') ->
  exists vp', h' !! vl = Some (Obj vp') /\
    forall k, k ∉ schema_keys s -> lookup_prop k vp' = lookup_prop k vp.
Proof.
  induction s as [|key r rest IH]; intros h errs config vl vp h' errs' Hs Hvl;
    simpl.
  - intros [= <- <-]. by exists vp.
  - destruct Hs as [Hr Hrest].
    destruct (member h config key) as [v|e]; simpl; [|done].
    destruct (validateValue r h errs v key key) as [[[h1 errs1] out]|e] eqn:Hv;
      simpl; [|done].
    intros Hrec.
    assert (Hvl1 : h1 !! vl = Some (Obj vp)).
    { rewrite (prefix_lookup_lt h h1); [done| |by eapply lookup_lt_Some].
      by eapply validateValue_prefix. }
    destruct (IH _ _ _ _ _ _ _ Hrest (assign_lookup_eq _ _ key out _ Hvl1) Hrec)
      as (vp' & Hvp' & Heq).
    exists vp'. split; [done|]. intros k Hk.
    apply not_elem_of_cons in Hk as [Hne Hk].
    rewrite Heq by done. by apply lookup_set_prop_ne.
Qed.

(** The error list only grows. *)
Lemma validateValue_errors r h errs v key path h' errs' out :
  validateValue r h errs v key path = Returns (h', errs', out) ->
  errs `prefix_of` errs'.
Proof.
  destruct r as [ty req def vd tr ch]. simpl.
  destruct (req && _); [intros [= <- <- <-]; by apply prefix_app_r|].
  destruct (is_undefined v && _); [by intros [= <- <- <-]|].
  destruct (is_undefined v); [by intros [= <- <- <-]|].
  destruct (match tr with Some f => f h v | None => (h, v) end) as [h1 v1].
  destruct (match ty with Some _ => _ | None => _ end);
    [intros [= <- <- <-]; by apply prefix_app_r|].
  destruct (match vd with Some _ => _ | None => _ end);
    [intros [= <- <- <-]; by apply prefix_app_r|].
  destruct ch as [cs|]; [|by intros [= <- <- <-]].
  destruct (_ && _); [|by intros [= <- <- <-]].
  destruct (validateConfig_body _ h1 v1) as [[h2 cr]|e]; simpl; [|done].
  intros [= <- <- <-]. by apply prefix_app_r.
Qed.

Lemma validateEntries_errors s : forall h errs config vl h' errs',
  validateEntries s h errs config vl = Returns (h', errs') ->
  errs `prefix_of` errs'.
Proof.
  induction s as [|key r rest IH]; intros h errs config vl h' errs'; simpl.
  - by intros [= <- <-].
  - destruct (member h config key) as [v|e]; simpl; [|done].
    destruct (validateValue r h errs v key key) as [[[h1 errs1] out]|e] eqn:Hv;
      simpl; [|done].
    intros Hrec. etrans; [by eapply validateValue_errors|]. by eapply IH.
Qed.

(** The run of the loop seen from one schema entry [(k, r)]: the call
    [validateValue(config[k], k, r)] it makes, whose outcome is what
    [validated[k]] holds at the end and whose errors stay in the list. *)
Lemma validateEntries_at_key s k r : forall h0 h errs config cps vl vp h' errs',
  pureSchema s ->
  NoDup (schema_keys s) ->
  (k, r) ∈ schema_entries s ->
  ownProps h0 config = Returns cps ->
  h0 `prefix_of` h -> length h0 <= vl ->
  h !! vl = Some (Obj vp) ->
  validateEntries s h errs config vl = Returns (h', errs') ->
  exists ha ea hb eb out vp',
    validateValue r ha ea (get_prop cps k) k k = Returns (hb, eb, out) /\
    eb `prefix_of` errs' /\
    h' !! vl = Some (Obj vp') /\
    lookup_prop k vp' = Some out.
Proof.
  induction s as [|key r' rest IH];
    intros h0 h errs config cps vl vp h' errs' Hs Hnd Hin Ho Hp Hvl Hcell; simpl.
  - by apply elem_of_nil in Hin.
  - destruct Hs as [Hr Hrest].
    change (NoDup (key :: schema_keys rest)) in Hnd.
    change ((k, r) ∈ (key, r') :: schema_entries rest) in Hin.
    apply NoDup_cons in Hnd as [Hfresh Hnd].
    destruct (member_ownProps _ _ _ _ key Ho Hp) as [-> | ->]; simpl; [|done].
    destruct (validateValue r' h errs _ key key) as [[[h1 errs1] out]|e] eqn:Hv;
      simpl; [|done].
    intros Hrec.
    assert (Hp1 : h `prefix_of` h1) by by eapply validateValue_prefix.
    assert (Hvl1 : h1 !! vl = Some (Obj vp)).
    { rewrite (prefix_lookup_lt h h1); [done|done|by eapply lookup_lt_Some]. }
    pose proof (assign_lookup_eq _ _ key out _ Hvl1) as Hcell1.
    apply elem_of_cons in Hin as [[= -> ->]|Hin].
    + destruct (validateEntries_keeps _ _ _ _ _ _ _ _ Hrest Hcell1 Hrec)
        as (vp' & Hvp' & Heq).
      exists h, errs, h1, errs1, out, vp'. repeat split; try done.
      * by eapply validateEntries_errors.
      * rewrite Heq by done. apply lookup_set_prop_eq.
    + apply (IH h0 (assign h1 vl key out) errs1 config cps vl
                 (set_prop vp key out) h' errs'); try done.
      apply assign_prefix; [|done]. by etrans.
Qed.

(** A mapping is neither null nor absent, and reading its properties
    does not throw. *)
Lemma member_mapping (h0 h : heap) l cps k :
  h0 !! l = Some (Obj cps) -> h0 `prefix_of` h ->
  member h (VRef l) k = Returns (get_prop cps k).
Proof.
  intros Hl Hp. simpl.
  rewrite (prefix_lookup_lt h0 h); [by rewrite Hl|done|by eapply lookup_lt_Some].
Qed.

(** Validation of a mapping returns when no value can reach the
    children of a rule as null. *)
Lemma validate_returns_mut :
  (forall r, guardedRule r -> pureRule r ->
     forall h errs v key path,
       exists res, validateValue r h errs v key path = Returns res) /\
  (forall s, guardedSchema s -> pureSchema s ->
     forall h0 h errs l cps vl,
       h0 !! l = Some (Obj cps) ->
       h0 `prefix_of` h -> length h0 <= vl ->
       exists res, validateEntries s h errs (VRef l) vl = Returns res).
Proof.
  apply Rule_Schema_ind.
  - intros ty req def vd tr ch Hch Hg [Htr Hpch] h errs v key path. simpl.
    destruct (req && _) eqn:Hreq; [by eexists|].
    destruct (is_undefined v && _); [by eexists|].
    destruct (is_undefined v) eqn:Hu; [by eexists|].
    destruct ch as [cs|].
    2:{ destruct (match tr with Some f => f h v | None => (h, v) end) as [h1 v1].
        destruct (match ty with Some _ => _ | None => _ end); [by eexists|].
        destruct (match vd with Some _ => _ | None => _ end); by eexists. }
    simpl in Hg. destruct Hg as (-> & -> & Hgcs).
    destruct (match ty with Some _ => _ | None => _ end); [by eexists|].
    destruct (match vd with Some _ => _ | None => _ end); [by eexists|].
    destruct (bool_decide (typeOf h v = "object")) eqn:Hty; simpl;
      [|by eexists].
    destruct (isArray h v) eqn:Harr; simpl; [by eexists|].
    apply bool_decide_eq_true in Hty.
    destruct v as [| | | | |l]; simpl in *; try done.
    destruct (h !! l) as [[ps|xs]|] eqn:Hl; try done.
    unfold validateConfig_body. simpl. rewrite Hl. simpl.
    destruct (Hch Hgcs Hpch h (h ++ [Obj ps]) [] l ps (length h) Hl)
      as [[h2 errs2] ->]; [by apply prefix_app_r|done|].
    simpl. by eexists.
  - intros _ _ h0 h errs l cps vl _ _ _. simpl. by eexists.
  - intros key r rest IHr IHrest [Hgr Hgrest] [Hr Hrest] h0 h errs l cps vl
      Hl Hp Hvl.
    change (validateEntries (SCons key r rest) h errs (VRef l) vl) with
      (val ← member h (VRef l) key;
       '(h', errors', v) ← validateValue r h errs val key key;
       validateEntries rest (assign h' vl key v) errors' (VRef l) vl).
    rewrite (member_mapping h0 h l cps key Hl Hp).
    destruct (IHr Hgr Hr h errs (get_prop cps key) key key)
      as [[[h1 errs1] out] Hv].
    cbn [mbind outcome_bind]. rewrite Hv. cbn [mbind outcome_bind].
    apply (IHrest Hgrest Hrest h0 _ _ l cps vl Hl); [|done].
    apply assign_prefix; [|done]. etrans; [done|].
    by eapply validateValue_prefix.
Qed.

Lemma validateConfig_guarded_returns h l cps schema :
  guardedSchema schema -> pureSchema schema ->
  h !! l = Some (Obj cps) ->
  exists res, validateConfig h (VRef l) schema = Returns res.
Proof.
  intros Hg Hs Hl. unfold validateConfig, validateConfig_body. simpl.
  rewrite Hl. simpl.
  destruct (proj2 validate_returns_mut schema Hg Hs h (h ++ [Obj cps]) [] l cps
              (length h) Hl) as [[h2 errs2] ->];
    [by apply prefix_app_r|done|].
  simpl. by eexists.
Qed.

End ValidateFacts.

(* ================================================================= *)
(** ** Properties of the validation engine *)

(** The statements about [validateConfig] assume that [config] is a
    document of the store, that the keys of the schema are distinct, as
    the property names of an object are, and that transforms are
    allocation-only ([pureSchema]).  The one exception the engine can
    raise, reading a property of a null value handed to a children
    schema, is excluded by hypothesis where it matters;
    [ValidateFacts.validateConfig_guarded_returns] gives a class of
    schemas for which it cannot happen. *)

Module ValidateProperties.
Import Validate Frame SchemaFrame JSFacts GrowthFacts ValidateFacts.

Lemma validateConfig_returns h config cps schema :
  pureSchema schema ->
  ownProps h config = Returns cps ->
  validateConfig h config schema <> Fails TypeError ->
  exists h2 errs,
    validateEntries schema (h ++ [Obj cps]) [] config (length h)
      = Returns (h2, errs) /\
    validateConfig h config schema =
      Returns (h2, {| isValid := bool_decide (length errs = 0);
                      errors := errs;
                      validated := VRef (length h) |}).
Proof.
  intros Hs Ho. unfold validateConfig, validateConfig_body. rewrite Ho. simpl.
  destruct (validateEntries schema _ _ _ _) as [[h2 errs]|e] eqn:He; simpl.
  - intros _. by exists h2, errs.
  - intros Hne. exfalso. apply Hne. f_equal.
    apply (proj2 validate_fails_mut schema Hs h (h ++ [Obj cps]) [] config cps
             (length h) e Ho); [by apply prefix_app_r|done|done].
Qed.

(** What [validated[k]] holds for a schema entry [(k, r)]: the outcome
    of the call [validateValue(config[k], k, r)] the loop makes, whose
    errors are kept in the error list returned. *)
Lemma validateConfig_at_key h config cps schema k r :
  pureSchema schema ->
  NoDup (schema_keys schema) ->
  (k, r) ∈ schema_entries schema ->
  ownProps h config = Returns cps ->
  validateConfig h config schema <> Fails TypeError ->
  exists h' res vp ha ea hb eb out,
    validateConfig h config schema = Returns (h', res) /\
    validated res = VRef (length h) /\
    h' !! length h = Some (Obj vp) /\
    validateValue r ha ea (get_prop cps k) k k = Returns (hb, eb, out) /\
    eb `prefix_of` errors res /\
    get_prop vp k = out.
Proof.
  intros Hs Hnd Hin Ho Hne.
  destruct (validateConfig_returns _ _ _ _ Hs Ho Hne) as (h2 & errs & He & Hv).
  destruct (validateEntries_at_key schema k r h (h ++ [Obj cps]) [] config cps
              (length h) cps h2 errs Hs Hnd Hin Ho)
    as (ha & ea & hb & eb & out & vp & Hcall & Herr & Hvp & Hout);
    [by apply prefix_app_r|done|apply lookup_alloc|done|].
  eexists h2, _, vp, ha, ea, hb, eb, out. split; [exact Hv|]. simpl.
  repeat split; try done. unfold get_prop. by rewrite Hout.
Qed.



Lemma validateValue_required_missing r h errs v key path :
  required r = true ->
  v = VUndefined \/ v = VNull ->
  validateValue r h errs v key path =
    Returns (h, errs ++ [path +:+ " is required"], default r).
Proof.
  destruct r as [ty req def vd tr ch]. simpl. intros -> [-> | ->]; done.
Qed.

Lemma validateValue_absent r h errs key path :
  required r = false ->
  validateValue r h errs VUndefined key path = Returns (h, errs, default r).
Proof.
  destruct r as [ty req def vd tr ch]. simpl. intros ->. simpl.
  by destruct def.
Qed.

(** C5, as amended.  For a key whose value is present (not absent, and
    not an explicit null under a required rule) and whose rule declares
    a type, the actual type is computed on the value as [transform]
    leaves it, a sequence being reported as ["array"]; on a mismatch
    the call appends ["{path} should be {type}, got {actual}"], returns
    [r.default] (absent when the rule has none) as the outcome and does
    nothing else: the validator and the children are not looked at. *)
Theorem validateValue_type_mismatch r h errs v key path ty h1 v1 :
  is_undefined v = false ->
  required r && is_null v = false ->
  type r = Some ty ->
  transformed r h v = (h1, v1) ->
  actualType h1 v1 <> type_name ty ->
  validateValue r h errs v key path =
    Returns (h1,
             errs ++ [path +:+ " should be " +:+ type_name ty +:+ ", got "
                        +:+ actualType h1 v1],
             default r) /\
  (isArray h1 v1 = true -> actualType h1 v1 = "array").
Proof.
  destruct r as [ty' req def vd tr ch]. unfold transformed. simpl.
  intros Hu Hreq -> Htr Hmis. split.
  - rewrite Hu. simpl. rewrite Hreq, Htr.
    by rewrite bool_decide_true.
  - unfold actualType. by intros ->.
Qed.

Lemma validateValue_type_mismatch_witness :
  let r := mkRule (Some TNumber) false (VNum 80) None
             (Some (fun h v => (h, v))) None in
  validateValue r [] [] (VStr "abc") "port" "port" =
    Returns ([], ["port should be number, got string"], VNum 80) /\
  (isArray [] (VStr "abc") = true -> actualType [] (VStr "abc") = "array").
Proof.
  cbv zeta.
  apply (validateValue_type_mismatch
           (mkRule (Some TNumber) false (VNum 80) None
              (Some (fun h v => (h, v))) None)
           [] [] (VStr "abc") "port" "port" TNumber [] (VStr "abc")).
  - reflexivity.
  - reflexivity.
  - reflexivity.
  - reflexivity.
  - discriminate.
Defined.

(** C5 as stated fails for values that do not reach the type check.
    Under a required rule of type number a null value, whose actual type
    is ["object"], gets the error ["port is required"] and no type
    error; an absent value under a rule of type number gets no error at
    all. *)
Lemma validateConfig_type_counterexample :
  (let h := [Obj [("port", VNull)]] in
   let schema :=
     SCons "port" (mkRule (Some TNumber) true VUndefined None None None) SNil in
   actualType h VNull = "object" /\
   exists h' res,
     validateConfig h (VRef 0) schema = Returns (h', res) /\
     errors res = ["port is required"]) /\
  (let h := [Obj []] in
   let schema :=
     SCons "port" (mkRule (Some TNumber) false VUndefined None None None) SNil in
   exists h' res,
     validateConfig h (VRef 0) schema = Returns (h', res) /\
     errors res = [] /\ isValid res = true).
Proof.
  split; cbv zeta.
  - split; [reflexivity|]. eexists _, _. split; reflexivity.
  - eexists _, _. repeat split; reflexivity.
Qed.

(** C6, as amended.  For a key whose rule defines children and whose
    value, as [transform] leaves it, is a mapping that passes the rule's
    type check and validator, the call validates the value against the
    children schema, appends every nested error prefixed with
    ["{path}."] and returns the nested validated document as the
    outcome; it throws when the nested validation does. *)
Theorem validateValue_children r h errs v key path cs h1 v1 :
  is_undefined v = false ->
  required r && is_null v = false ->
  transformed r h v = (h1, v1) ->
  type_ok r h1 v1 ->
  validator_ok r h1 v1 ->
  children r = Some cs ->
  Merge.isPlainObject h1 v1 = true ->
  validateValue r h errs v key path =
    ('(h', childResult) ← validateConfig h1 v1 cs;
     Returns (h',
              errs ++ map (fun err => path +:+ "." +:+ err) (errors childResult),
              validated childResult)).
Proof.
  destruct r as [ty req def vd tr ch].
  unfold transformed, type_ok, validator_ok, Merge.isPlainObject. simpl.
  intros Hu Hreq Htr Hty Hvd -> Hobj.
  rewrite Hu. simpl. rewrite Hreq, Htr.
  assert (match ty with
          | Some ty0 =>
              if bool_decide (actualType h1 v1 <> type_name ty0)
              then Some (path +:+ " should be " +:+ type_name ty0 +:+ ", got "
                           +:+ actualType h1 v1)
              else None
          | None => None
          end = None) as ->.
  { destruct ty as [ty0|]; [|done]. by rewrite bool_decide_false by auto. }
  assert (match vd with
          | Some check =>
              match check h1 v1 with
              | VBool true => None
              | VStr msg => Some msg
              | _ => Some (path +:+ " validation failed")
              end
          | None => None
          end = None) as ->.
  { destruct vd as [check|]; [|done]. by rewrite Hvd. }
  apply andb_prop in Hobj as [Hobj Harr]. apply andb_prop in Hobj as [Hobj _].
  by rewrite Hobj, Harr.
Qed.

Lemma validateValue_children_witness :
  let port := mkRule (Some TNumber) true VUndefined None None None in
  let r := mkRule (Some TObject) true VUndefined None None
             (Some (SCons "port" port SNil)) in
  validateValue r [Obj []] [] (VRef 0) "database" "database" =
    Returns ([Obj []; Obj [("port", VUndefined)]],
             ["database.port is required"], VRef 1).
Proof.
  cbv zeta.
  rewrite (validateValue_children _ [Obj []] [] (VRef 0) "database" "database"
             (SCons "port" (mkRule (Some TNumber) true VUndefined None None None)
                SNil)
             [Obj []] (VRef 0)).
  - reflexivity.
  - reflexivity.
  - reflexivity.
  - reflexivity.
  - reflexivity.
  - exact I.
  - reflexivity.
  - reflexivity.
Defined.

(** C6 as stated fails when the value does not pass the earlier checks.
    With a validator that rejects the value, a mapping under a rule with
    children is not validated against them: the only error is the
    validator's, the nested ["database.port is required"] is not
    reported, and the outcome is the rule's default, here absent. *)
Lemma validateConfig_children_counterexample :
  let h := [Obj []; Obj [("database", VRef 0)]] in
  let port := mkRule None true VUndefined None None None in
  let schema :=
    SCons "database"
      (mkRule None false VUndefined (Some (fun _ _ => VBool false)) None
         (Some (SCons "port" port SNil))) SNil in
  Merge.isPlainObject h (get h (VRef 1) "database") = true /\
  exists h' res,
    validateConfig h (VRef 1) schema = Returns (h', res) /\
    errors res = ["database validation failed"] /\
    get h' (validated res) "database" = VUndefined.
Proof.
  cbv zeta. split; [reflexivity|].
  eexists _, _. repeat split; reflexivity.
Qed.

End ValidateProperties.

(* ================================================================= *)
(** ** Properties of file discovery *)

Module DiscoveryProperties.
Import Discovery DiscoveryOrder.

Section StableSort.
Context {A : Type} (key : A -> Z).
Local Abbreviation byKey := (fun x y : A => (key x - key y)%Z).

Lemma insert_sorted_elem x y l :
  y ∈ insert_sorted byKey x l <-> y = x \/ y ∈ l.
Proof.
  induction l as [|z l IH]; simpl.
  - rewrite list_elem_of_singleton, elem_of_nil. tauto.
  - destruct (key x - key z <=? 0)%Z.
    + rewrite !elem_of_cons. tauto.
    + rewrite !elem_of_cons, IH. tauto.
Qed.

Lemma insert_sorted_sorted x l :
  StronglySorted (fun a b => (key a <= key b)%Z) l ->
  StronglySorted (fun a b => (key a <= key b)%Z) (insert_sorted byKey x l).
Proof.
  induction 1 as [|z l Hs IH Hz]; simpl.
  - repeat constructor.
  - destruct (key x - key z <=? 0)%Z eqn:Hc.
    + apply Z.leb_le in Hc.
      constructor; [by constructor|].
      constructor; [lia|].
      eapply Forall_impl; [exact Hz|]. simpl. intros; lia.
    + apply Z.leb_gt in Hc.
      constructor; [done|].
      apply Forall_forall. intros y [->|Hy]%insert_sorted_elem; [lia|].
      rewrite Forall_forall in Hz. by apply Hz.
Qed.

Lemma sort_sorted l :
  StronglySorted (fun a b => (key a <= key b)%Z) (sort byKey l).
Proof.
  induction l as [|x l IH]; simpl; [constructor|].
  by apply insert_sorted_sorted.
Qed.

(** The sort is stable: elements that a predicate selects from one
    rank only keep their relative order. *)
Context (P : A -> Prop) `{!forall x, Decision (P x)}.
Hypothesis P_rank : forall x y, P x -> P y -> key x = key y.

Lemma insert_sorted_filter x l :
  filter P (insert_sorted byKey x l) = filter P (x :: l).
Proof.
  induction l as [|z l IH]; simpl; [done|].
  destruct (key x - key z <=? 0)%Z eqn:Hc; [done|].
  apply Z.leb_gt in Hc.
  rewrite (filter_cons _ z), IH, !filter_cons.
  destruct (decide (P z)) as [Hz|Hz]; [|done].
  destruct (decide (P x)) as [Hx|Hx]; [|done].
  specialize (P_rank _ _ Hx Hz). lia.
Qed.

Lemma sort_filter l : filter P (sort byKey l) = filter P l.
Proof.
  induction l as [|x l IH]; simpl; [done|].
  by rewrite insert_sorted_filter, !filter_cons, IH.
Qed.
End StableSort.

Lemma StronglySorted_lookup {A} (R : A -> A -> Prop) l i j a b :
  StronglySorted R l -> i < j -> l !! i = Some a -> l !! j = Some b -> R a b.
Proof.
  intros Hs. revert i j. induction Hs as [|x l Hs IH Hx]; intros i j Hij Hi Hj.
  - done.
  - destruct j as [|j]; [lia|]. simpl in Hj. destruct i as [|i].
    + injection Hi as ->. rewrite Forall_forall in Hx. apply Hx.
      by eapply list_elem_of_lookup_2.
    + simpl in Hi. apply (IH i j); [lia|done|done].
Qed.

(** In a list, an element selected by [P] that comes before another
    one also comes before it among the selected elements. *)
Lemma filter_lookup_order {A} (P : A -> Prop) `{!forall x, Decision (P x)}
    (l : list A) i j a b :
  i < j -> l !! i = Some a -> l !! j = Some b -> P a -> P b ->
  exists f1 f2 f3, filter P l = f1 ++ a :: f2 ++ b :: f3.
Proof.
  intros Hij Hi Hj Ha Hb.
  rewrite <- (take_drop_middle l i a Hi).
  assert (Hj' : drop (S i) l !! (j - S i) = Some b).
  { rewrite lookup_drop. by replace (S i + (j - S i)) with j by lia. }
  rewrite <- (take_drop_middle _ _ _ Hj').
  rewrite filter_app, filter_cons_True, filter_app, filter_cons_True by done.
  by eexists _, _, _.
Qed.

Lemma app_split_base {A} (base : A -> bool) (f1 f2 f3 B E : list A) a b :
  f1 ++ a :: f2 ++ b :: f3 = B ++ E ->
  Forall (fun x => base x = true) B ->
  Forall (fun x => base x = false) E ->
  base b = true -> base a = true.
Proof.
  intros Heq HB HE Hb.
  assert (Hlb : (B ++ E) !! (length f1 + S (length f2)) = Some b).
  { rewrite <- Heq. rewrite lookup_app_r by lia.
    replace (length f1 + S (length f2) - length f1) with (S (length f2)) by lia.
    simpl. by apply list_lookup_middle. }
  assert (Hla : (B ++ E) !! length f1 = Some a).
  { rewrite <- Heq. by apply list_lookup_middle. }
  destruct (decide (length f1 + S (length f2) < length B)) as [Hlt|Hge].
  - rewrite lookup_app_l in Hla by lia.
    rewrite Forall_forall in HB. apply HB. by eapply list_elem_of_lookup_2.
  - rewrite lookup_app_r in Hlb by lia.
    rewrite Forall_forall in HE.
    rewrite (HE b) in Hb; [done|]. by eapply list_elem_of_lookup_2.
Qed.

Lemma Forall_filter_keep {A} (P Q : A -> Prop) `{!forall x, Decision (P x)}
    (l : list A) :
  Forall Q l -> Forall Q (filter P l).
Proof.
  rewrite !Forall_forall. intros Hall x [_ Hx]%list_elem_of_filter. by apply Hall.
Qed.

Lemma collect_isBase fs env base paths :
  Forall (fun f => isBase f = base) (collect fs env base paths).
Proof.
  unfold collect. induction paths as [|p paths IH]; simpl; [constructor|].
  apply Forall_app. split; [|done].
  destruct (existsSync fs p); [|constructor].
  destruct (getConfigFormat p); repeat constructor.
Qed.

(** What [findConfigFiles] sorts: the base files found, then the
    environment-specific ones. *)
Lemma findConfigFiles_sorts fs name configDir env extensions :
  exists bases envs,
    findConfigFiles fs name configDir env extensions
      = sort byPriority (bases ++ envs) /\
    Forall (fun f => isBase f = true) bases /\
    Forall (fun f => isBase f = false) envs.
Proof.
  unfold findConfigFiles. destruct (truthy env) as [e|].
  - eexists _, _. split; [done|]. split; apply collect_isBase.
  - eexists _, []. rewrite app_nil_r. split; [done|].
    split; [apply collect_isBase|constructor].
Qed.

(** C9, as amended.  The sequence [findConfigFiles] returns is ordered
    by format priority, lowest first, across base and
    environment-specific files together; only among files of the same
    format do base files come before environment-specific ones. *)
Theorem findConfigFiles_order fs name configDir env extensions i j a b :
  let files := findConfigFiles fs name configDir env extensions in
  i < j ->
  files !! i = Some a ->
  files !! j = Some b ->
  (priority a <= priority b)%Z /\
  (format a = format b -> isBase b = true -> isBase a = true).
Proof.
  intros files Hij Hi Hj. subst files.
  destruct (findConfigFiles_sorts fs name configDir env extensions)
    as (bases & envs & Heq & HB & HE).
  rewrite Heq in Hi, Hj. split.
  - eapply (StronglySorted_lookup _ _ i j a b (sort_sorted priority _));
      done.
  - intros Hf Hb.
    destruct (filter_lookup_order (fun f => format f = format a)
                (sort byPriority (bases ++ envs)) i j a b)
      as (f1 & f2 & f3 & Hfil); try done.
    rewrite (sort_filter priority) in Hfil.
    + rewrite filter_app in Hfil.
      eapply (app_split_base isBase); try done.
      * by apply Forall_filter_keep.
      * by apply Forall_filter_keep.
    + intros x y Hx Hy. unfold priority. congruence.
Qed.

Lemma findConfigFiles_order_witness :
  let fs : filesystem := fun p =>
    if decide (p = "/cfg/app.config.json") then Some 1%Z
    else if decide (p = "/cfg/app.config.dev.json") then Some 2%Z
    else None in
  let files := findConfigFiles fs "app" "/cfg" (Some "dev") None in
  exists a b,
    files !! 0 = Some a /\ files !! 1 = Some b /\
    (priority a <= priority b)%Z /\
    (format a = format b -> isBase b = true -> isBase a = true).
Proof.
  intros fs files.
  assert (exists a b, files !! 0 = Some a /\ files !! 1 = Some b)
    as (a & b & Ha & Hb).
  { vm_compute. eexists _, _. split; reflexivity. }
  exists a, b. split; [exact Ha|]. split; [exact Hb|].
  apply (findConfigFiles_order fs "app" "/cfg" (Some "dev") None 0 1 a b).
  - lia.
  - exact Ha.
  - exact Hb.
Defined.

(** C9 as stated fails: with a base [app.config.ts] and an
    environment-specific [app.config.dev.json], the environment-specific
    file is listed before the base file, because the sort by format runs
    over both groups together. *)
Lemma findConfigFiles_order_counterexample :
  let fs : filesystem := fun p =>
    if decide (p = "/cfg/app.config.ts") then Some 1%Z
    else if decide (p = "/cfg/app.config.dev.json") then Some 2%Z
    else None in
  map (fun f => (path f, isBase f))
      (findConfigFiles fs "app" "/cfg" (Some "dev") None)
  = [("/cfg/app.config.dev.json", false); ("/cfg/app.config.ts", true)].
Proof. vm_compute. reflexivity. Qed.

(** The ranks of the formats. *)
Lemma priorityOrder_ranks :
  map (indexOf priorityOrder)
      [F_env; F_yml; F_yaml; F_json5; F_json; F_js; F_ts]
  = [0; 1; 2; 3; 4; 5; 6]%Z.
Proof. reflexivity. Qed.

(** No discovered file has format ['yml']: a [.yml] file is given the
    format ['yaml'], so the rank of ['yml'] in [priorityOrder] is never
    used. *)
Lemma getConfigFormat_never_yml p : getConfigFormat p <> Some F_yml.
Proof. unfold getConfigFormat. repeat case_decide; discriminate. Qed.

End DiscoveryProperties.

(* ================================================================= *)
(** ** The specification's examples, evaluated on the model *)

Module SpecExamples.
Import Merge Frame Validate Discovery.

(** [merge({a:1,b:2}, {a:9,b:9}, {skipKeys:['b']})] yields [{a:9,b:2}]. *)
Example skipKeys_law :
  deepMerge 1 [Obj [("a", VNum 1); ("b", VNum 2)];
               Obj [("a", VNum 9); ("b", VNum 9)]]
    (VRef 0) (VRef 1) (opts None (Some ["b"]) None)
  = Returns ([Obj [("a", VNum 1); ("b", VNum 2)];
              Obj [("a", VNum 9); ("b", VNum 9)];
              Obj [("a", VNum 9); ("b", VNum 2)]], VRef 2).
Proof. reflexivity. Qed.

(** [merge({a:1,b:2,c:3}, {a:9,b:9,c:9}, {onlyKeys:['a']})] yields
    [{a:9,b:2,c:3}]. *)
Example onlyKeys_law :
  deepMerge 1 [Obj [("a", VNum 1); ("b", VNum 2); ("c", VNum 3)];
               Obj [("a", VNum 9); ("b", VNum 9); ("c", VNum 9)]]
    (VRef 0) (VRef 1) (opts None None (Some ["a"]))
  = Returns ([Obj [("a", VNum 1); ("b", VNum 2); ("c", VNum 3)];
              Obj [("a", VNum 9); ("b", VNum 9); ("c", VNum 9)];
              Obj [("a", VNum 9); ("b", VNum 2); ("c", VNum 3)]], VRef 2).
Proof. reflexivity. Qed.

(** [merge({db:{host:'a',port:1}}, {db:{host:'b'}})] yields
    [{db:{host:'b',port:1}}]: the merged [db] is a new mapping. *)
Example recursive_merge :
  let h := [Obj [("host", VStr "a"); ("port", VNum 1)]; Obj [("db", VRef 0)];
            Obj [("host", VStr "b")]; Obj [("db", VRef 2)]] in
  deepMerge 2 h (VRef 1) (VRef 3) defaultOptions
  = Returns (h ++ [Obj [("db", VRef 5)];
                   Obj [("host", VStr "b"); ("port", VNum 1)]], VRef 4).
Proof. reflexivity. Qed.

(** A value that only [source] has is shared, not copied: the merged
    [db] is the very object of [source]. *)
Example shared_substructure :
  let h := [Obj []; Obj [("host", VStr "b")]; Obj [("db", VRef 1)]] in
  deepMerge 1 h (VRef 0) (VRef 2) defaultOptions
  = Returns (h ++ [Obj [("db", VRef 1)]], VRef 3).
Proof. reflexivity. Qed.

(** With too little fuel for the nesting the model stops. *)
Example recursive_merge_out_of_fuel :
  deepMerge 1 [Obj [("host", VStr "a"); ("port", VNum 1)]; Obj [("db", VRef 0)];
               Obj [("host", VStr "b")]; Obj [("db", VRef 2)]]
    (VRef 1) (VRef 3) defaultOptions
  = Fails OutOfFuel.
Proof. reflexivity. Qed.

(** Array policy laws for [target.items = [1,2]], [source.items = [2,3]]. *)
Example array_policies :
  let h := [Arr [VNum 1; VNum 2]; Obj [("items", VRef 0)];
            Arr [VNum 2; VNum 3]; Obj [("items", VRef 2)]] in
  deepMerge 1 h (VRef 1) (VRef 3) (opts (Some arr_concat) None None)
    = Returns (h ++ [Obj [("items", VRef 5)];
                     Arr [VNum 1; VNum 2; VNum 2; VNum 3]], VRef 4) /\
  deepMerge 1 h (VRef 1) (VRef 3) (opts (Some arr_unique) None None)
    = Returns (h ++ [Obj [("items", VRef 5)];
                     Arr [VNum 1; VNum 2; VNum 3]], VRef 4) /\
  deepMerge 1 h (VRef 1) (VRef 3) (opts (Some arr_replace) None None)
    = Returns (h ++ [Obj [("items", VRef 2)]], VRef 4).
Proof. repeat split; reflexivity. Qed.

(** An [undefined] in source is skipped, a null is written
    ([tests/utils.test.ts], null and undefined values). *)
Example null_and_undefined :
  deepMerge 1 [Obj [("version", VNull); ("name", VStr "app")];
               Obj [("version", VStr "1.0.0"); ("name", VUndefined);
                    ("timeout", VNull)]]
    (VRef 0) (VRef 1) defaultOptions
  = Returns ([Obj [("version", VNull); ("name", VStr "app")];
              Obj [("version", VStr "1.0.0"); ("name", VUndefined);
                   ("timeout", VNull)];
              Obj [("version", VStr "1.0.0"); ("name", VStr "app");
                   ("timeout", VNull)]], VRef 2).
Proof. reflexivity. Qed.

(** Schema [{port:{required:true,type:'number'}}] against [{}]. *)
Example required_missing :
  validateConfig [Obj []] (VRef 0)
    (SCons "port" (mkRule (Some TNumber) true VUndefined None None None) SNil)
  = Returns ([Obj []; Obj [("port", VUndefined)]],
             {| isValid := false; errors := ["port is required"];
                validated := VRef 1 |}).
Proof. reflexivity. Qed.

(** Schema [{host:{required:false,default:'localhost'}}] against [{}]. *)
Example default_fill :
  validateConfig [Obj []] (VRef 0)
    (SCons "host" (mkRule None false (VStr "localhost") None None None) SNil)
  = Returns ([Obj []; Obj [("host", VStr "localhost")]],
             {| isValid := true; errors := []; validated := VRef 1 |}).
Proof. reflexivity. Qed.

(** Nested validation: the missing required [port] under [database] is
    reported with a dotted path, and the unknown key [x] is kept. *)
Example nested_validation :
  let rq t := mkRule (Some t) true VUndefined None None None in
  validateConfig [Obj [("host", VStr "localhost")];
                  Obj [("database", VRef 0); ("x", VNum 1)]]
    (VRef 1)
    (SCons "database"
       (mkRule (Some TObject) true VUndefined None None
          (Some (SCons "host" (rq TString) (SCons "port" (rq TNumber) SNil))))
       SNil)
  = Returns ([Obj [("host", VStr "localhost")];
              Obj [("database", VRef 0); ("x", VNum 1)];
              Obj [("database", VRef 3); ("x", VNum 1)];
              Obj [("host", VStr "localhost"); ("port", VUndefined)]],
             {| isValid := false; errors := ["database.port is required"];
                validated := VRef 2 |}).
Proof. reflexivity. Qed.

(** A null value under a rule with children that is not required: the
    nested call reads a property of null and throws. *)
Example null_child_throws :
  validateConfig [Obj [("server", VNull)]] (VRef 0)
    (SCons "server"
       (mkRule (Some TObject) false VUndefined None None
          (Some (SCons "port"
                   (mkRule (Some TNumber) true VUndefined None None None)
                   SNil)))
       SNil)
  = Fails TypeError.
Proof. reflexivity. Qed.

(** [tests/utils.test.ts]: json, js and ts files are listed in that
    order; a [.yml] file has format ['yaml'] and follows a [.yaml] one. *)
Example priority_order :
  let fs : filesystem := fun p =>
    if bool_decide (p ∈ ["/cfg/app.config.json"; "/cfg/app.config.js";
                         "/cfg/app.config.ts"; "/cfg/app.config.yml";
                         "/cfg/app.config.yaml"])
    then Some 0%Z else None in
  map (fun f => (ext f, format f)) (findConfigFiles fs "app" "/cfg" None None)
  = [(".yaml", F_yaml); (".yml", F_yaml); (".json", F_json); (".js", F_js);
     (".ts", F_ts)].
Proof. vm_compute. reflexivity. Qed.

(** *** Keys named like members of [Object.prototype] *)

(** [merge({toString:'old'}, {toString:'new'})]: the inherited
    [toString] is called as the custom merger of the key. *)
Example inherited_merger :
  let h := [Obj [("toString", VStr "old")]; Obj [("toString", VStr "new")]] in
  deepMerge 1 h (VRef 0) (VRef 1) defaultOptions
  = Returns (h ++ [Obj [("toString", VStr "[object Object]")]], VRef 2).
Proof. reflexivity. Qed.

(** [merge([1], ...)] at the key [constructor] is [Object(target's
    sequence)], the sequence of [target] itself, whatever the array
    policy. *)
Example inherited_constructor :
  let h := [Arr [VNum 1]; Obj [("constructor", VRef 0)];
            Arr [VNum 2]; Obj [("constructor", VRef 2)]] in
  deepMerge 1 h (VRef 1) (VRef 3) (opts (Some arr_concat) None None)
  = Returns (h ++ [Obj [("constructor", VRef 0)]], VRef 4).
Proof. reflexivity. Qed.

(** A source with an own key [__proto__], as [JSON.parse] makes them:
    [customMergers['__proto__']] is [Object.prototype], which is not a
    function. *)
Example own_proto_throws :
  let h := [Obj [("a", VNum 1)]; Obj [("k", VNum 1)];
            Obj [("__proto__", VRef 0)]] in
  deepMerge 1 h (VRef 1) (VRef 2) defaultOptions = Fails TypeError.
Proof. reflexivity. Qed.

(** The same key is harmless when [skipKeys] lists it, and under the
    shallow strategy, where it is copied like any own key. *)
Example own_proto_skipped :
  let h := [Obj [("a", VNum 1)]; Obj [("k", VNum 1)];
            Obj [("__proto__", VRef 0); ("k", VNum 2)]] in
  deepMerge 1 h (VRef 1) (VRef 2) (opts None (Some ["__proto__"]) None)
    = Returns (h ++ [Obj [("k", VNum 2)]], VRef 3) /\
  deepMerge 1 h (VRef 1) (VRef 2)
    {| strategy := Some shallow; arrayMergeStrategy := None;
       customMergers := None; skipKeys := None; onlyKeys := None |}
    = Returns (h ++ [Obj [("k", VNum 2); ("__proto__", VRef 0)]], VRef 3).
Proof. split; reflexivity. Qed.

(** [deepMergeHelper], which has no custom mergers, stores source's
    value at [toString]; an own [__proto__] of [source] goes to the
    inherited setter of the result, which ignores a primitive and
    would replace the prototype by an object. *)
Example helper_inherited_names :
  let h := [Obj [("toString", VStr "old")]; Obj [("toString", VStr "new")];
            Obj [("__proto__", VNum 5); ("k", VNum 1)];
            Obj [("__proto__", VRef 0)]] in
  MergeVariants.deepMergeHelper 1 h (VRef 0) (VRef 1)
    = Returns (h ++ [Obj [("toString", VStr "new")]], VRef 4) /\
  MergeVariants.deepMergeHelper 1 h (VRef 0) (VRef 2)
    = Returns (h ++ [Obj [("toString", VStr "old"); ("k", VNum 1)]], VRef 4) /\
  MergeVariants.deepMergeHelper 1 h (VRef 0) (VRef 3) = Fails NotModelled.
Proof. repeat split; reflexivity. Qed.

(** [conditionalMerge] copies an accepted own [__proto__] of [source]
    with an assignment: the prototype of the filtered copy would be
    replaced, which the store cannot express. *)
Example conditional_proto :
  let h := [Obj [("k", VNum 1)]; Obj [("a", VNum 0)];
            Obj [("__proto__", VRef 0); ("k", VNum 2)]] in
  MergeVariants.conditionalMerge 1 h (VRef 1) (VRef 2)
    (MergeVariants.CondFn (fun _ key _ => negb (bool_decide (key = "k")))) None
  = Fails NotModelled.
Proof. reflexivity. Qed.

(** [transformMerge] on a document with a key [toString] and no
    transformer for it: the inherited [toString] is called as the
    transformer, without [this]. *)
Example inherited_transformer :
  let h := [Obj [("toString", VStr "x")]] in
  Transform.applyTransformers 1 [] h (VRef 0) ""
  = Returns (h ++ [Obj [("toString", VStr "[object Undefined]")]], VRef 1).
Proof. reflexivity. Qed.

End SpecExamples.

(* ================================================================= *)
(** ** Further properties of [deepMerge] *)

Module MergeMore.
Import Merge Frame JSFacts MergeFacts GrowthFacts MergeTotal MergeKeyFacts.
Import MergeProperties.

(** An iteration for a key whose source value is [undefined] does
    nothing. *)
Lemma mergeKey_undefined self o source r h k :
  get h source k = VUndefined ->
  mergeKey self o source r h k = Returns h.
Proof.
  intros Hu. unfold mergeKey.
  destruct (includes _ k); [done|].
  destruct (match onlyKeys o with Some _ => _ | None => _ end); [done|].
  by rewrite Hu.
Qed.

(** A run of iterations in which [source[k]] reads [undefined] keeps
    [result[k]]. *)
Lemma forIn_keeps_undefined self o source sp r k h0 keys : forall h h' rp,
  pureMergers o ->
  (forall h t s h1 v, self h t s = Returns (h1, v) -> h `prefix_of` h1) ->
  ownProps h0 source = Returns sp ->
  get_prop sp k = VUndefined ->
  h0 `prefix_of` h -> length h0 <= r ->
  h !! r = Some (Obj rp) ->
  forIn (mergeKey self o source r) keys h = Returns h' ->
  exists rp', h' !! r = Some (Obj rp') /\ lookup_prop k rp' = lookup_prop k rp.
Proof.
  induction keys as [|key keys IH]; intros h h' rp Hpure Hself Ho Hu Hp Hr Hcell;
    simpl.
  - intros [= <-]. by exists rp.
  - destruct (mergeKey self o source r h key) as [h1|e] eqn:H1; simpl; [|done].
    intros Hrest.
    assert (exists rp1, h1 !! r = Some (Obj rp1) /\
              lookup_prop k rp1 = lookup_prop k rp) as (rp1 & Hr1 & Heq1).
    { destruct (decide (key = k)) as [->|Hne].
      - rewrite mergeKey_undefined in H1.
        + injection H1 as <-. by exists rp.
        + by rewrite (ownProps_get _ _ sp) by by eapply ownProps_prefix.
      - destruct (mergeKey_result _ _ _ _ _ _ _ _ Hpure Hself Hcell H1)
          as (rp1 & Hr1 & Heq1).
        exists rp1. split; [done|]. by apply Heq1. }
    destruct (IH h1 h' rp1) as (rp' & Hr' & Heq'); try done.
    { by eapply mergeKey_prefix. }
    exists rp'. split; [done|]. congruence.
Qed.

(** The merged document binds a key that [source] leaves undefined as
    [target] does. *)
Lemma deepMerge_undefined_keeps fuel h target source o tp sp k :
  deepLike (strategy_of o) = true ->
  pureMergers o ->
  ownProps h target = Returns tp ->
  ownProps h source = Returns sp ->
  0 < fuel ->
  plainKeys fuel h source = true ->
  get_prop sp k = VUndefined ->
  exists h' r rp,
    deepMerge fuel h target source o = Returns (h', VRef r) /\
    h' !! r = Some (Obj rp) /\
    lookup_prop k rp = lookup_prop k tp.
Proof.
  intros Hd Hpure Ht Hs Hpos Hpl Hu.
  destruct (deepMerge_returns o fuel h target source tp sp)
    as (h' & res & Hm); try done.
  destruct fuel as [|fuel]; [lia|].
  pose proof Hm as Hm'.
  rewrite deepMerge_deep in Hm' by done.
  rewrite Ht in Hm'. simpl in Hm'.
  assert (Hp1 : h `prefix_of` h ++ [Obj tp]) by by apply prefix_app_r.
  rewrite (ownProps_prefix _ _ _ _ Hp1 Hs) in Hm'. simpl in Hm'.
  destruct (forIn _ _ _) as [h2|e] eqn:Hloop; simpl in Hm'; [|done].
  injection Hm' as <- <-.
  destruct (forIn_keeps_undefined _ o source sp (length h) k h _ _ _ tp Hpure
              (deepMerge_self_prefix o fuel Hpure) Hs Hu Hp1 (le_n _)
              (lookup_alloc h (Obj tp)) Hloop)
    as (rp & Hr & Heq).
  by exists h2, (length h), rp.
Qed.

(** X1. Under the deep strategy, for a source none of whose keys is a
    name inherited from [Object.prototype], a key that [source] does
    not have, or has with the value [undefined], is bound in the merged
    document exactly as in [target]: merging never removes a key of
    [target] and never replaces a value by [undefined]. *)
Theorem deepMerge_keeps_target_binding fuel h target source o tp sp k :
  deepLike (strategy_of o) = true ->
  pureMergers o ->
  ownProps h target = Returns tp ->
  ownProps h source = Returns sp ->
  0 < fuel ->
  plainKeys fuel h source = true ->
  get_prop sp k = VUndefined ->
  exists h' r rp,
    deepMerge fuel h target source o = Returns (h', VRef r) /\
    h' !! r = Some (Obj rp) /\
    lookup_prop k rp = lookup_prop k tp.
Proof. apply deepMerge_undefined_keeps. Qed.

Lemma deepMerge_keeps_target_binding_witness :
  let h := [Obj [("name", VStr "app"); ("port", VNum 80)];
            Obj [("port", VUndefined); ("debug", VBool true)]] in
  exists h' r rp,
    deepMerge 1 h (VRef 0) (VRef 1) defaultOptions = Returns (h', VRef r) /\
    h' !! r = Some (Obj rp) /\
    lookup_prop "port" rp = lookup_prop "port" [("name", VStr "app"); ("port", VNum 80)].
Proof.
  cbv zeta.
  apply (deepMerge_keeps_target_binding 1 _ (VRef 0) (VRef 1) defaultOptions
           [("name", VStr "app"); ("port", VNum 80)]
           [("port", VUndefined); ("debug", VBool true)] "port").
  - reflexivity.
  - intros k m H. discriminate H.
  - reflexivity.
  - reflexivity.
  - lia.
  - reflexivity.
  - reflexivity.
Defined.

(** What the loop body does for a key whose target value is a scalar or
    missing: every branch past the filters assigns the source value. *)
Lemma mergeKey_over_scalar self o source r h k v :
  unfiltered o k = true ->
  inherited k = false ->
  customMergers_of o k = None ->
  get h source k = v ->
  v <> VUndefined ->
  (is_scalar (get h (VRef r) k) || is_undefined (get h (VRef r) k)) = true ->
  mergeKey self o source r h k = Returns (assign h r k v).
Proof.
  intros Hu Hin Hm Hv Hdef Htv. rewrite mergeKey_unfiltered by done. cbv zeta.
  rewrite Hv, Hm.
  destruct (is_undefined v) eqn:Hund; [by destruct v|].
  assert (isArray h (get h (VRef r) k) = false) as ->.
  { by destruct (get h (VRef r) k). }
  assert (isPlainObject h (get h (VRef r) k) = false) as ->.
  { by destruct (get h (VRef r) k). }
  rewrite andb_false_r. by destruct (isArray h v).
Qed.

(** X2. Under the deep strategy, for a source none of whose keys is a
    name inherited from [Object.prototype], when [target[k]] is missing
    or a scalar, a defined [source[k]] of any kind (scalar, sequence or
    mapping) that passes the filters and has no custom merger becomes
    the value of [k] in the merged document as it is: a nested object
    or array of [source] is shared with the result, not copied. *)
Theorem deepMerge_shares_source_value fuel h target source o tp sp k v :
  strategy_of o = deep ->
  pureMergers o ->
  ownProps h target = Returns tp ->
  ownProps h source = Returns sp ->
  NoDup (map fst sp) ->
  plainKeys fuel h source = true ->
  lookup_prop k sp = Some v ->
  v <> VUndefined ->
  (is_scalar (get_prop tp k) || is_undefined (get_prop tp k)) = true ->
  customMergers_of o k = None ->
  unfiltered o k = true ->
  exists h' res,
    deepMerge fuel h target source o = Returns (h', res) /\
    get h' res k = v.
Proof.
  intros Hd%deep_is_deepLike Hpure Ht Hs Hnd Hpl Hk Hdef Htv Hcm Hu.
  pose proof (plainKeys_shallower _ _ _ Hpl) as Hsh.
  pose proof (shallower_props_pos _ _ _ _ _ _ Hsh Hs Hk) as Hpos.
  assert (Hin : inherited k = false).
  { eapply plainKeys_key; [done|done|]. by eapply lookup_prop_Some_key. }
  destruct (deepMerge_returns o fuel h target source tp sp)
    as (h' & res & Hm); try done.
  exists h', res. split; [done|].
  destruct fuel as [|fuel]; [lia|].
  apply (deepMerge_assigned o fuel h target source tp sp k h' res v
           Hd Hpure Ht Hs Hnd (lookup_prop_Some_key _ _ _ Hk) Hm).
  intros ha Hpa (rpa & Hra & Heqa). exists ha. split; [done|].
  apply mergeKey_over_scalar; try done.
  - rewrite (ownProps_get _ _ sp) by by eapply ownProps_prefix.
    unfold get_prop. by rewrite Hk.
  - simpl. rewrite Hra. unfold get_prop in *. by rewrite Heqa.
Qed.

Lemma deepMerge_shares_source_value_witness :
  let h := [Obj [("name", VStr "app")];
            Obj [("host", VStr "db")];
            Obj [("database", VRef 1)]] in
  exists h' res,
    deepMerge 2 h (VRef 0) (VRef 2) defaultOptions = Returns (h', res) /\
    get h' res "database" = VRef 1.
Proof.
  cbv zeta.
  apply (deepMerge_shares_source_value 2 _ (VRef 0) (VRef 2) defaultOptions
           [("name", VStr "app")] [("database", VRef 1)] "database" (VRef 1)).
  - reflexivity.
  - intros k m H. discriminate H.
  - reflexivity.
  - reflexivity.
  - apply NoDup_singleton.
  - reflexivity.
  - reflexivity.
  - discriminate.
  - reflexivity.
  - reflexivity.
  - reflexivity.
Defined.

Lemma lookup_prop_None k (ps : props) :
  k ∉ map fst ps -> lookup_prop k ps = None.
Proof.
  induction ps as [|[k' v'] ps IH]; simpl; [done|].
  intros Hn. rewrite decide_False.
  - apply IH. intros Hin. apply Hn. by right.
  - intros ->. apply Hn. left.
Qed.

(** A spread [{...a, ...b}] binds each key as [b] does when [b] has it
    and as [a] does otherwise. *)
Lemma lookup_spread_onto k (b : props) : forall a : props,
  NoDup (map fst b) ->
  lookup_prop k (spread_onto a b) =
    match lookup_prop k b with
    | Some v => Some v
    | None => lookup_prop k a
    end.
Proof.
  unfold spread_onto.
  induction b as [|[k1 v1] b IH]; intros a Hnd; simpl; [done|].
  apply NoDup_cons in Hnd as [Hk1 Hnd].
  rewrite IH by done.
  destruct (decide (k1 = k)) as [->|Hne].
  - by rewrite lookup_prop_None, lookup_set_prop_eq.
  - by rewrite lookup_set_prop_ne.
Qed.

(** X3. Under the shallow strategy the merged document is the spread
    [{...target, ...source}]: a new object that binds every key of
    [source] to the value [source] gives it, [undefined] included, and
    every other key as [target] does.  Nested mappings are replaced,
    not merged, and [skipKeys], [onlyKeys] and [customMergers] play no
    part. *)
Theorem deepMerge_shallow_spread fuel h target source o tp sp :
  strategy_of o = shallow ->
  ownProps h target = Returns tp ->
  ownProps h source = Returns sp ->
  NoDup (map fst sp) ->
  0 < fuel ->
  exists rp,
    deepMerge fuel h target source o = Returns (h ++ [Obj rp], VRef (length h)) /\
    forall k,
      lookup_prop k rp =
        match lookup_prop k sp with
        | Some v => Some v
        | None => lookup_prop k tp
        end.
Proof.
  intros Hs Ht Hsrc Hnd Hpos. destruct fuel as [|fuel]; [lia|].
  exists (spread_onto tp sp). split.
  - simpl. rewrite Hs, Ht, Hsrc. done.
  - intros k. by apply lookup_spread_onto.
Qed.

Lemma deepMerge_shallow_spread_witness :
  let h := [Obj [("port", VNum 1)]; Obj [("host", VStr "a")];
            Obj [("a", VRef 0); ("b", VNum 2)];
            Obj [("a", VRef 1); ("b", VUndefined)]] in
  let o := {| strategy := Some shallow; arrayMergeStrategy := None;
              customMergers := None; skipKeys := Some ["a"];
              onlyKeys := None |} in
  exists rp,
    deepMerge 1 h (VRef 2) (VRef 3) o = Returns (h ++ [Obj rp], VRef (length h)) /\
    forall k,
      lookup_prop k rp =
        match lookup_prop k [("a", VRef 1); ("b", VUndefined)] with
        | Some v => Some v
        | None => lookup_prop k [("a", VRef 0); ("b", VNum 2)]
        end.
Proof.
  cbv zeta.
  apply (deepMerge_shallow_spread 1 _ (VRef 2) (VRef 3) _
           [("a", VRef 0); ("b", VNum 2)] [("a", VRef 1); ("b", VUndefined)]).
  - reflexivity.
  - reflexivity.
  - reflexivity.
  - apply NoDup_cons. split; [|apply NoDup_singleton].
    intros Hin. apply list_elem_of_singleton in Hin. discriminate Hin.
  - lia.
Defined.

(** X4. Under the deep strategy, for a source none of whose keys is a
    name inherited from [Object.prototype] and a key that passes the
    filters and has a custom merger, the value of the key in the merged
    document is
    what the merger returns for the value [target] has at the key
    ([undefined] when it has none) and the defined value of [source],
    whatever the kinds of the two values: the array and mapping handling
    is not applied to it. *)
Theorem deepMerge_custom_merger fuel h target source o tp sp k v m :
  deepLike (strategy_of o) = true ->
  pureMergers o ->
  ownProps h target = Returns tp ->
  ownProps h source = Returns sp ->
  NoDup (map fst sp) ->
  plainKeys fuel h source = true ->
  lookup_prop k sp = Some v ->
  v <> VUndefined ->
  customMergers_of o k = Some m ->
  unfiltered o k = true ->
  exists h' res ha,
    deepMerge fuel h target source o = Returns (h', res) /\
    h `prefix_of` ha /\
    get h' res k = (m ha (get_prop tp k) v).2.
Proof.
  intros Hd Hpure Ht Hs Hnd Hpl Hk Hdef Hcm Hu.
  pose proof (plainKeys_shallower _ _ _ Hpl) as Hsh.
  pose proof (shallower_props_pos _ _ _ _ _ _ Hsh Hs Hk) as Hpos.
  assert (Hin : inherited k = false).
  { eapply plainKeys_key; [done|done|]. by eapply lookup_prop_Some_key. }
  destruct (deepMerge_returns o fuel h target source tp sp)
    as (h' & res & Hm); try done.
  destruct fuel as [|fuel]; [lia|].
  destruct (deepMerge_at_key _ _ _ _ _ _ _ _ _ _ Hd Hpure Ht Hs Hnd
              (lookup_prop_Some_key _ _ _ Hk) Hm)
    as (-> & ha & hb & rpa & Hpa & Hra & Heqa & Hkb & _ & Hafter).
  exists h', (VRef (length h)), ha. repeat split; try done.
  rewrite mergeKey_unfiltered in Hkb by done. cbv zeta in Hkb.
  rewrite (ownProps_get ha source sp) in Hkb by by eapply ownProps_prefix.
  assert (Hgv : get_prop sp k = v) by (unfold get_prop; by rewrite Hk).
  rewrite Hgv, Hcm in Hkb.
  destruct (is_undefined v) eqn:Hund; [by destruct v|].
  assert (Htv : get ha (VRef (length h)) k = get_prop tp k).
  { simpl. rewrite Hra. unfold get_prop. by rewrite Heqa. }
  rewrite Htv in Hkb.
  pose proof (Hpure k m Hcm ha (get_prop tp k) v) as Hpm.
  destruct (m ha (get_prop tp k) v) as [h1 v1] eqn:Hmv. simpl in Hpm.
  injection Hkb as <-.
  destruct (Hafter (set_prop rpa k v1)) as (rp' & Hr' & Heq').
  { apply assign_lookup_eq. rewrite (prefix_lookup_lt ha h1); [done|done|].
    by eapply lookup_lt_Some. }
  simpl. rewrite Hr'. unfold get_prop. by rewrite Heq', lookup_set_prop_eq.
Qed.

Lemma deepMerge_custom_merger_witness :
  let sum : merger := fun h t s =>
    match t, s with
    | VNum a, VNum b => (h, VNum (a + b))
    | _, _ => (h, s)
    end in
  let o := {| strategy := None; arrayMergeStrategy := None;
              customMergers :=
                Some (fun k => if decide (k = "count") then Some sum else None);
              skipKeys := None; onlyKeys := None |} in
  let h := [Obj [("count", VNum 5)]; Obj [("count", VNum 3)]] in
  exists h' res ha,
    deepMerge 1 h (VRef 0) (VRef 1) o = Returns (h', res) /\
    h `prefix_of` ha /\
    get h' res "count" = (sum ha (get_prop [("count", VNum 5)] "count") (VNum 3)).2.
Proof.
  cbv zeta.
  apply (deepMerge_custom_merger 1 _ (VRef 0) (VRef 1) _
           [("count", VNum 5)] [("count", VNum 3)] "count" (VNum 3)).
  - reflexivity.
  - intros k m. unfold customMergers_of. simpl.
    destruct (decide (k = "count")); [|discriminate].
    intros [= <-] h t s. by destruct t, s.
  - reflexivity.
  - reflexivity.
  - apply NoDup_singleton.
  - reflexivity.
  - reflexivity.
  - discriminate.
  - reflexivity.
  - reflexivity.
Defined.

End MergeMore.

(* ================================================================= *)
(** ** The merge variants: [deepMergeHelper], [conditionalMerge],
       [applyTemplate] *)

Module MergeVariantFacts.
Import Merge Frame MergeVariants.
Import JSFacts MergeFacts GrowthFacts MergeTotal MergeKeyFacts MergeProperties.
Import MergeFilters MergeMore.

Lemma includes_nil k : includes [] k = false.
Proof. unfold includes. apply bool_decide_eq_false. apply not_elem_of_nil. Qed.

(** With the default options the loop body of [deepMerge] is that of
    [deepMergeHelper], for a key that is no inherited name. *)
Lemma helperKey_mergeKey self self' source r h k :
  inherited k = false ->
  (forall t, self h t (get h source k) = self' h t (get h source k)) ->
  helperKey self source r h k = mergeKey self' defaultOptions source r h k.
Proof.
  intros Hk Hself. unfold helperKey, mergeKey.
  change (skipKeys_of defaultOptions) with (@nil string).
  rewrite includes_nil. cbn [onlyKeys defaultOptions]. cbv zeta.
  change (customMergers_of defaultOptions k) with (@None merger).
  change (arrayMergeStrategy_of defaultOptions) with arr_replace.
  rewrite Hk.
  destruct (is_undefined (get h source k)); [done|].
  destruct (isArray h (get h source k)) eqn:Hsa.
  - assert (isPlainObject h (get h source k) = false) as ->.
    { unfold isPlainObject. by rewrite Hsa, andb_false_r. }
    cbn [andb]. rewrite put_plain by done.
    by destruct (isArray h (get h (VRef r) k)).
  - destruct (isPlainObject h (get h source k) &&
              isPlainObject h (get h (VRef r) k)); [|by rewrite put_plain].
    rewrite Hself.
    destruct (self' h _ _) as [[h1 v]|e]; simpl; [|done].
    by rewrite put_plain.
Qed.

(** [deepMergeHelper] is [deepMerge] with the default options on a
    source with plain keys. *)
Lemma deepMergeHelper_deepMerge fuel : forall n h target source,
  plainKeys n h source = true ->
  deepMergeHelper fuel h target source =
  deepMerge fuel h target source defaultOptions.
Proof.
  assert (Hpure : pureMergers defaultOptions) by (intros k m H; discriminate H).
  induction fuel as [|fuel IH]; intros n h target source Hpl; [done|].
  rewrite deepMerge_deep by done. simpl.
  destruct (ownProps h target) as [tp|e]; [|done]. simpl.
  destruct (ownProps (h ++ [Obj tp]) source) as [sp|e] eqn:Hs; [|done]. simpl.
  assert (Hp1 : h `prefix_of` h ++ [Obj tp]) by by apply prefix_app_r.
  apply (ownProps_shrink _ _ _ _ Hp1 (plainKeys_allocated _ _ _ Hpl)) in Hs.
  rewrite (forIn_ext_inv (fun h1 => h `prefix_of` h1) _
             (mergeKey (fun h' t s => deepMerge fuel h' t s defaultOptions)
                defaultOptions source (length h))); [done|done| |].
  - intros h1 key Hp Hkey. apply helperKey_mergeKey.
    + by eapply plainKeys_key.
    + intros t. apply (IH (pred n)).
      rewrite (ownProps_get _ _ _ _ (ownProps_prefix _ _ _ _ Hp Hs)).
      eapply plainKeys_prefix; [done|]. by eapply plainKeys_sub.
  - intros h1 key h2 Hp _ Hk.
    eapply mergeKey_prefix; [exact Hpure| |done|done|done].
    by apply deepMerge_self_prefix.
Qed.

(** X5. [deepMergeHelper], the merge that [mergeConfigs] folds over its
    arguments, computes exactly what [deepMerge] computes with the
    default options when no key of [source], at any depth, is a name
    inherited from [Object.prototype]: the same result in the same
    store, failures included.  (On an inherited name the two differ:
    [deepMerge] looks the key up in its empty [customMergers].) *)
Theorem deepMergeHelper_is_deepMerge fuel n h target source :
  plainKeys n h source = true ->
  deepMergeHelper fuel h target source =
  deepMerge fuel h target source defaultOptions.
Proof. apply deepMergeHelper_deepMerge. Qed.

Lemma deepMergeHelper_is_deepMerge_witness :
  let h := [Obj [("host", VStr "a"); ("port", VNum 1)];
            Obj [("db", VRef 0)];
            Obj [("host", VStr "b")];
            Obj [("db", VRef 2); ("debug", VBool true)]] in
  deepMergeHelper 2 h (VRef 1) (VRef 3) =
  deepMerge 2 h (VRef 1) (VRef 3) defaultOptions.
Proof.
  cbv zeta.
  apply (deepMergeHelper_is_deepMerge 2 2 _ (VRef 1) (VRef 3)).
  reflexivity.
Defined.

Lemma mergeKey_withStrategy self self' o s source r h k :
  (forall h t s, self h t s = self' h t s) ->
  mergeKey self o source r h k = mergeKey self' (withStrategy o s) source r h k.
Proof.
  intros Hself. unfold mergeKey.
  change (skipKeys_of (withStrategy o s)) with (skipKeys_of o).
  change (onlyKeys (withStrategy o s)) with (onlyKeys o).
  change (customMergers_of (withStrategy o s) k) with (customMergers_of o k).
  change (arrayMergeStrategy_of (withStrategy o s)) with (arrayMergeStrategy_of o).
  destruct (includes _ k); [done|].
  destruct (match onlyKeys o with Some _ => _ | None => _ end); [done|].
  cbv zeta. destruct (is_undefined _); [done|].
  destruct (customMergers_of o k); [done|].
  destruct (inherited k); [done|].
  destruct (isArray h (get h source k)); [done|].
  destruct (_ && _); [|done]. by rewrite Hself.
Qed.

(** X21. The strategies [append] and [prepend] have no behaviour of
    their own: with either of them [deepMerge] computes exactly what
    it computes with the strategy [deep], the other options being the
    same.  Sequences are appended only under the array policy
    [concat]. *)
Theorem deepMerge_append_prepend_are_deep fuel : forall h target source o,
  strategy_of o = append \/ strategy_of o = prepend ->
  deepMerge fuel h target source o =
  deepMerge fuel h target source (withStrategy o deep).
Proof.
  induction fuel as [|fuel IH]; intros h target source o Hs; [done|].
  rewrite !deepMerge_deep by (by destruct Hs as [-> | ->] || done).
  destruct (ownProps h target) as [tp|e]; [|done]. simpl.
  destruct (ownProps (h ++ [Obj tp]) source) as [sp|e]; [|done]. simpl.
  rewrite (forIn_ext _
             (mergeKey (fun h' t s => deepMerge fuel h' t s (withStrategy o deep))
                (withStrategy o deep) source (length h))); [done|].
  intros h1 k. apply mergeKey_withStrategy. intros h2 t s. by apply IH.
Qed.

Lemma deepMerge_append_prepend_are_deep_witness :
  let h := [Arr [VNum 1]; Obj [("tags", VRef 0)];
            Arr [VNum 2]; Obj [("tags", VRef 2)]] in
  let o := {| strategy := Some append; arrayMergeStrategy := None;
              customMergers := None; skipKeys := None; onlyKeys := None |} in
  deepMerge 1 h (VRef 1) (VRef 3) o =
  deepMerge 1 h (VRef 1) (VRef 3) (withStrategy o deep).
Proof.
  cbv zeta.
  apply (deepMerge_append_prepend_are_deep 1 _ (VRef 1) (VRef 3)).
  by left.
Defined.

(** *** The filter loop of [conditionalMerge] *)

Lemma assign_alloc h ps k v :
  assign (h ++ [Obj ps]) (length h) k v = h ++ [Obj (set_prop ps k v)].
Proof.
  unfold assign. rewrite lookup_alloc.
  rewrite insert_app_r_alt by lia. by rewrite Nat.sub_diag.
Qed.

Lemma filterKey_alloc f source sp h fp key :
  ownProps h source = Returns sp ->
  inherited key = false ->
  filterKey f source (length h) (h ++ [Obj fp]) key =
  Returns (h ++ [Obj (if f (h ++ [Obj fp]) key (get_prop sp key)
                      then set_prop fp key (get_prop sp key) else fp)]).
Proof.
  intros Hs Hk. unfold filterKey.
  rewrite (ownProps_get (h ++ [Obj fp]) source sp)
    by (eapply ownProps_prefix; [by apply prefix_app_r|done]).
  destruct (f (h ++ [Obj fp]) key (get_prop sp key)); [|done].
  by rewrite put_plain, assign_alloc.
Qed.

Lemma forIn_filterKey f source sp h keys : forall fp,
  ownProps h source = Returns sp ->
  Forall (fun key => inherited key = false) keys ->
  forIn (filterKey f source (length h)) keys (h ++ [Obj fp]) =
  Returns (h ++ [Obj (filtered_props f h sp keys fp)]).
Proof.
  induction keys as [|key keys IH]; intros fp Hs Hkeys; [done|].
  apply Forall_cons in Hkeys as [Hkey Hkeys].
  cbn [forIn]. rewrite (filterKey_alloc f source sp h fp key Hs Hkey).
  change (forIn (filterKey f source (length h)) keys
            (h ++ [Obj (if f (h ++ [Obj fp]) key (get_prop sp key)
                        then set_prop fp key (get_prop sp key) else fp)]) =
          Returns (h ++ [Obj (filtered_props f h sp (key :: keys) fp)])).
  by rewrite IH.
Qed.

Lemma filtered_props_rejected f h sp k keys : forall fp,
  (forall fp, f (h ++ [Obj fp]) k (get_prop sp k) = false) ->
  lookup_prop k (filtered_props f h sp keys fp) = lookup_prop k fp.
Proof.
  induction keys as [|key keys IH]; intros fp Hrej; simpl; [done|].
  rewrite IH by done.
  destruct (f (h ++ [Obj fp]) key (get_prop sp key)) eqn:Hf; [|done].
  rewrite lookup_set_prop_ne; [done|]. intros ->. by rewrite Hrej in Hf.
Qed.

Lemma filtered_props_accepted f h sp k keys : forall fp,
  (forall fp, f (h ++ [Obj fp]) k (get_prop sp k) = true) ->
  k ∈ keys \/ lookup_prop k fp = Some (get_prop sp k) ->
  lookup_prop k (filtered_props f h sp keys fp) = Some (get_prop sp k).
Proof.
  induction keys as [|key keys IH]; intros fp Hacc Hk; simpl.
  - destruct Hk as [Hk|Hk]; [|done]. by apply elem_of_nil in Hk.
  - apply IH; [done|].
    destruct (decide (key = k)) as [->|Hne].
    + right. by rewrite Hacc, lookup_set_prop_eq.
    + destruct Hk as [Hk|Hk].
      * left. apply elem_of_cons in Hk as [Heq|Hk]; [congruence|done].
      * right. destruct (f _ key _); [|done].
        by rewrite lookup_set_prop_ne.
Qed.

Lemma set_prop_Forall (P : string * value -> Prop) ps k v :
  Forall P ps -> P (k, v) -> Forall P (set_prop ps k v).
Proof.
  intros Hps Hkv. induction Hps as [|[k' v'] ps Hx Hps IH]; simpl.
  - by constructor.
  - destruct (decide (k' = k)) as [->|Hne]; by constructor.
Qed.

Lemma set_prop_keys ps k v :
  map fst (set_prop ps k v) =
    if bool_decide (k ∈ map fst ps) then map fst ps else map fst ps ++ [k].
Proof.
  induction ps as [|[k' v'] ps IH]; simpl; [done|].
  destruct (decide (k' = k)) as [->|Hne]; simpl.
  - rewrite bool_decide_true; [done|left].
  - rewrite IH. destruct (decide (k ∈ map fst ps)) as [Hin|Hnin].
    + rewrite !bool_decide_true; [done|by right|done].
    + rewrite !bool_decide_false; [done| |done].
      intros Hin. apply elem_of_cons in Hin as [Heq|Hin]; congruence.
Qed.

Lemma set_prop_NoDup ps k v :
  NoDup (map fst ps) -> NoDup (map fst (set_prop ps k v)).
Proof.
  intros Hnd. rewrite set_prop_keys.
  destruct (decide (k ∈ map fst ps)) as [Hin|Hnin].
  - by rewrite bool_decide_true.
  - rewrite bool_decide_false by done.
    apply NoDup_app. repeat split; [done| |apply NoDup_singleton].
    intros x Hx Hx'. apply list_elem_of_singleton in Hx'. congruence.
Qed.

Lemma filtered_props_invariant (P : props -> Prop) f h sp keys : forall fp,
  (forall fp k, P fp -> P (set_prop fp k (get_prop sp k))) ->
  P fp -> P (filtered_props f h sp keys fp).
Proof.
  induction keys as [|key keys IH]; intros fp Hstep Hfp; simpl; [done|].
  apply IH; [done|]. destruct (f _ key _); [by apply Hstep|done].
Qed.

(** What [conditionalMerge] does with a predicate: the merge of
    [target] with the filtered copy of [source]. *)
Lemma conditionalMerge_fn fuel n h target source f o sp :
  ownProps h source = Returns sp ->
  plainKeys n h source = true ->
  conditionalMerge fuel h target source (CondFn f) o =
  deepMerge fuel (h ++ [Obj (filtered_props f h sp (map fst sp) [])])
    target (VRef (length h)) (options_or_default o).
Proof.
  intros Hs Hpl. unfold conditionalMerge, alloc.
  rewrite (ownProps_prefix h (h ++ [Obj []]) source sp)
    by (by apply prefix_app_r || done). simpl.
  rewrite (forIn_filterKey f source sp h (map fst sp) [] Hs); [done|].
  apply Forall_forall. intros key Hkey. by eapply plainKeys_key.
Qed.

(** The filtered copy of a source with plain keys has plain keys: it
    holds some of the keys of [source] with the values [source] gives
    them. *)
Lemma filtered_source_plain fuel f h source sp :
  0 < fuel ->
  plainKeys fuel h source = true ->
  ownProps h source = Returns sp ->
  plainKeys fuel (h ++ [Obj (filtered_props f h sp (map fst sp) [])])
    (VRef (length h)) = true.
Proof.
  intros Hpos Hpl Hs. destruct fuel as [|fuel]; [lia|].
  cbn [plainKeys]. rewrite lookup_alloc.
  apply forallb_forall. intros [k v] Hin.
  assert (Hall : Forall (fun kv : string * value =>
                           kv.1 ∈ map fst sp /\ kv.2 = get_prop sp kv.1)
            (filtered_props f h sp (map fst sp) [])).
  { assert (Hgen : forall keys fp,
      keys ⊆ map fst sp ->
      Forall (fun kv : string * value =>
                kv.1 ∈ map fst sp /\ kv.2 = get_prop sp kv.1) fp ->
      Forall (fun kv : string * value =>
                kv.1 ∈ map fst sp /\ kv.2 = get_prop sp kv.1)
        (filtered_props f h sp keys fp)).
    { induction keys as [|key keys IHk]; intros fp Hsub Hfp; simpl; [done|].
      apply IHk; [intros x Hx; apply Hsub; by right|].
      destruct (f _ key _); [|done].
      apply set_prop_Forall; [done|]. split; [|done]. apply Hsub. left. }
    apply Hgen; [done|constructor]. }
  rewrite Forall_forall in Hall. apply list_elem_of_In in Hin.
  destruct (Hall _ Hin) as [Hkey Hval]. simpl in Hkey, Hval. subst v. simpl.
  rewrite (plainKeys_key _ _ _ _ _ Hpl Hs Hkey). simpl.
  eapply plainKeys_prefix; [by apply prefix_app_r|].
  by eapply plainKeys_get.
Qed.

(** X6. [conditionalMerge] with a predicate, under the deep strategy,
    for a source none of whose keys is a name inherited from
    [Object.prototype]: a key of [source] that the predicate rejects is
    bound in the merged document exactly as in [target], and [source]
    is left as it was. *)
Theorem conditionalMerge_rejected_key fuel h target source f o tp sp k :
  deepLike (strategy_of (options_or_default o)) = true ->
  pureMergers (options_or_default o) ->
  ownProps h target = Returns tp ->
  ownProps h source = Returns sp ->
  0 < fuel ->
  plainKeys fuel h source = true ->
  (forall fp, f (h ++ [Obj fp]) k (get_prop sp k) = false) ->
  exists h' r rp,
    conditionalMerge fuel h target source (CondFn f) o = Returns (h', VRef r) /\
    h `prefix_of` h' /\
    h' !! r = Some (Obj rp) /\
    lookup_prop k rp = lookup_prop k tp.
Proof.
  intros Hd Hpure Ht Hs Hpos Hpl Hrej.
  rewrite (conditionalMerge_fn _ _ _ _ _ _ _ sp Hs Hpl).
  set (fp := filtered_props f h sp (map fst sp) []).
  assert (Hp : h `prefix_of` h ++ [Obj fp]) by by apply prefix_app_r.
  destruct (deepMerge_undefined_keeps fuel (h ++ [Obj fp]) target
              (VRef (length h)) (options_or_default o) tp fp k)
    as (h' & r & rp & Hm & Hr & Heq); try done.
  - by eapply ownProps_prefix.
  - simpl. by rewrite lookup_alloc.
  - by apply (filtered_source_plain fuel f h source sp).
  - unfold get_prop, fp. by rewrite filtered_props_rejected.
  - exists h', r, rp. repeat split; try done.
    etrans; [exact Hp|]. by eapply deepMerge_prefix.
Qed.

Lemma conditionalMerge_rejected_key_witness :
  let h := [Obj [("port", VNum 80); ("debug", VBool false)];
            Obj [("port", VNum 8080); ("debug", VBool true)]] in
  let f : heap -> string -> value -> bool :=
    fun _ key _ => bool_decide (key = "port") in
  exists h' r rp,
    conditionalMerge 1 h (VRef 0) (VRef 1) (CondFn f) None
      = Returns (h', VRef r) /\
    h `prefix_of` h' /\
    h' !! r = Some (Obj rp) /\
    lookup_prop "debug" rp =
      lookup_prop "debug" [("port", VNum 80); ("debug", VBool false)].
Proof.
  cbv zeta.
  apply (conditionalMerge_rejected_key 1 _ (VRef 0) (VRef 1) _ None
           [("port", VNum 80); ("debug", VBool false)]
           [("port", VNum 8080); ("debug", VBool true)] "debug").
  - reflexivity.
  - intros k m H. discriminate H.
  - reflexivity.
  - reflexivity.
  - lia.
  - reflexivity.
  - intros fp. reflexivity.
Defined.

(** [conditionalMerge] with a predicate, under the deep strategy, for a
    source with plain keys: a key that the predicate accepts, passes
    the filters and has no custom merger, and whose value in [source]
    is a scalar, has that value in the merged document. *)
Lemma conditionalMerge_accepted_key fuel h target source f o tp sp k v :
  strategy_of (options_or_default o) = deep ->
  pureMergers (options_or_default o) ->
  ownProps h target = Returns tp ->
  ownProps h source = Returns sp ->
  plainKeys fuel h source = true ->
  lookup_prop k sp = Some v ->
  is_scalar v = true ->
  (forall fp, f (h ++ [Obj fp]) k v = true) ->
  customMergers_of (options_or_default o) k = None ->
  unfiltered (options_or_default o) k = true ->
  exists h' res,
    conditionalMerge fuel h target source (CondFn f) o = Returns (h', res) /\
    get h' res k = v.
Proof.
  intros Hd Hpure Ht Hs Hpl Hk Hsc Hacc Hcm Hu.
  pose proof (plainKeys_shallower _ _ _ Hpl) as Hsh.
  pose proof (shallower_props_pos _ _ _ _ _ _ Hsh Hs Hk) as Hpos.
  rewrite (conditionalMerge_fn _ _ _ _ _ _ _ sp Hs Hpl).
  set (fp := filtered_props f h sp (map fst sp) []).
  assert (Hp : h `prefix_of` h ++ [Obj fp]) by by apply prefix_app_r.
  assert (Hgv : get_prop sp k = v) by (unfold get_prop; by rewrite Hk).
  apply (deepMerge_scalar fuel (h ++ [Obj fp]) target (VRef (length h))
           (options_or_default o) tp fp k v); try done.
  - by eapply ownProps_prefix.
  - simpl. by rewrite lookup_alloc.
  - unfold fp. apply (filtered_props_invariant (fun ps => NoDup (map fst ps)));
      [|constructor].
    intros ps k0 Hps. by apply set_prop_NoDup.
  - by apply (filtered_source_plain fuel f h source sp).
  - unfold fp. rewrite <- Hgv. apply filtered_props_accepted.
    + intros fp0. rewrite Hgv. apply Hacc.
    + left. by eapply lookup_prop_Some_key.
Qed.

(** X8. [applyTemplate], for a template none of whose keys is a name
    inherited from [Object.prototype]: when the template's condition
    holds for the configuration, every scalar value of the template is
    the value of its key in the result, also for a key the configuration already
    has (the template overrides, it does not only fill gaps), and a key
    the template does not have is bound as in the configuration, which
    is itself left as it was. *)
Theorem applyTemplate_overrides fuel h config t cp tpl :
  condition t h config = true ->
  ownProps h config = Returns cp ->
  ownProps h (template t) = Returns tpl ->
  NoDup (map fst tpl) ->
  0 < fuel ->
  plainKeys fuel h (template t) = true ->
  exists h' r rp,
    applyTemplate fuel h config t = Returns (h', VRef r) /\
    h `prefix_of` h' /\
    h' !! r = Some (Obj rp) /\
    (forall k v, lookup_prop k tpl = Some v -> is_scalar v = true ->
       lookup_prop k rp = Some v) /\
    (forall k, lookup_prop k tpl = None -> lookup_prop k rp = lookup_prop k cp).
Proof.
  intros Hc Hcp Htpl Hnd Hpos Hsh.
  unfold applyTemplate. rewrite Hc. simpl.
  assert (Hpure : pureMergers defaultOptions).
  { intros k m H. discriminate H. }
  destruct (deepMerge_returns defaultOptions fuel h config (template t) cp tpl)
    as (h' & res & Hm); try done.
  assert (Hres : res = VRef (length h) /\ exists rp, h' !! length h = Some (Obj rp)).
  { destruct fuel as [|fuel]; [lia|].
    pose proof Hm as Hm'. rewrite deepMerge_deep in Hm' by done.
    rewrite Hcp in Hm'. simpl in Hm'.
    rewrite (ownProps_prefix h (h ++ [Obj cp]) _ tpl) in Hm'
      by (by apply prefix_app_r || done). simpl in Hm'.
    destruct (forIn _ _ _) as [h2|e] eqn:Hloop; simpl in Hm'; [|done].
    injection Hm' as <- <-. split; [done|].
    eapply forIn_result_obj; [exact Hpure| |apply lookup_alloc|exact Hloop].
    by apply deepMerge_self_prefix. }
  destruct Hres as (-> & rp & Hr).
  exists h', (length h), rp. repeat split; try done.
  - by eapply deepMerge_prefix.
  - intros k v Hk Hsc.
    destruct (deepMerge_scalar fuel h config (template t) defaultOptions
                cp tpl k v) as (h2 & res2 & Hm2 & Hget); try done.
    rewrite Hm in Hm2. injection Hm2 as <- <-.
    simpl in Hget. rewrite Hr in Hget. unfold get_prop in Hget.
    destruct (lookup_prop k rp) as [x|]; simpl in Hget; [by subst|].
    subst v. done.
  - intros k Hk.
    destruct (deepMerge_undefined_keeps fuel h config (template t)
                defaultOptions cp tpl k) as (h2 & r2 & rp2 & Hm2 & Hr2 & Heq);
      try done.
    { unfold get_prop. by rewrite Hk. }
    rewrite Hm in Hm2. injection Hm2 as <- <-. congruence.
Qed.

Lemma applyTemplate_overrides_witness :
  let h := [Obj [("env", VStr "production"); ("debug", VBool true)];
            Obj [("debug", VBool false); ("minify", VBool true)]] in
  let t := {| name := "production"; description := None;
              condition := fun h c => bool_decide (get h c "env" = VStr "production");
              template := VRef 1 |} in
  exists h' r rp,
    applyTemplate 1 h (VRef 0) t = Returns (h', VRef r) /\
    h `prefix_of` h' /\
    h' !! r = Some (Obj rp) /\
    (forall k v,
       lookup_prop k [("debug", VBool false); ("minify", VBool true)] = Some v ->
       is_scalar v = true -> lookup_prop k rp = Some v) /\
    (forall k,
       lookup_prop k [("debug", VBool false); ("minify", VBool true)] = None ->
       lookup_prop k rp =
         lookup_prop k [("env", VStr "production"); ("debug", VBool true)]).
Proof.
  cbv zeta.
  apply (applyTemplate_overrides 1 _ (VRef 0) _
           [("env", VStr "production"); ("debug", VBool true)]
           [("debug", VBool false); ("minify", VBool true)]).
  - reflexivity.
  - reflexivity.
  - reflexivity.
  - apply NoDup_cons. split; [|apply NoDup_singleton].
    intros Hin. apply list_elem_of_singleton in Hin. discriminate Hin.
  - lia.
  - reflexivity.
Defined.

End MergeVariantFacts.

(* ================================================================= *)
(** ** Further properties of [validateConfig] *)

Module ValidateMore.
Import Validate SchemaFrame SchemaMore JSFacts GrowthFacts ValidateFacts.
Import ValidateProperties.

Lemma app_cons_neq {A} (l : list A) x : l ++ [x] <> l.
Proof.
  intros H. apply (f_equal length) in H. rewrite length_app in H.
  simpl in H. lia.
Qed.

(** A call of [validateValue] that pushes no error has passed every
    check of the rule. *)
Lemma validateValue_accepts r h errs v key path h' out :
  validateValue r h errs v key path = Returns (h', errs, out) ->
  (required r = true -> v <> VUndefined /\ v <> VNull) /\
  (v <> VUndefined ->
   type_ok r (transformed r h v).1 (transformed r h v).2 /\
   validator_ok r (transformed r h v).1 (transformed r h v).2).
Proof.
  destruct r as [ty req def vd tr ch].
  unfold type_ok, validator_ok, transformed. simpl.
  destruct req; simpl.
  - destruct v; simpl; try (intros [= _ H _]; by apply app_cons_neq in H).
    all: destruct (match tr with Some f => f h _ | None => _ end) as [h1 v1];
      simpl.
    all: destruct ty as [ty|];
      [destruct (bool_decide (actualType h1 v1 ≠ type_name ty)) eqn:Hty;
       [intros [= _ H _]; by apply app_cons_neq in H|
        apply bool_decide_eq_false in Hty; apply dec_stable in Hty]|].
    all: destruct vd as [check|];
      [destruct (check h1 v1) as [| |[|]| | |] eqn:Hck;
       try (intros [= _ H _]; by apply app_cons_neq in H)|].
    all: intros _; repeat split; done.
  - destruct v; simpl.
    1: { destruct (negb (is_undefined def)); intros _; by split. }
    all: destruct (match tr with Some f => f h _ | None => _ end) as [h1 v1];
      simpl.
    all: destruct ty as [ty|];
      [destruct (bool_decide (actualType h1 v1 ≠ type_name ty)) eqn:Hty;
       [intros [= _ H _]; by apply app_cons_neq in H|
        apply bool_decide_eq_false in Hty; apply dec_stable in Hty]|].
    all: destruct vd as [check|];
      [destruct (check h1 v1) as [| |[|]| | |] eqn:Hck;
       try (intros [= _ H _]; by apply app_cons_neq in H)|].
    all: intros _; repeat split; done.
Qed.

(** Every entry of the schema gives one call of [validateValue], on the
    value [config] has at the key, in a store that extends the initial
    one, and the errors of the call are kept. *)
Lemma validateEntries_calls s k r : forall h0 h errs config cps vl h' errs',
  pureSchema s ->
  (k, r) ∈ schema_entries s ->
  ownProps h0 config = Returns cps ->
  h0 `prefix_of` h -> length h0 <= vl ->
  validateEntries s h errs config vl = Returns (h', errs') ->
  exists ha ea hb eb out,
    h0 `prefix_of` ha /\
    errs `prefix_of` ea /\
    validateValue r ha ea (get_prop cps k) k k = Returns (hb, eb, out) /\
    eb `prefix_of` errs'.
Proof.
  induction s as [|key r' rest IH];
    intros h0 h errs config cps vl h' errs' Hs Hin Ho Hp Hvl; simpl.
  - by apply elem_of_nil in Hin.
  - destruct Hs as [Hr Hrest].
    change ((k, r) ∈ (key, r') :: schema_entries rest) in Hin.
    destruct (member_ownProps _ _ _ _ key Ho Hp) as [-> | ->]; simpl; [|done].
    destruct (validateValue r' h errs _ key key) as [[[h1 errs1] out]|e] eqn:Hv;
      simpl; [|done].
    intros Hrec.
    assert (Hp1 : h `prefix_of` h1) by by eapply validateValue_prefix.
    apply elem_of_cons in Hin as [[= -> ->]|Hin].
    + exists h, errs, h1, errs1, out. repeat split; try done.
      by eapply validateEntries_errors.
    + destruct (IH h0 (assign h1 vl key out) errs1 config cps vl h' errs')
        as (ha & ea & hb & eb & out' & Hpa & Hea & Hcall & Heb); try done.
      { apply assign_prefix; [|done]. by etrans. }
      exists ha, ea, hb, eb, out'. repeat split; try done.
      etrans; [|exact Hea]. by eapply validateValue_errors.
Qed.

(** X9. A configuration that [validateConfig] reports as valid
    conforms to every entry of the schema, for a schema none of whose
    keys is a name inherited from [Object.prototype] (so that
    [config[key]] is a property of the configuration itself or
    [undefined]): a required key has a value that is neither absent nor
    null, and a value that is present has, after the rule's transform,
    the declared type and is accepted by the rule's validator. *)
Theorem validateConfig_valid_conforms h config cps schema h' res k r :
  pureSchema schema ->
  plainSchema schema = true ->
  ownProps h config = Returns cps ->
  (k, r) ∈ schema_entries schema ->
  validateConfig h config schema = Returns (h', res) ->
  isValid res = true ->
  (required r = true ->
   get_prop cps k <> VUndefined /\ get_prop cps k <> VNull) /\
  (get_prop cps k <> VUndefined ->
   exists ha, h `prefix_of` ha /\
     type_ok r (transformed r ha (get_prop cps k)).1
               (transformed r ha (get_prop cps k)).2 /\
     validator_ok r (transformed r ha (get_prop cps k)).1
                    (transformed r ha (get_prop cps k)).2).
Proof.
  intros Hs _ Ho Hin Hv Hvalid.
  unfold validateConfig, validateConfig_body in Hv. rewrite Ho in Hv.
  simpl in Hv.
  destruct (validateEntries schema _ _ _ _) as [[h2 errs]|e] eqn:He;
    simpl in Hv; [|done].
  injection Hv as <- <-. simpl in Hvalid.
  apply bool_decide_eq_true in Hvalid. apply nil_length_inv in Hvalid as ->.
  destruct (validateEntries_calls schema k r h (h ++ [Obj cps]) [] config cps
              (length h) h2 [] Hs Hin Ho)
    as (ha & ea & hb & eb & out & Hpa & _ & Hcall & Heb);
    [by apply prefix_app_r|done|done|].
  apply prefix_nil_inv in Heb as ->.
  pose proof (validateValue_errors _ _ _ _ _ _ _ _ _ Hcall) as Hea.
  apply prefix_nil_inv in Hea as ->.
  destruct (validateValue_accepts _ _ _ _ _ _ _ _ Hcall) as [Hreq Hchecks].
  split; [done|]. intros Hdef. exists ha. split; [done|]. by apply Hchecks.
Qed.

Lemma validateConfig_valid_conforms_witness :
  let h := [Obj [("port", VNum 8080); ("host", VStr "localhost")]] in
  let r := mkRule (Some TNumber) true VUndefined None None None in
  let schema :=
    SCons "host" (mkRule (Some TString) false VUndefined None None None)
      (SCons "port" r SNil) in
  let cps := [("port", VNum 8080); ("host", VStr "localhost")] in
  (required r = true ->
   get_prop cps "port" <> VUndefined /\ get_prop cps "port" <> VNull) /\
  (get_prop cps "port" <> VUndefined ->
   exists ha, h `prefix_of` ha /\
     type_ok r (transformed r ha (get_prop cps "port")).1
               (transformed r ha (get_prop cps "port")).2 /\
     validator_ok r (transformed r ha (get_prop cps "port")).1
                    (transformed r ha (get_prop cps "port")).2).
Proof.
  cbv zeta.
  eapply (validateConfig_valid_conforms
            [Obj [("port", VNum 8080); ("host", VStr "localhost")]] (VRef 0)
            [("port", VNum 8080); ("host", VStr "localhost")]
            (SCons "host" (mkRule (Some TString) false VUndefined None None None)
               (SCons "port" (mkRule (Some TNumber) true VUndefined None None None)
                  SNil))
            _ _ "port").
  - simpl. tauto.
  - reflexivity.
  - reflexivity.
  - right. left.
  - reflexivity.
  - reflexivity.
Defined.

(** X10. A value that is present and has the declared type but is
    rejected by the rule's validator (anything other than [true] is
    returned) gives one error, the string the validator returned or
    else [<path> validation failed]; the outcome is the rule's default
    and the children of the rule are not validated. *)
Theorem validateValue_validator_rejects r h errs v key path check h1 v1 :
  is_undefined v = false ->
  required r && is_null v = false ->
  transformed r h v = (h1, v1) ->
  type_ok r h1 v1 ->
  validator r = Some check ->
  check h1 v1 <> VBool true ->
  validateValue r h errs v key path =
    Returns (h1,
             errs ++ [match check h1 v1 with
                      | VStr msg => msg
                      | _ => path +:+ " validation failed"
                      end],
             default r).
Proof.
  destruct r as [ty req def vd tr ch].
  unfold transformed, type_ok. simpl.
  intros Hu Hreq Htr Hty -> Hck.
  destruct v; try done; simpl in *.
  all: rewrite Hreq; simpl; rewrite Htr.
  all: destruct ty as [ty|];
    [rewrite bool_decide_false by (intros Hne; by apply Hne)|].
  all: by destruct (check h1 v1) as [| |[|]| | |].
Qed.

Lemma validateValue_validator_rejects_witness :
  let check : heap -> value -> value := fun _ v =>
    match v with
    | VNum n => if (0 <? n)%Z then VBool true else VStr "Port must be positive"
    | _ => VBool false
    end in
  let r := mkRule (Some TNumber) true (VNum 80) (Some check) None None in
  validateValue r [] [] (VNum (-1)) "port" "port" =
    Returns ([], [] ++ [match check [] (VNum (-1)) with
                        | VStr msg => msg
                        | _ => "port" +:+ " validation failed"
                        end], default r).
Proof.
  cbv zeta.
  apply (validateValue_validator_rejects _ [] [] (VNum (-1)) "port" "port" _
           [] (VNum (-1))).
  - reflexivity.
  - reflexivity.
  - reflexivity.
  - reflexivity.
  - reflexivity.
  - discriminate.
Defined.

Lemma validateValue_null_child r h errs key path :
  unguarded r ->
  validateValue r h errs VNull key path = Fails TypeError.
Proof.
  destruct r as [ty req def vd tr ch].
  intros (Hreq & Htr & Hvd & Hty & k' & r' & rest' & Hch). simpl in *.
  subst req tr vd ch. simpl.
  by destruct Hty as [->| ->].
Qed.

Lemma validateEntries_null_child s k r :
  forall h0 h errs config cps vl,
  pureSchema s ->
  (k, r) ∈ schema_entries s ->
  unguarded r ->
  ownProps h0 config = Returns cps ->
  get_prop cps k = VNull ->
  h0 `prefix_of` h -> length h0 <= vl ->
  validateEntries s h errs config vl = Fails TypeError.
Proof.
  induction s as [|key r' rest IH];
    intros h0 h errs config cps vl Hs Hin Hun Ho Hnull Hp Hvl.
  - by apply elem_of_nil in Hin.
  - destruct Hs as [Hr Hrest].
    change ((k, r) ∈ (key, r') :: schema_entries rest) in Hin.
    cbn [validateEntries].
    destruct (member_ownProps _ _ _ _ key Ho Hp) as [-> | ->]; [|done].
    cbn [mbind outcome_bind].
    apply elem_of_cons in Hin as [[= -> ->]|Hin].
    + rewrite Hnull. by rewrite validateValue_null_child.
    + destruct (validateValue r' h errs _ key key) as [[[h1 errs1] out]|e] eqn:Hv.
      * apply (IH h0 _ _ _ cps); try done.
        apply assign_prefix; [|done]. etrans; [done|].
        by eapply validateValue_prefix.
      * change (@Fails (heap * list string) e = Fails TypeError). f_equal.
        by eapply (proj1 validate_fails_mut r' Hr).
Qed.

(** X11. [validateConfig] throws a [TypeError] whenever the
    configuration holds an explicit null at a key whose rule is not
    required, has no transform and no validator, declares the type
    [object] or none, and has at least one child: null passes the type
    check and its properties are then read.  This holds wherever the
    entry stands in the schema and whatever the other entries are. *)
Theorem validateConfig_null_child_throws h config cps schema k r :
  pureSchema schema ->
  ownProps h config = Returns cps ->
  (k, r) ∈ schema_entries schema ->
  unguarded r ->
  get_prop cps k = VNull ->
  validateConfig h config schema = Fails TypeError.
Proof.
  intros Hs Ho Hin Hun Hnull.
  unfold validateConfig, validateConfig_body. rewrite Ho. simpl.
  by rewrite (validateEntries_null_child schema k r h (h ++ [Obj cps]) []
                config cps (length h) Hs Hin Hun Ho Hnull
                (prefix_app_r h h [Obj cps] (reflexivity h)) (le_n _)).
Qed.

Lemma validateConfig_null_child_throws_witness :
  let h := [Obj [("name", VStr "app"); ("database", VNull)]] in
  let port := mkRule (Some TNumber) false (VNum 5432) None None None in
  let r := mkRule (Some TObject) false VUndefined None None
             (Some (SCons "port" port SNil)) in
  let schema :=
    SCons "name" (mkRule (Some TString) true VUndefined None None None)
      (SCons "database" r SNil) in
  validateConfig h (VRef 0) schema = Fails TypeError.
Proof.
  cbv zeta.
  apply (validateConfig_null_child_throws _ (VRef 0)
           [("name", VStr "app"); ("database", VNull)] _ "database"
           (mkRule (Some TObject) false VUndefined None None
              (Some (SCons "port"
                       (mkRule (Some TNumber) false (VNum 5432) None None None)
                       SNil)))).
  - simpl. tauto.
  - reflexivity.
  - right. left.
  - repeat split; try reflexivity.
    + by right.
    + by eexists _, _, _.
  - reflexivity.
Defined.

(** X12. [validateConfig] never throws on a mapping when every rule
    with children, at any depth, is required and has no transform: it
    returns a result whose [validated] document is a new object, and no
    object that existed before the call has changed. *)
Theorem validateConfig_guarded_never_throws h l cps schema :
  guardedSchema schema ->
  pureSchema schema ->
  h !! l = Some (Obj cps) ->
  exists h' res,
    validateConfig h (VRef l) schema = Returns (h', res) /\
    h `prefix_of` h' /\
    validated res = VRef (length h).
Proof.
  intros Hg Hs Hl.
  destruct (validateConfig_guarded_returns h l cps schema Hg Hs Hl)
    as [[h' res] Hv].
  exists h', res. split; [done|]. by eapply validateConfig_prefix.
Qed.

Lemma validateConfig_guarded_never_throws_witness :
  let h := [Obj [("database", VNull)]] in
  let port := mkRule (Some TNumber) true VUndefined None None None in
  let schema :=
    SCons "database"
      (mkRule (Some TObject) true VUndefined None None
         (Some (SCons "port" port SNil))) SNil in
  exists h' res,
    validateConfig h (VRef 0) schema = Returns (h', res) /\
    h `prefix_of` h' /\
    validated res = VRef (length h).
Proof.
  cbv zeta.
  apply (validateConfig_guarded_never_throws _ 0 [("database", VNull)]).
  - simpl. tauto.
  - simpl. tauto.
  - reflexivity.
Defined.

(** X7. Missing values.  When [validateConfig] does not throw, for a
    schema none of whose keys is a name inherited from
    [Object.prototype] and an entry [(k, r)] of it: if [r.required] and
    [config[k]] is absent or null, the error ["k is required"] is in the error list and
    [validated[k]] is [r.default]; if [config[k]] is absent,
    [validated[k]] is [r.default], which is absent when the rule has no
    default; and when [r] is not required the call of [validateValue] on
    an absent value leaves the store and the error list as they were,
    whatever transform, type, validator or children the rule has. *)
Theorem validateConfig_missing_values h config cps schema k r :
  pureSchema schema ->
  plainSchema schema = true ->
  NoDup (schema_keys schema) ->
  (k, r) ∈ schema_entries schema ->
  ownProps h config = Returns cps ->
  validateConfig h config schema <> Fails TypeError ->
  exists h' res vp,
    validateConfig h config schema = Returns (h', res) /\
    validated res = VRef (length h) /\
    h' !! length h = Some (Obj vp) /\
    (required r = true ->
     get_prop cps k = VUndefined \/ get_prop cps k = VNull ->
     (k +:+ " is required") ∈ errors res /\ get_prop vp k = default r) /\
    (get_prop cps k = VUndefined -> get_prop vp k = default r) /\
    (required r = false ->
     forall h0 errs path,
       validateValue r h0 errs VUndefined k path = Returns (h0, errs, default r)).
Proof.
  intros Hs _ Hnd Hin Ho Hne.
  destruct (validateConfig_at_key _ _ _ _ _ _ Hs Hnd Hin Ho Hne)
    as (h' & res & vp & ha & ea & hb & eb & out
        & Hv & Hval & Hvp & Hcall & Herr & Hout).
  exists h', res, vp. split; [done|]. split; [done|]. split; [done|].
  assert (Hreqd : required r = true ->
    get_prop cps k = VUndefined \/ get_prop cps k = VNull ->
    (k +:+ " is required") ∈ errors res /\ get_prop vp k = default r).
  { intros Hreq Hmiss.
    rewrite validateValue_required_missing in Hcall by done.
    injection Hcall as <- <- <-. split; [|done].
    destruct Herr as [t ->]. rewrite !elem_of_app, list_elem_of_singleton.
    by left; right. }
  split; [done|]. split.
  - intros Habs. destruct (required r) eqn:Hreq.
    + apply Hreqd; [done|by left].
    + rewrite Habs, validateValue_absent in Hcall by done.
      by injection Hcall as <- <- <-.
  - intros Hreq h0 errs0 path. by apply validateValue_absent.
Qed.

Lemma validateConfig_missing_values_witness :
  let h := [Obj [("host", VNull)]] in
  let r1 := mkRule (Some TString) true (VStr "localhost") None None None in
  let r2 := mkRule (Some TNumber) false (VNum 80) None None None in
  let schema := SCons "host" r1 (SCons "port" r2 SNil) in
  exists h' res vp,
    validateConfig h (VRef 0) schema = Returns (h', res) /\
    validated res = VRef (length h) /\
    h' !! length h = Some (Obj vp) /\
    (required r1 = true ->
     get_prop [("host", VNull)] "host" = VUndefined \/
     get_prop [("host", VNull)] "host" = VNull ->
     ("host" +:+ " is required") ∈ errors res /\ get_prop vp "host" = default r1) /\
    (get_prop [("host", VNull)] "host" = VUndefined ->
     get_prop vp "host" = default r1) /\
    (required r1 = false ->
     forall h0 errs path,
       validateValue r1 h0 errs VUndefined "host" path =
         Returns (h0, errs, default r1)).
Proof.
  cbv zeta.
  apply (validateConfig_missing_values _ (VRef 0) [("host", VNull)]).
  - simpl. tauto.
  - reflexivity.
  - apply NoDup_cons. split; [|apply NoDup_singleton].
    apply not_elem_of_cons. split; [discriminate|apply not_elem_of_nil].
  - left.
  - reflexivity.
  - vm_compute. discriminate.
Defined.

End ValidateMore.

(* ================================================================= *)
(** ** File names: formats, variants and the parsing of generated
       paths *)

Module FileNameFacts.
Import Discovery FileNames.

Lemma chars_app s1 s2 : chars (s1 +:+ s2) = chars s1 ++ chars s2.
Proof. induction s1 as [|c s1 IH]; simpl; [done|]. by rewrite IH. Qed.

(** Both sides of an equation between strings built by appending, as
    right-nested lists of characters. *)
Ltac chars_norm :=
  rewrite ?chars_app; repeat (progress (rewrite <- ?app_assoc; simpl));
  rewrite ?chars_app; repeat (progress (rewrite <- ?app_assoc; simpl)).

Lemma chars_inj s1 s2 : chars s1 = chars s2 -> s1 = s2.
Proof.
  intros H. rewrite <- (String.string_of_list_ascii_of_string s1),
    <- (String.string_of_list_ascii_of_string s2). by rewrite H.
Qed.

(** *** [extname] and [getConfigFormat] on a path with a clean
        extension *)

Lemma ext_scan_ext l : forall acc c' rest,
  Forall (fun c => c <> "/"%char /\ c <> "."%char) l ->
  c' <> "/"%char ->
  ext_scan (l ++ "."%char :: c' :: rest) acc = "."%char :: (rev l ++ acc).
Proof.
  induction l as [|c l IH]; intros acc c' rest Hl Hc'; simpl.
  - by rewrite decide_False.
  - apply Forall_cons in Hl as [[H1 H2] Hl].
    rewrite !decide_False by done. rewrite IH by done.
    by rewrite <- app_assoc.
Qed.

Lemma extname_clean stem c' e :
  c' <> "/"%char ->
  Forall (fun c => c <> "/"%char /\ c <> "."%char) (chars e) ->
  extname (stem +:+ String c' ("." +:+ e)) = "." +:+ e.
Proof.
  intros Hc' He. unfold extname. rewrite chars_app. simpl.
  rewrite rev_app_distr. simpl. rewrite <- !app_assoc. simpl.
  rewrite ext_scan_ext.
  - rewrite rev_involutive, app_nil_r. simpl.
    by rewrite String.string_of_list_ascii_of_string.
  - by apply Forall_rev.
  - done.
Qed.

Lemma clean_name (f : ConfigFormat) :
  Forall (fun c => c <> "/"%char /\ c <> "."%char) (chars (format_name f)).
Proof. destruct f; repeat constructor; discriminate. Qed.

Lemma getConfigFormat_clean stem c' f :
  c' <> "/"%char ->
  getConfigFormat (stem +:+ String c' ("." +:+ format_name f))
    = Some (canonical f).
Proof.
  intros Hc'. unfold getConfigFormat.
  rewrite extname_clean by (done || apply clean_name).
  by destruct f.
Qed.

(** *** The paths [generateConfigPaths] builds *)

(** The path built for one extension. *)
Lemma generateConfigPaths_map configDir name env extensions :
  generateConfigPaths configDir name env extensions =
  map (fun f =>
         resolve configDir
           (match truthy env with
            | Some e => name +:+ ".config." +:+ e +:+ "." +:+ format_name f
            | None => name +:+ ".config." +:+ format_name f
            end))
      (default defaultExtensions extensions).
Proof.
  unfold generateConfigPaths. apply map_ext. intros f.
  by destruct (truthy env).
Qed.

Lemma base_path_shape configDir name fmt :
  resolve configDir (name +:+ ".config." +:+ fmt) =
  (configDir +:+ "/" +:+ name +:+ ".confi") +:+ String "g" ("." +:+ fmt).
Proof.
  apply chars_inj. unfold resolve. by chars_norm.
Qed.

Lemma last_char s :
  s <> "" -> exists s0 c, s = s0 +:+ String c "".
Proof.
  induction s as [|c s IH]; [done|]. intros _.
  destruct s as [|c1 s1].
  - by exists "", c.
  - destruct IH as (s0 & c' & Heq); [done|].
    exists (String c s0), c'.
    change (String c (String c1 s1) = String c (s0 +:+ String c' "")).
    by f_equal.
Qed.

Lemma env_path_shape configDir name e0 c fmt :
  resolve configDir
    (name +:+ ".config." +:+ (e0 +:+ String c "") +:+ "." +:+ fmt) =
  (configDir +:+ "/" +:+ name +:+ ".config." +:+ e0)
    +:+ String c ("." +:+ fmt).
Proof.
  apply chars_inj. unfold resolve. by chars_norm.
Qed.

(** An environment name fit for a file name: it has no slash. *)
Lemma truthy_nonempty env e : truthy env = Some e -> e <> "" /\ env = Some e.
Proof. destruct env as [[|c s]|]; simpl; [done| |done]. by intros [= <-]. Qed.

(** Every path [generateConfigPaths] builds has the extension of its
    format, and [getConfigFormat] recognises it. *)
Lemma generated_path_format configDir name env f :
  (forall e, truthy env = Some e -> "/"%char ∉ chars e) ->
  let p := resolve configDir
             (match truthy env with
              | Some e => name +:+ ".config." +:+ e +:+ "." +:+ format_name f
              | None => name +:+ ".config." +:+ format_name f
              end) in
  extname p = "." +:+ format_name f /\
  getConfigFormat p = Some (canonical f).
Proof.
  intros Henv. cbv zeta.
  destruct (truthy env) as [e|] eqn:He.
  - destruct (truthy_nonempty _ _ He) as [Hne _].
    destruct (last_char e Hne) as (e0 & c & ->).
    rewrite env_path_shape.
    assert (Hc : c <> "/"%char).
    { intros ->. apply (Henv _ eq_refl). rewrite chars_app. simpl.
      apply elem_of_app. right. left. }
    split; [apply extname_clean; [done|apply clean_name]|].
    by apply getConfigFormat_clean.
  - rewrite base_path_shape.
    split; [apply extname_clean; [done|apply clean_name]|].
    by apply getConfigFormat_clean.
Qed.

(** X13. [getExtensionVariants] and [getConfigFormat] agree: for every
    format other than [yml], a path is recognised as that format
    exactly when its lower-cased extension is one of the format's
    variants.  ([yml] is excepted because [getConfigFormat] reports
    [yml] files as [yaml].) *)
Theorem getExtensionVariants_recognised f p :
  f <> F_yml ->
  getConfigFormat p = Some f <->
  toLowerCase (slice1 (extname p)) ∈ getExtensionVariants f.
Proof.
  intros Hf. unfold getConfigFormat.
  generalize (toLowerCase (slice1 (extname p))). intros x. split.
  - repeat case_decide; intros [= <-]; subst x; simpl;
      rewrite ?elem_of_cons; tauto.
  - destruct f; simpl; rewrite ?elem_of_cons, ?elem_of_nil; try done;
      intros H; repeat (destruct H as [->|H]; [done|]); done.
Qed.

Lemma getExtensionVariants_recognised_witness :
  getConfigFormat "/cfg/app.config.MJS" = Some F_js <->
  toLowerCase (slice1 (extname "/cfg/app.config.MJS"))
    ∈ getExtensionVariants F_js.
Proof.
  apply (getExtensionVariants_recognised F_js "/cfg/app.config.MJS").
  discriminate.
Defined.

(** *** Nothing is lost between the candidates and the result *)

Lemma insert_sorted_Permutation {A} (cmp : A -> A -> Z) x l :
  insert_sorted cmp x l ≡ₚ x :: l.
Proof.
  induction l as [|y l IH]; simpl; [done|].
  destruct (cmp x y <=? 0)%Z; [done|].
  rewrite IH. apply Permutation_swap.
Qed.

Lemma sort_Permutation {A} (cmp : A -> A -> Z) l : sort cmp l ≡ₚ l.
Proof.
  induction l as [|x l IH]; simpl; [done|].
  rewrite insert_sorted_Permutation. by rewrite IH.
Qed.

Lemma collect_generated fs envf base configDir name env extensions :
  (forall e, truthy env = Some e -> "/"%char ∉ chars e) ->
  map path (collect fs envf base
              (generateConfigPaths configDir name env extensions)) =
  filter (fun p => existsSync fs p = true)
         (generateConfigPaths configDir name env extensions).
Proof.
  intros Henv. rewrite generateConfigPaths_map.
  induction (default defaultExtensions extensions) as [|f l IH]; [done|].
  cbn [map]. unfold collect in *. cbn [flat_map].
  rewrite map_app, IH. rewrite filter_cons.
  destruct (generated_path_format configDir name env f Henv) as [_ Hfmt].
  cbv zeta in Hfmt. rewrite Hfmt.
  destruct (existsSync fs _) eqn:Hex.
  - by rewrite decide_True.
  - by rewrite decide_False.
Qed.

(** X14. [findConfigFiles] reports every candidate path that exists,
    once for each time it is a candidate, and nothing else: the paths
    of its result are, up to order, the existing paths among those
    [generateConfigPaths] builds for the base files and, with an
    environment, for the environment.  No existing candidate is dropped
    for want of a recognised format. *)
Theorem findConfigFiles_complete fs name configDir env extensions :
  (forall e, truthy env = Some e -> "/"%char ∉ chars e) ->
  map path (findConfigFiles fs name configDir env extensions) ≡ₚ
  filter (fun p => existsSync fs p = true)
    (generateConfigPaths configDir name None extensions ++
     match truthy env with
     | Some e => generateConfigPaths configDir name (Some e) extensions
     | None => []
     end).
Proof.
  intros Henv. unfold findConfigFiles. cbv zeta.
  rewrite sort_Permutation. rewrite filter_app.
  destruct (truthy env) as [e|] eqn:He.
  - rewrite map_app. rewrite !collect_generated; [done| |done].
    intros e' He'. apply Henv.
    destruct e as [|c e]; [by destruct env as [[|]|]|]. simpl in He'.
    by injection He' as <-.
  - rewrite collect_generated by done. by rewrite app_nil_r.
Qed.

Lemma findConfigFiles_complete_witness :
  let fs : filesystem := fun p =>
    if decide (p = "/cfg/app.config.yml") then Some 1%Z
    else if decide (p = "/cfg/app.config.dev.json") then Some 2%Z
    else if decide (p = "/cfg/app.config.txt") then Some 3%Z
    else None in
  map path (findConfigFiles fs "app" "/cfg" (Some "dev") None) ≡ₚ
  filter (fun p => existsSync fs p = true)
    (generateConfigPaths "/cfg" "app" None None ++
     match truthy (Some "dev") with
     | Some e => generateConfigPaths "/cfg" "app" (Some e) None
     | None => []
     end).
Proof.
  cbv zeta.
  apply (findConfigFiles_complete _ "app" "/cfg" (Some "dev") None).
  intros e [= <-]. simpl. rewrite !elem_of_cons, elem_of_nil.
  intros [H|[H|[H|H]]]; done.
Defined.

(** *** No file is listed twice *)

Lemma NoDup_map_inj {A B} (f : A -> B) l :
  (forall x y, f x = f y -> x = y) -> NoDup l -> NoDup (map f l).
Proof.
  intros Hinj. induction 1 as [|x l Hx Hl IH]; simpl; constructor; [|done].
  intros Hin. apply list_elem_of_fmap in Hin as (y & Heq & Hy).
  apply Hinj in Heq. by subst.
Qed.

Lemma format_name_inj f1 f2 : format_name f1 = format_name f2 -> f1 = f2.
Proof. by destruct f1, f2. Qed.

Lemma collect_sublist fs e base paths :
  map path (collect fs e base paths) `sublist_of` paths.
Proof.
  unfold collect. induction paths as [|p paths IH]; simpl; [done|].
  rewrite map_app.
  destruct (existsSync fs p); [|by apply sublist_cons].
  destruct (getConfigFormat p); [|by apply sublist_cons].
  simpl. by apply sublist_skip.
Qed.

Lemma dot_in_env_path e fmt : "."%char ∈ chars (e +:+ "." +:+ fmt).
Proof. rewrite chars_app. apply elem_of_app. right. left. Qed.

Lemma generated_paths_NoDup configDir name env extensions :
  NoDup (default defaultExtensions extensions) ->
  NoDup (generateConfigPaths configDir name None extensions ++
         match truthy env with
         | Some e => generateConfigPaths configDir name (Some e) extensions
         | None => []
         end).
Proof.
  intros Hnd. rewrite !generateConfigPaths_map. simpl.
  apply NoDup_app. repeat split.
  - apply NoDup_map_inj; [|done]. intros f1 f2 Heq. unfold resolve in Heq.
    repeat apply (inj (String.append _)) in Heq. by apply format_name_inj.
  - intros p Hp Hp'. destruct (truthy env) as [e|] eqn:He;
      [|by apply elem_of_nil in Hp'].
    rewrite generateConfigPaths_map in Hp'.
    assert (truthy (Some e) = Some e) as He'.
    { destruct e; [by destruct env as [[|]|]|done]. }
    rewrite He' in Hp'.
    apply list_elem_of_fmap in Hp as (f1 & -> & _).
    apply list_elem_of_fmap in Hp' as (f2 & Heq & _).
    unfold resolve in Heq. repeat apply (inj (String.append _)) in Heq.
    pose proof (dot_in_env_path e (format_name f2)) as Hdot.
    rewrite <- Heq in Hdot.
    pose proof (clean_name f1) as Hclean. rewrite Forall_forall in Hclean.
    by destruct (Hclean _ Hdot).
  - destruct (truthy env) as [e|] eqn:He; [|constructor].
    rewrite generateConfigPaths_map.
    assert (truthy (Some e) = Some e) as ->.
    { destruct e; [by destruct env as [[|]|]|done]. }
    apply NoDup_map_inj; [|done]. intros f1 f2 Heq. unfold resolve in Heq.
    repeat apply (inj (String.append _)) in Heq. by apply format_name_inj.
Qed.

(** X22. [findConfigFiles] never lists a file twice: when the
    extensions searched are distinct, as the default ones are, and the
    name of the environment has no slash (so that the file names it
    gives are plain file names of the directory), the paths of the
    files it returns are distinct, so that no file is loaded and merged
    more than once. *)
Theorem findConfigFiles_no_duplicates fs name configDir env extensions :
  NoDup (default defaultExtensions extensions) ->
  (forall e, truthy env = Some e -> "/"%char ∉ chars e) ->
  NoDup (map path (findConfigFiles fs name configDir env extensions)).
Proof.
  intros Hnd _. unfold findConfigFiles. cbv zeta. rewrite sort_Permutation.
  eapply sublist_NoDup;
    [apply (generated_paths_NoDup configDir name env extensions Hnd)|].
  destruct (truthy env) as [e|].
  - rewrite map_app. apply sublist_app; apply collect_sublist.
  - rewrite app_nil_r. apply collect_sublist.
Qed.

Lemma findConfigFiles_no_duplicates_witness :
  let fs : filesystem := fun p =>
    if decide (p = "/cfg/app.config.yml") then Some 1%Z
    else if decide (p = "/cfg/app.config.yaml") then Some 2%Z
    else if decide (p = "/cfg/app.config.dev.yml") then Some 3%Z
    else None in
  NoDup (map path (findConfigFiles fs "app" "/cfg" (Some "dev") None)).
Proof.
  cbv zeta.
  apply (findConfigFiles_no_duplicates _ "app" "/cfg" (Some "dev") None).
  - simpl. unfold defaultExtensions.
    repeat (apply NoDup_cons; split;
            [rewrite ?elem_of_cons, elem_of_nil; intros H;
             repeat (destruct H as [H|H]; try discriminate H); done|]).
    apply NoDup_nil_2.
  - intros e [= <-]. simpl. rewrite !elem_of_cons, elem_of_nil.
    intros [H|[H|[H|H]]]; done.
Defined.

(** *** [basename] of a file in a directory *)

Lemma segment_scan_app l : forall acc rest,
  Forall (fun c => c <> "/"%char) l ->
  segment_scan (l ++ "/"%char :: rest) acc = rev l ++ acc.
Proof.
  induction l as [|c l IH]; intros acc rest Hl; simpl.
  - done.
  - apply Forall_cons in Hl as [Hc Hl]. rewrite decide_False by done.
    rewrite IH by done. by rewrite <- app_assoc.
Qed.

Lemma last_segment_file d f :
  Forall (fun c => c <> "/"%char) f ->
  last_segment (d ++ "/"%char :: f) = f.
Proof.
  intros Hf. unfold last_segment. rewrite rev_app_distr. simpl.
  rewrite <- app_assoc. simpl. rewrite segment_scan_app by by apply Forall_rev.
  by rewrite rev_involutive, app_nil_r.
Qed.

Lemma strip_prefix_app pre s : strip_prefix pre (pre ++ s) = Some s.
Proof.
  induction pre as [|c pre IH]; simpl; [by destruct s|].
  by rewrite decide_True.
Qed.

Lemma strip_prefix_Some pre : forall s t,
  strip_prefix pre s = Some t -> s = pre ++ t.
Proof.
  induction pre as [|c pre IH]; intros s t; simpl.
  - destruct s; by intros [= <-].
  - destruct s as [|d s]; [done|].
    destruct (decide (c = d)) as [->|]; [|done].
    intros H. by rewrite (IH _ _ H).
Qed.

Lemma strip_suffix_app stem suf : strip_suffix suf (stem ++ suf) = Some stem.
Proof.
  unfold strip_suffix. rewrite rev_app_distr, strip_prefix_app. simpl.
  by rewrite rev_involutive.
Qed.

Lemma basename_file configDir stem ext :
  stem <> "" -> ext <> "" ->
  Forall (fun c => c <> "/"%char) (chars stem ++ chars ext) ->
  basename (configDir +:+ "/" +:+ stem +:+ ext) ext = stem.
Proof.
  intros Hstem Hext Hclean. unfold basename.
  rewrite !chars_app. simpl.
  rewrite last_segment_file by done.
  rewrite strip_suffix_app.
  rewrite bool_decide_true.
  2: { intros H. apply Hext. apply chars_inj. by rewrite H. }
  rewrite bool_decide_true
    by (rewrite length_app, length_cons, length_app; lia).
  rewrite decide_False.
  2: { intros H. apply (f_equal length) in H.
       rewrite length_app, length_cons, length_app in H. lia. }
  simpl. destruct (chars stem) as [|c l] eqn:Hc.
  - exfalso. apply Hstem. apply chars_inj. by rewrite Hc.
  - rewrite <- Hc. apply String.string_of_list_ascii_of_string.
Qed.

(** *** The pattern on [name.config] and [name.config.env] *)

Lemma match_from_found N R e : forall k,
  N <> [] ->
  no_terminator N = true ->
  match_rest R = Some e ->
  (forall j, 1 <= j <= k -> match_rest (drop j R) = None) ->
  match_from (length N + k) (N ++ R) = Some (N, e).
Proof.
  induction k as [|k IH]; intros HN Hterm HR Hno.
  - rewrite Nat.add_0_r. destruct N as [|c N]; [done|].
    cbn [length match_from].
    change (S (length N)) with (length (c :: N)).
    rewrite take_app_length, drop_app_length. by rewrite Hterm, HR.
  - rewrite Nat.add_succ_r. cbn [match_from].
    rewrite <- Nat.add_succ_r.
    rewrite drop_app_ge by lia.
    replace (length N + S k - length N) with (S k) by lia.
    rewrite (Hno (S k)) by lia.
    assert (match_from (length N + k) (N ++ R) = Some (N, e)) as ->.
    { apply IH; try done. intros j Hj. apply Hno. lia. }
    by case_match.
Qed.

Lemma match_rest_base j :
  1 <= j -> match_rest (drop j (chars ".config")) = None.
Proof.
  intros Hj. do 8 (destruct j as [|j]; [done || lia|]). done.
Qed.

Lemma match_rest_no_dot X :
  Forall (fun c => c <> "."%char) X -> match_rest X = None.
Proof.
  destruct X as [|c X]; [done|]. intros [Hc _]%Forall_cons.
  unfold match_rest. simpl. by rewrite decide_False.
Qed.

Lemma match_rest_env E j :
  Forall (fun c => c <> "."%char) E ->
  E <> chars "config" ->
  1 <= j ->
  match_rest (drop j (chars ".config" ++ "."%char :: E)) = None.
Proof.
  intros Hdots Hne Hj.
  do 7 (destruct j as [|j]; [done || lia|]).
  destruct j as [|j].
  - change (match_rest ("."%char :: E) = None). unfold match_rest.
    change (strip_prefix (chars ".config") ("."%char :: E))
      with (strip_prefix (chars "config") E).
    destruct (strip_prefix _ E) as [tail|] eqn:Hs; [|done].
    apply strip_prefix_Some in Hs. subst E.
    destruct tail as [|c x]; [done|]. simpl.
    apply Forall_app in Hdots as [_ [Hc _]%Forall_cons].
    by rewrite decide_False.
  - simpl. apply match_rest_no_dot.
    rewrite <- (take_drop j E) in Hdots. by apply Forall_app in Hdots as [_ ?].
Qed.

Lemma match_env_clean E :
  E <> [] -> Forall (fun c => c <> "."%char) E ->
  match_env ("."%char :: E) = Some (Some E).
Proof.
  intros Hne Hdots. simpl. rewrite bool_decide_true by done.
  assert (forallb (fun d => bool_decide (d <> "."%char)) E = true) as ->; [|done].
  apply forallb_forall. intros c Hc. apply bool_decide_eq_true.
  rewrite Forall_forall in Hdots. apply Hdots. by apply list_elem_of_In.
Qed.

Lemma matchConfigPattern_base name :
  name <> "" ->
  no_terminator (chars name) = true ->
  matchConfigPattern (name +:+ ".config") = Some (name, None).
Proof.
  intros Hname Hterm. unfold matchConfigPattern. rewrite chars_app.
  rewrite length_app.
  rewrite (match_from_found (chars name) (chars ".config") None); try done.
  - simpl. by rewrite String.string_of_list_ascii_of_string.
  - intros H. apply Hname. apply chars_inj. by rewrite H.
  - intros j Hj. apply match_rest_base. lia.
Qed.

Lemma matchConfigPattern_env name e :
  name <> "" ->
  no_terminator (chars name) = true ->
  e <> "" -> e <> "config" ->
  Forall (fun c => c <> "."%char) (chars e) ->
  matchConfigPattern (name +:+ ".config." +:+ e) = Some (name, Some e).
Proof.
  intros Hname Hterm He Hcfg Hdots. unfold matchConfigPattern.
  rewrite !chars_app. rewrite length_app.
  change (chars ".config.") with (chars ".config" ++ ["."%char]).
  rewrite <- app_assoc. cbn [app].
  change (chars ".config" ++ "."%char :: chars e)
    with (chars ".config" ++ "."%char :: chars e).
  rewrite (match_from_found (chars name)
             ("."%char :: "c"%char :: "o"%char :: "n"%char :: "f"%char ::
              "i"%char :: "g"%char :: "."%char :: chars e) (Some (chars e)));
    try done.
  - simpl. by rewrite !String.string_of_list_ascii_of_string.
  - intros H. apply Hname. apply chars_inj. by rewrite H.
  - unfold match_rest. simpl strip_prefix. apply match_env_clean; [|done].
    intros H. apply He. apply chars_inj. by rewrite H.
  - intros j Hj. apply (match_rest_env (chars e) j); [done| |lia].
    intros H. apply Hcfg. apply chars_inj. by rewrite H.
Qed.

Lemma app_nonempty_l s1 s2 : s1 <> "" -> s1 +:+ s2 <> "".
Proof. by destruct s1. Qed.

Lemma no_slash_name name :
  Forall (fun c => c <> "/"%char /\ is_line_terminator c = false) (chars name) ->
  Forall (fun c => c <> "/"%char) (chars name) /\
  no_terminator (chars name) = true.
Proof.
  intros H. split.
  - eapply Forall_impl; [exact H|]. by intros c [? _].
  - apply forallb_forall. intros c Hc%list_elem_of_In.
    rewrite Forall_forall in H. destruct (H c Hc) as [_ ->]. done.
Qed.

(** X15. [parseConfigFileName] inverts [generateConfigPaths]: parsing
    a path generated for a name, an environment and an extension gives
    back the name, the environment and the format of the extension
    ([yaml] for [yml]).  The name must be non-empty and free of slashes
    and line terminators; an environment name must be free of slashes
    and dots and differ from [config]. *)
Theorem parseConfigFileName_generated configDir name env extensions :
  name <> "" ->
  Forall (fun c => c <> "/"%char /\ is_line_terminator c = false) (chars name) ->
  (forall e, truthy env = Some e ->
     e <> "config" /\
     Forall (fun c => c <> "/"%char /\ c <> "."%char) (chars e)) ->
  map parseConfigFileName (generateConfigPaths configDir name env extensions) =
  map (fun f => {| baseName := name;
                   FileNames.env := truthy env;
                   FileNames.format := Some (canonical f) |})
      (default defaultExtensions extensions).
Proof.
  intros Hname Hchars Henv.
  destruct (no_slash_name name Hchars) as [Hslash Hterm].
  rewrite generateConfigPaths_map, map_map. apply map_ext. intros f.
  assert (Hslash_e : forall e, truthy env = Some e -> "/"%char ∉ chars e).
  { intros e He Hin. destruct (Henv e He) as [_ Hall].
    rewrite Forall_forall in Hall. by destruct (Hall _ Hin). }
  destruct (generated_path_format configDir name env f Hslash_e) as [Hext Hfmt].
  cbv zeta in Hext, Hfmt. unfold parseConfigFileName.
  rewrite Hext, Hfmt.
  assert (Hclean_f : Forall (fun c => c <> "/"%char) (chars ("." +:+ format_name f))).
  { constructor; [done|]. eapply Forall_impl; [apply clean_name|].
    by intros c [? _]. }
  destruct (truthy env) as [e|] eqn:He.
  - destruct (Henv e eq_refl) as [Hcfg Hall].
    destruct (truthy_nonempty _ _ He) as [Hne _].
    replace (resolve configDir
               (name +:+ ".config." +:+ e +:+ "." +:+ format_name f))
      with (configDir +:+ "/" +:+ (name +:+ ".config." +:+ e)
              +:+ ("." +:+ format_name f))
      by (apply chars_inj; unfold resolve; by chars_norm).
    rewrite basename_file.
    + rewrite matchConfigPattern_env; try done.
      eapply Forall_impl; [exact Hall|]. by intros c [_ ?].
    + by apply app_nonempty_l.
    + done.
    + apply Forall_app. split; [|exact Hclean_f].
      rewrite !chars_app. rewrite !Forall_app. repeat split; try done.
      * repeat constructor; discriminate.
      * eapply Forall_impl; [exact Hall|]. by intros c [? _].
  - replace (resolve configDir (name +:+ ".config." +:+ format_name f))
      with (configDir +:+ "/" +:+ (name +:+ ".config")
              +:+ ("." +:+ format_name f))
      by (apply chars_inj; unfold resolve; by chars_norm).
    rewrite basename_file.
    + by rewrite matchConfigPattern_base.
    + by apply app_nonempty_l.
    + done.
    + apply Forall_app. split; [|exact Hclean_f].
      rewrite !chars_app. rewrite !Forall_app. repeat split; try done.
      repeat constructor; discriminate.
Qed.

Lemma parseConfigFileName_generated_witness :
  map parseConfigFileName
    (generateConfigPaths "/cfg" "app" (Some "production") (Some [F_yml; F_ts])) =
  map (fun f => {| baseName := "app";
                   FileNames.env := truthy (Some "production");
                   FileNames.format := Some (canonical f) |})
      (default defaultExtensions (Some [F_yml; F_ts])).
Proof.
  apply (parseConfigFileName_generated "/cfg" "app" (Some "production")
           (Some [F_yml; F_ts])).
  - discriminate.
  - repeat constructor; discriminate.
  - intros e [= <-]. split; [discriminate|].
    repeat constructor; discriminate.
Defined.

End FileNameFacts.

(* ================================================================= *)
(** ** The loader: the order in which files are loaded and merged *)

Module LoaderFacts.
Import Merge Frame Validate SchemaFrame Discovery DiscoveryOrder Loader.
Import JSFacts MergeFacts GrowthFacts MergeTotal MergeKeyFacts MergeProperties.
Import MergeMore DiscoveryProperties FileNameFacts.

Lemma StronglySorted_filter {A} (R : A -> A -> Prop) (P : A -> Prop)
    `{!forall x, Decision (P x)} l :
  StronglySorted R l -> StronglySorted R (filter P l).
Proof.
  induction 1 as [|x l Hs IH Hx]; [constructor|].
  rewrite filter_cons. destruct (decide (P x)); [|done].
  constructor; [done|]. by apply Forall_filter_keep.
Qed.

Lemma filter_partition {A} (P Q : A -> Prop)
    `{!forall x, Decision (P x)} `{!forall x, Decision (Q x)} l :
  Forall (fun x => (P x /\ ~ Q x) \/ (Q x /\ ~ P x)) l ->
  filter P l ++ filter Q l ≡ₚ l.
Proof.
  induction 1 as [|x l Hx Hl IH]; [done|].
  rewrite !filter_cons.
  destruct Hx as [[HP HQ]|[HQ HP]].
  - rewrite decide_True, decide_False by done. simpl. by rewrite IH.
  - rewrite decide_False, decide_True by done.
    rewrite <- Permutation_middle. by rewrite IH.
Qed.

Lemma collect_env fs e base paths :
  Forall (fun f => Discovery.env f = e) (collect fs e base paths).
Proof.
  unfold collect. induction paths as [|p paths IH]; simpl; [done|].
  apply Forall_app. split; [|done].
  destruct (existsSync fs p); [|done].
  destruct (getConfigFormat p); [|done]. by repeat constructor.
Qed.

(** Every file [findConfigFiles] returns is a base file or a file of
    the environment asked for. *)
Lemma findConfigFiles_kinds fs name configDir env extensions :
  Forall (fun f => isBase f = true \/
                   (isBase f = false /\ Discovery.env f = env))
    (findConfigFiles fs name configDir env extensions).
Proof.
  unfold findConfigFiles. cbv zeta. rewrite sort_Permutation.
  destruct (truthy env) as [e|] eqn:He.
  - apply Forall_app. split.
    + eapply Forall_impl; [apply (collect_isBase fs None true)|].
      intros f Hf. by left.
    + destruct (truthy_nonempty _ _ He) as [_ ->].
      pose proof (collect_isBase fs (Some e) false
                    (generateConfigPaths configDir name (Some e) extensions))
        as H1.
      pose proof (collect_env fs (Some e) false
                    (generateConfigPaths configDir name (Some e) extensions))
        as H2.
      rewrite Forall_forall in H1, H2. apply Forall_forall.
      intros f Hf. right. split; [by apply H1|by apply H2].
  - eapply Forall_impl; [apply (collect_isBase fs None true)|].
    intros f Hf. by left.
Qed.

(** The list of files [loadConfig] walks, base files and then the
    files of the environment: every file found is in it exactly once;
    every base file comes before every file of the environment; and
    within each of the two groups the files are in priority order
    (env, yaml, json5, json, js, ts), lowest first. *)
Lemma load_order fs name configDir env extensions i j a b :
  let files := findConfigFiles fs name configDir env extensions in
  let order := baseFiles files ++ envFiles files env in
  order ≡ₚ files /\
  (i < j -> order !! i = Some a -> order !! j = Some b ->
   (isBase b = true -> isBase a = true) /\
   (isBase a = isBase b -> (priority a <= priority b)%Z)).
Proof.
  intros files order. subst order. unfold baseFiles, envFiles. split.
  - apply filter_partition.
    eapply Forall_impl; [apply findConfigFiles_kinds|].
    intros f [Hb|[Hb He]].
    + left. split; [done|]. intros [Hb' _]. congruence.
    + right. split; [done|]. congruence.
  - intros Hij Hi Hj.
    assert (Hsorted : StronglySorted (fun a b => (priority a <= priority b)%Z)
                        files).
    { subst files.
      destruct (findConfigFiles_sorts fs name configDir env extensions)
        as (bases & envs & -> & _ & _).
      apply (sort_sorted priority). }
    set (B := filter (fun f => isBase f = true) files) in *.
    set (E := filter (fun f => isBase f = false /\ Discovery.env f = env) files)
      in *.
    assert (HB : Forall (fun f => isBase f = true) B).
    { apply Forall_forall. intros f Hf. by apply list_elem_of_filter in Hf as [? _]. }
    assert (HE : Forall (fun f => isBase f = false) E).
    { apply Forall_forall. intros f Hf.
      by apply list_elem_of_filter in Hf as [[? _] _]. }
    assert (HsB : StronglySorted (fun a b => (priority a <= priority b)%Z) B)
      by by apply StronglySorted_filter.
    assert (HsE : StronglySorted (fun a b => (priority a <= priority b)%Z) E)
      by by apply StronglySorted_filter.
    rewrite Forall_forall in HB, HE.
    apply lookup_app_Some in Hi as [Hi|[Hli Hi]];
      apply lookup_app_Some in Hj as [Hj|[Hlj Hj]].
    + split; [intros _; apply HB; by eapply list_elem_of_lookup_2|].
      intros _.
      exact (StronglySorted_lookup
               (fun a b => (priority a <= priority b)%Z) B i j a b
               HsB Hij Hi Hj).
    + pose proof (HB a (list_elem_of_lookup_2 _ _ _ Hi)) as Ha.
      pose proof (HE b (list_elem_of_lookup_2 _ _ _ Hj)) as Hb.
      split; [done|]. congruence.
    + apply lookup_lt_Some in Hj. lia.
    + pose proof (HE a (list_elem_of_lookup_2 _ _ _ Hi)) as Ha.
      pose proof (HE b (list_elem_of_lookup_2 _ _ _ Hj)) as Hb.
      split; [congruence|]. intros _.
      apply (StronglySorted_lookup
               (fun a b => (priority a <= priority b)%Z) E
               (i - length B) (j - length B) a b HsE); [lia|done|done].
Qed.

End LoaderFacts.

(* ================================================================= *)
(** ** Merging a sequence of documents: [loadConfig], [mergeConfigs] *)

Module MergeSequence.
Import Merge Frame MergeVariants Loader LoaderFrame DefineConfig.
Import JSFacts MergeFacts GrowthFacts MergeTotal MergeKeyFacts MergeProperties.
Import MergeFilters MergeMore MergeVariantFacts.

(** The result of a key-by-key merge is the new object. *)
Lemma deepMerge_result fuel h target source o h' res :
  deepLike (strategy_of o) = true ->
  pureMergers o ->
  deepMerge fuel h target source o = Returns (h', res) ->
  res = VRef (length h) /\ exists rp, h' !! length h = Some (Obj rp).
Proof.
  intros Hd Hpure Hm. destruct fuel as [|fuel]; [done|].
  rewrite deepMerge_deep in Hm by done.
  destruct (ownProps h target) as [tp|e]; [|done]. simpl in Hm.
  destruct (ownProps (h ++ [Obj tp]) source) as [sp|e]; [|done]. simpl in Hm.
  destruct (forIn _ _ _) as [h2|e] eqn:Hloop; simpl in Hm; [|done].
  injection Hm as <- <-. split; [done|].
  eapply forIn_result_obj; [exact Hpure| |apply lookup_alloc|exact Hloop].
  by apply deepMerge_self_prefix.
Qed.

Lemma document_prefix fuel (h h' : heap) c :
  h `prefix_of` h' -> document fuel h c -> document fuel h' c.
Proof.
  intros Hp (ps & Ho & Hnd & Hsh). exists ps. repeat split; try done.
  - by eapply ownProps_prefix.
  - by eapply plainKeys_prefix.
Qed.

Lemma mergeAll_app fuel o cs1 cs2 : forall h acc,
  mergeAll fuel o (cs1 ++ cs2) h acc =
  ('(h1, acc1) ← mergeAll fuel o cs1 h acc; mergeAll fuel o cs2 h1 acc1).
Proof.
  induction cs1 as [|c cs1 IH]; intros h acc; simpl; [done|].
  destruct (deepMerge fuel h acc c o) as [[h1 m]|e]; simpl; [|done].
  apply IH.
Qed.

(** The loop returns a document of a store that extends the initial
    one; a key that every merged document leaves undefined is bound in
    it as in the document the loop started from. *)
Lemma mergeAll_returns fuel o k cs : forall h0 h acc ap,
  strategy_of o = deep ->
  pureMergers o ->
  0 < fuel ->
  Forall (document fuel h0) cs ->
  h0 `prefix_of` h ->
  ownProps h acc = Returns ap ->
  exists h' res rp,
    mergeAll fuel o cs h acc = Returns (h', res) /\
    h `prefix_of` h' /\
    ownProps h' res = Returns rp /\
    (Forall (fun c => get h0 c k = VUndefined) cs ->
     lookup_prop k rp = lookup_prop k ap).
Proof.
  induction cs as [|c cs IH]; intros h0 h acc ap Hd Hpure Hpos Hdocs Hp Ha.
  - exists h, acc, ap. by repeat split.
  - apply Forall_cons in Hdocs as [Hc Hdocs].
    destruct (document_prefix fuel h0 h c Hp Hc) as (ps & Ho & Hnd & Hsh).
    destruct (deepMerge_returns o fuel h acc c ap ps Hpure Hpos Hsh Ha Ho)
      as (h1 & m & Hm).
    pose proof (deepMerge_prefix o fuel _ _ _ _ _ Hpure Hm) as Hp1.
    destruct (deepMerge_result _ _ _ _ _ _ _ (deep_is_deepLike o Hd) Hpure Hm)
      as (-> & mp & Hmp).
    assert (Hmo : ownProps h1 (VRef (length h)) = Returns mp).
    { simpl. by rewrite Hmp. }
    destruct (IH h0 h1 (VRef (length h)) mp Hd Hpure Hpos Hdocs
                ltac:(by etrans) Hmo)
      as (h' & res & rp & Hall & Hp' & Hr & Hkeep).
    exists h', res, rp. simpl. rewrite Hm. simpl. repeat split; try done.
    + by etrans.
    + intros [Hu Hus]%Forall_cons. rewrite (Hkeep Hus).
      destruct (deepMerge_undefined_keeps fuel h acc c o ap ps k
                  (deep_is_deepLike o Hd) Hpure Ha Ho Hpos Hsh)
        as (h2 & r2 & rp2 & Hm2 & Hr2 & Heq).
      { rewrite <- (ownProps_get h c ps k Ho).
        destruct Hc as (ps0 & Ho0 & _).
        rewrite (ownProps_get h c ps k Ho).
        rewrite (ownProps_get h0 c ps0 k Ho0) in Hu.
        pose proof (ownProps_prefix _ _ _ _ Hp Ho0) as Ho'.
        congruence. }
      rewrite Hm in Hm2. injection Hm2 as <- <-. congruence.
Qed.

(** The value a scalar of one document has after the loop, when no
    later document defines the key. *)
Lemma mergeAll_scalar fuel o h acc ap cs1 c cs2 k v :
  strategy_of o = deep ->
  pureMergers o ->
  customMergers_of o k = None ->
  unfiltered o k = true ->
  ownProps h acc = Returns ap ->
  Forall (document fuel h) (cs1 ++ c :: cs2) ->
  get h c k = v ->
  is_scalar v = true ->
  Forall (fun c' => get h c' k = VUndefined) cs2 ->
  exists h' res,
    mergeAll fuel o (cs1 ++ c :: cs2) h acc = Returns (h', res) /\
    h `prefix_of` h' /\
    get h' res k = v.
Proof.
  intros Hd Hpure Hcm Hu Ha Hdocs Hv Hsc Hlater.
  apply Forall_app in Hdocs as [Hdocs1 [Hc Hdocs2]%Forall_cons].
  pose proof Hc as (ps & Ho & Hnd & Hsh).
  assert (Hk : lookup_prop k ps = Some v).
  { rewrite (ownProps_get h c ps k Ho) in Hv. unfold get_prop in Hv.
    destruct (lookup_prop k ps); simpl in Hv; [by subst|].
    subst v. done. }
  pose proof (shallower_props_pos _ _ _ _ _ _
                (plainKeys_shallower _ _ _ Hsh) Ho Hk) as Hpos.
  destruct (mergeAll_returns fuel o k cs1 h h acc ap Hd Hpure Hpos Hdocs1
              (reflexivity h) Ha)
    as (h1 & acc1 & ap1 & Hm1 & Hp1 & Ha1 & _).
  destruct (deepMerge_scalar fuel h1 acc1 c o ap1 ps k v Hd Hpure Ha1)
    as (h2 & acc2 & Hm2 & Hget); try done.
  { by eapply ownProps_prefix. }
  { by eapply plainKeys_prefix. }
  pose proof (deepMerge_prefix o fuel _ _ _ _ _ Hpure Hm2) as Hp2.
  destruct (deepMerge_result _ _ _ _ _ _ _ (deep_is_deepLike o Hd) Hpure Hm2)
    as (-> & ap2 & Hap2).
  assert (Ha2 : ownProps h2 (VRef (length h1)) = Returns ap2).
  { simpl. by rewrite Hap2. }
  destruct (mergeAll_returns fuel o k cs2 h h2 (VRef (length h1)) ap2 Hd Hpure
              Hpos Hdocs2 ltac:(by etrans) Ha2)
    as (h' & res & rp & Hm3 & Hp3 & Hr & Hkeep).
  exists h', res. rewrite mergeAll_app, Hm1. simpl. rewrite Hm2. simpl.
  repeat split; try done.
  - etrans; [exact Hp1|]. by etrans.
  - rewrite (ownProps_get h' res rp k Hr). unfold get_prop.
    rewrite (Hkeep Hlater). simpl in Hget. rewrite Hap2 in Hget. done.
Qed.

(** X17. The merge loop of [loadConfig], under the deep strategy, for
    documents none of whose keys is a name inherited from
    [Object.prototype]: a scalar that one of the loaded documents gives
    to a key is the value of the key in the merged configuration when
    no document merged later defines the key.  Later files override
    earlier ones, and a file that does not mention a key leaves it
    alone. *)
Theorem mergeAll_last_wins fuel o h cs1 c cs2 k v :
  strategy_of o = deep ->
  pureMergers o ->
  customMergers_of o k = None ->
  unfiltered o k = true ->
  Forall (document fuel h) (cs1 ++ c :: cs2) ->
  get h c k = v ->
  is_scalar v = true ->
  Forall (fun c' => get h c' k = VUndefined) cs2 ->
  exists h' res,
    (let '(h3, mergedConfig) := alloc h (Obj []) in
     mergeAll fuel o (cs1 ++ c :: cs2) h3 mergedConfig) = Returns (h', res) /\
    h `prefix_of` h' /\
    get h' res k = v.
Proof.
  intros Hd Hpure Hcm Hu Hdocs Hv Hsc Hlater. unfold alloc.
  assert (Hp : h `prefix_of` h ++ [Obj []]) by by apply prefix_app_r.
  destruct (mergeAll_scalar fuel o (h ++ [Obj []]) (VRef (length h)) []
              cs1 c cs2 k v Hd Hpure Hcm Hu)
    as (h' & res & Hm & Hp' & Hget); try done.
  - simpl. by rewrite lookup_alloc.
  - eapply Forall_impl; [exact Hdocs|]. intros c0. by apply document_prefix.
  - apply Forall_app in Hdocs as [_ [(ps & Ho & _) _]%Forall_cons].
    rewrite (ownProps_get _ c ps k) by by eapply ownProps_prefix.
    by rewrite <- (ownProps_get h c ps k Ho).
  - apply Forall_app in Hdocs as [_ [_ Hdocs2]%Forall_cons].
    rewrite Forall_forall in Hdocs2, Hlater. apply Forall_forall.
    intros c' Hc'. destruct (Hdocs2 c' Hc') as (ps & Ho & _).
    rewrite (ownProps_get _ c' ps k) by by eapply ownProps_prefix.
    rewrite <- (ownProps_get h c' ps k Ho). by apply Hlater.
  - exists h', res. repeat split; try done. by etrans.
Qed.

Lemma mergeAll_last_wins_witness :
  let h := [Obj [("host", VStr "localhost"); ("port", VNum 80)];
            Obj [("port", VNum 8080)];
            Obj [("debug", VBool true)]] in
  exists h' res,
    (let '(h3, mergedConfig) := alloc h (Obj []) in
     mergeAll 1 defaultOptions ([VRef 0] ++ VRef 1 :: [VRef 2]) h3 mergedConfig)
      = Returns (h', res) /\
    h `prefix_of` h' /\
    get h' res "port" = VNum 8080.
Proof.
  cbv zeta.
  apply (mergeAll_last_wins 1 defaultOptions _ [VRef 0] (VRef 1) [VRef 2]
           "port" (VNum 8080)).
  - reflexivity.
  - intros k m H. discriminate H.
  - reflexivity.
  - reflexivity.
  - repeat constructor.
    + eexists. split; [reflexivity|]. split; [|reflexivity].
      apply NoDup_cons. split; [|apply NoDup_singleton].
      intros Hin. apply list_elem_of_singleton in Hin. discriminate Hin.
    + eexists. split; [reflexivity|]. split; [|reflexivity]. apply NoDup_singleton.
    + eexists. split; [reflexivity|]. split; [|reflexivity]. apply NoDup_singleton.
  - reflexivity.
  - reflexivity.
  - repeat constructor.
Defined.

(** *** [mergeConfigs] *)

Lemma mergeConfigs_from_app fuel cs1 cs2 : forall h acc,
  mergeConfigs_from fuel (cs1 ++ cs2) h acc =
  ('(h1, acc1) ← mergeConfigs_from fuel cs1 h acc;
   mergeConfigs_from fuel cs2 h1 acc1).
Proof.
  induction cs1 as [|c cs1 IH]; intros h acc; simpl; [done|].
  destruct (match c with Plain c0 => (h, c0) | Thunk f => f h end) as [h1 d].
  destruct (deepMergeHelper fuel h1 acc d) as [[h2 m]|e]; simpl; [|done].
  apply IH.
Qed.

(** One step of the loop of [mergeConfigs]: the definition is resolved
    and merged into the accumulator with the default options. *)
Lemma mergeConfigs_from_step fuel h0 c cs h acc k v :
  gives fuel h0 c k v ->
  h0 `prefix_of` h ->
  exists h1 d ps,
    h `prefix_of` h1 /\
    ownProps h1 d = Returns ps /\ NoDup (map fst ps) /\
    plainKeys fuel h1 d = true /\ get_prop ps k = v /\
    mergeConfigs_from fuel (c :: cs) h acc =
      ('(h2, m) ← deepMerge fuel h1 acc d defaultOptions;
       mergeConfigs_from fuel cs h2 m).
Proof.
  intros Hc Hp. destruct (Hc h Hp) as (Hp1 & (ps & Ho & Hnd & Hpl) & Hv).
  exists (resolved c h).1, (resolved c h).2, ps.
  repeat split; try done.
  - by rewrite <- (ownProps_get _ _ _ _ Ho).
  - cbn [mergeConfigs_from]. unfold resolved in *.
    destruct (match c with Plain c0 => (h, c0) | Thunk f => f h end) as [h1 d].
    simpl in *. by rewrite (deepMergeHelper_deepMerge fuel fuel h1 acc d Hpl).
Qed.

Lemma pure_defaultOptions : pureMergers defaultOptions.
Proof. intros k m H. discriminate H. Qed.

(** The loop returns a document of a store that extends the initial
    one; a key that no definition defines is bound in it as in the
    document the loop started from. *)
Lemma mergeConfigs_from_returns fuel h0 k cs : forall h acc ap,
  0 < fuel ->
  Forall (fun c => exists v, gives fuel h0 c k v) cs ->
  h0 `prefix_of` h ->
  ownProps h acc = Returns ap ->
  exists h' res rp,
    mergeConfigs_from fuel cs h acc = Returns (h', res) /\
    h `prefix_of` h' /\
    ownProps h' res = Returns rp /\
    (Forall (fun c => gives fuel h0 c k VUndefined) cs ->
     lookup_prop k rp = lookup_prop k ap).
Proof.
  pose proof pure_defaultOptions as Hpure.
  induction cs as [|c cs IH]; intros h acc ap Hpos Hdocs Hp Ha.
  - exists h, acc, ap. by repeat split.
  - apply Forall_cons in Hdocs as [[v Hc] Hdocs].
    destruct (mergeConfigs_from_step fuel h0 c cs h acc k v Hc Hp)
      as (h1 & d & ps & Hp1 & Ho & Hnd & Hpl & Hv & ->).
    pose proof (ownProps_prefix _ _ _ _ Hp1 Ha) as Ha1.
    destruct (deepMerge_returns defaultOptions fuel h1 acc d ap ps
                Hpure Hpos Hpl Ha1 Ho) as (h2 & m & Hm).
    pose proof (deepMerge_prefix defaultOptions fuel _ _ _ _ _ Hpure Hm) as Hp2.
    destruct (deepMerge_result fuel h1 acc d defaultOptions h2 m
                eq_refl Hpure Hm) as (-> & mp & Hmp).
    assert (Hmo : ownProps h2 (VRef (length h1)) = Returns mp).
    { simpl. by rewrite Hmp. }
    destruct (IH h2 (VRef (length h1)) mp Hpos Hdocs) as
      (h' & res & rp & Hall & Hp' & Hr & Hkeep); [|done|].
    { etrans; [exact Hp|]. by etrans. }
    exists h', res, rp. rewrite Hm. simpl. repeat split; try done.
    + etrans; [exact Hp1|]. by etrans.
    + intros [Hu Hus]%Forall_cons. rewrite (Hkeep Hus).
      destruct (mergeConfigs_from_step fuel h0 c cs h acc k VUndefined Hu Hp)
        as (h1' & d' & ps' & _ & Ho' & _ & Hpl' & Hv' & Heq').
      destruct (deepMerge_undefined_keeps fuel h1 acc d defaultOptions ap ps k
                  eq_refl Hpure Ha1 Ho Hpos Hpl)
        as (h3 & r3 & rp3 & Hm3 & Hr3 & Heq3).
      { destruct (Hu h Hp) as (_ & _ & Hget).
        destruct (Hc h Hp) as (_ & _ & Hget').
        rewrite Hget in Hget'. by subst v. }
      rewrite Hm in Hm3. injection Hm3 as <- <-. congruence.
Qed.

(** X18. [mergeConfigs] gives later configurations precedence.  For
    configurations, given as documents or as functions that return
    one, whose documents have no key that is a name inherited from
    [Object.prototype]: a scalar that one of the configurations gives
    to a key is the value of the key in the result when no
    configuration after it defines the key. *)
Theorem mergeConfigs_last_wins fuel h cs1 c cs2 k v :
  Forall (fun c' => exists v', gives fuel h c' k v') cs1 ->
  gives fuel h c k v ->
  is_scalar v = true ->
  Forall (fun c' => gives fuel h c' k VUndefined) cs2 ->
  exists h' res,
    mergeConfigs fuel (cs1 ++ c :: cs2) h = Returns (h', res) /\
    h `prefix_of` h' /\
    get h' res k = v.
Proof.
  intros Hdocs1 Hc Hsc Hlater. unfold mergeConfigs, alloc.
  pose proof pure_defaultOptions as Hpure.
  assert (Hp : h `prefix_of` h ++ [Obj []]) by by apply prefix_app_r.
  assert (Hpos : 0 < fuel).
  { destruct (Hc h (reflexivity h)) as (_ & (ps & Ho & _ & Hpl) & Hv).
    rewrite (ownProps_get _ _ _ _ Ho) in Hv. unfold get_prop in Hv.
    destruct (lookup_prop k ps) as [x|] eqn:Hk; simpl in Hv; [|by subst v].
    eapply shallower_props_pos; [by apply plainKeys_shallower|done|done]. }
  destruct (mergeConfigs_from_returns fuel h k cs1 (h ++ [Obj []])
              (VRef (length h)) [] Hpos Hdocs1 Hp)
    as (h1 & acc1 & ap1 & Hm1 & Hp1 & Ha1 & _).
  { simpl. by rewrite lookup_alloc. }
  assert (Hp01 : h `prefix_of` h1) by by etrans.
  destruct (mergeConfigs_from_step fuel h c cs2 h1 acc1 k v Hc Hp01)
    as (h2 & d & ps & Hp2 & Ho & Hnd & Hpl & Hv & Hstep).
  assert (Hk : lookup_prop k ps = Some v).
  { unfold get_prop in Hv. destruct (lookup_prop k ps); simpl in Hv; [by subst|].
    by subst v. }
  pose proof (ownProps_prefix _ _ _ _ Hp2 Ha1) as Ha2.
  destruct (deepMerge_scalar fuel h2 acc1 d defaultOptions ap1 ps k v)
    as (h3 & acc3 & Hm3 & Hget); try done.
  pose proof (deepMerge_prefix defaultOptions fuel _ _ _ _ _ Hpure Hm3) as Hp3.
  destruct (deepMerge_result fuel h2 acc1 d defaultOptions h3 acc3
              eq_refl Hpure Hm3) as (-> & ap3 & Hap3).
  assert (Ha3 : ownProps h3 (VRef (length h2)) = Returns ap3).
  { simpl. by rewrite Hap3. }
  destruct (mergeConfigs_from_returns fuel h k cs2 h3 (VRef (length h2)) ap3
              Hpos) as (h' & res & rp & Hm4 & Hp4 & Hr & Hkeep); [| |done|].
  { eapply Forall_impl; [exact Hlater|]. intros c' Hc'. by exists VUndefined. }
  { etrans; [exact Hp01|]. by etrans. }
  exists h', res. rewrite mergeConfigs_from_app, Hm1.
  cbn [mbind outcome_bind]. rewrite Hstep, Hm3.
  cbn [mbind outcome_bind]. repeat split; try done.
  - etrans; [exact Hp01|]. etrans; [exact Hp2|]. by etrans.
  - rewrite (ownProps_get h' res rp k Hr). unfold get_prop.
    rewrite (Hkeep Hlater). simpl in Hget. rewrite Hap3 in Hget. done.
Qed.

Lemma mergeConfigs_last_wins_witness :
  let h := [Obj [("host", VStr "localhost"); ("port", VNum 80)];
            Obj [("debug", VBool true)]] in
  let fromEnv : heap -> heap * value :=
    fun h => alloc h (Obj [("port", VNum 8080)]) in
  exists h' res,
    mergeConfigs 1 ([Plain (VRef 0)] ++ Thunk fromEnv :: [Plain (VRef 1)]) h
      = Returns (h', res) /\
    h `prefix_of` h' /\
    get h' res "port" = VNum 8080.
Proof.
  cbv zeta.
  apply (mergeConfigs_last_wins 1 _ [Plain (VRef 0)]
           (Thunk (fun h => alloc h (Obj [("port", VNum 8080)])))
           [Plain (VRef 1)] "port" (VNum 8080)).
  - constructor; [|constructor]. exists (VNum 80). intros h0 Hp.
    assert (Hl : h0 !! 0 = Some (Obj [("host", VStr "localhost"); ("port", VNum 80)])).
    { eapply prefix_lookup_Some; [|exact Hp]. reflexivity. }
    unfold document. simpl. rewrite Hl. simpl.
    split; [reflexivity|]. split; [|reflexivity].
    eexists. split; [reflexivity|]. split; [|reflexivity].
    apply NoDup_cons. split; [|apply NoDup_singleton].
    intros Hin. apply list_elem_of_singleton in Hin. discriminate Hin.
  - intros h0 Hp. unfold document. simpl. rewrite lookup_alloc. simpl.
    split; [by apply prefix_app_r|]. split; [|reflexivity].
    eexists. split; [reflexivity|]. split; [apply NoDup_singleton|reflexivity].
  - reflexivity.
  - constructor; [|constructor]. intros h0 Hp.
    assert (Hl : h0 !! 1 = Some (Obj [("debug", VBool true)])).
    { eapply prefix_lookup_Some; [|exact Hp]. reflexivity. }
    unfold document. simpl. rewrite Hl. simpl.
    split; [reflexivity|]. split; [|reflexivity].
    eexists. split; [reflexivity|]. split; [apply NoDup_singleton|reflexivity].
Defined.

End MergeSequence.

(* ================================================================= *)
(** ** The loader: what a loaded configuration guarantees *)

Module LoaderValidation.
Import Validate SchemaFrame Loader.
Import JSFacts GrowthFacts ValidateFacts ValidateProperties ValidateMore.

(** The outcome of a call of [validateValue] that pushes no error, for
    a required rule without transform: the value itself or the
    validated children, never null or absent. *)
Lemma validateValue_accepts_out r h errs v key path h' out :
  pureRule r ->
  required r = true ->
  transform r = None ->
  validateValue r h errs v key path = Returns (h', errs, out) ->
  out <> VUndefined /\ out <> VNull.
Proof.
  destruct r as [ty req def vd tr ch]. simpl.
  intros [_ Hch] -> ->. simpl.
  destruct (is_undefined v || is_null v) eqn:Hv.
  { intros [= _ H _]. by apply app_cons_neq in H. }
  assert (Hu : is_undefined v = false) by by destruct v.
  rewrite Hu. simpl.
  destruct (match ty with Some _ => _ | None => _ end);
    [intros [= _ H _]; by apply app_cons_neq in H|].
  destruct (match vd with Some _ => _ | None => _ end);
    [intros [= _ H _]; by apply app_cons_neq in H|].
  destruct ch as [cs|]; [|intros [= _ <-]; by destruct v].
  destruct (_ && _); [|intros [= _ <-]; by destruct v].
  destruct (validateConfig_body _ h v) as [[h2 cr]|e] eqn:Hbody; simpl;
    [|done].
  intros [= _ _ <-].
  destruct (validateConfig_prefix h v cs h2 cr Hch Hbody) as [_ ->]. done.
Qed.

Lemma validateConfig_returns_props h config schema h' res :
  validateConfig h config schema = Returns (h', res) ->
  exists cps, ownProps h config = Returns cps.
Proof.
  unfold validateConfig, validateConfig_body.
  destruct (ownProps h config) as [cps|e]; [by exists cps|done].
Qed.

(** In a valid result every required key whose rule has no transform
    has a value that is neither absent nor null. *)
Lemma validateConfig_valid_required h config schema h' res k r :
  pureSchema schema ->
  NoDup (schema_keys schema) ->
  (k, r) ∈ schema_entries schema ->
  required r = true ->
  transform r = None ->
  validateConfig h config schema = Returns (h', res) ->
  isValid res = true ->
  get h' (validated res) k <> VUndefined /\ get h' (validated res) k <> VNull.
Proof.
  intros Hs Hnd Hin Hreq Htr Hv Hvalid.
  destruct (validateConfig_returns_props _ _ _ _ _ Hv) as [cps Ho].
  destruct (validateConfig_at_key h config cps schema k r Hs Hnd Hin Ho)
    as (h2 & res2 & vp & ha & ea & hb & eb & out & Hv2 & Hval & Hvp & Hcall
        & Heb & Hout).
  { by rewrite Hv. }
  rewrite Hv in Hv2. injection Hv2 as <- <-.
  assert (Herrs : errors res = []).
  { unfold validateConfig, validateConfig_body in Hv. rewrite Ho in Hv.
    simpl in Hv.
    destruct (validateEntries schema _ _ _ _) as [[h3 errs]|e]; simpl in Hv;
      [|done].
    injection Hv as <- <-. simpl in *.
    apply bool_decide_eq_true in Hvalid. by apply nil_length_inv. }
  rewrite Herrs in Heb. apply prefix_nil_inv in Heb as ->.
  pose proof (validateValue_errors _ _ _ _ _ _ _ _ _ Hcall) as Hea.
  apply prefix_nil_inv in Hea as ->.
  assert (Hr : pureRule r).
  { clear -Hs Hin. induction schema as [|key r' rest IH]; simpl in *.
    - by apply elem_of_nil in Hin.
    - destruct Hs as [Hr' Hrest].
      change ((k, r) ∈ (key, r') :: schema_entries rest) in Hin.
      apply elem_of_cons in Hin as [[= -> ->]|Hin]; [done|by apply IH]. }
  rewrite Hval. simpl. rewrite Hvp, Hout.
  by eapply validateValue_accepts_out.
Qed.

(** The call of [validateValue] made for an entry of a schema with
    distinct keys: it runs in a store that extends the initial one, and
    its outcome is the value of the key in the validated document. *)
Lemma validateEntries_outcome s k r : forall h0 h errs config cps vl vp h' errs',
  pureSchema s ->
  NoDup (schema_keys s) ->
  (k, r) ∈ schema_entries s ->
  ownProps h0 config = Returns cps ->
  h0 `prefix_of` h -> length h0 <= vl ->
  h !! vl = Some (Obj vp) ->
  validateEntries s h errs config vl = Returns (h', errs') ->
  exists ha ea hb eb out vp',
    h0 `prefix_of` ha /\
    validateValue r ha ea (get_prop cps k) k k = Returns (hb, eb, out) /\
    eb `prefix_of` errs' /\
    h' !! vl = Some (Obj vp') /\
    lookup_prop k vp' = Some out.
Proof.
  induction s as [|key r' rest IH];
    intros h0 h errs config cps vl vp h' errs' Hs Hnd Hin Ho Hp Hvl Hcell; simpl.
  - by apply elem_of_nil in Hin.
  - destruct Hs as [Hr Hrest].
    change (NoDup (key :: schema_keys rest)) in Hnd.
    change ((k, r) ∈ (key, r') :: schema_entries rest) in Hin.
    apply NoDup_cons in Hnd as [Hfresh Hnd].
    destruct (member_ownProps _ _ _ _ key Ho Hp) as [-> | ->]; simpl; [|done].
    destruct (validateValue r' h errs _ key key) as [[[h1 errs1] out]|e] eqn:Hv;
      simpl; [|done].
    intros Hrec.
    assert (Hp1 : h `prefix_of` h1) by by eapply validateValue_prefix.
    assert (Hvl1 : h1 !! vl = Some (Obj vp)).
    { rewrite (prefix_lookup_lt h h1); [done|done|by eapply lookup_lt_Some]. }
    pose proof (assign_lookup_eq _ _ key out _ Hvl1) as Hcell1.
    apply elem_of_cons in Hin as [[= -> ->]|Hin].
    + destruct (validateEntries_keeps _ _ _ _ _ _ _ _ Hrest Hcell1 Hrec)
        as (vp' & Hvp' & Heq).
      exists h, errs, h1, errs1, out, vp'. repeat split; try done.
      * by eapply validateEntries_errors.
      * rewrite Heq by done. apply lookup_set_prop_eq.
    + apply (IH h0 (assign h1 vl key out) errs1 config cps vl
                 (set_prop vp key out) h' errs'); try done.
      apply assign_prefix; [|done]. by etrans.
Qed.

(** The outcome of a call that pushes no error, for a present value and
    a rule without children: the value after the rule's transform. *)
Lemma validateValue_accepts_value r h errs v key path h' out :
  v <> VUndefined ->
  children r = None ->
  validateValue r h errs v key path = Returns (h', errs, out) ->
  out = (transformed r h v).2.
Proof.
  destruct r as [ty req def vd tr ch]. unfold transformed. simpl.
  intros Hv ->.
  destruct (req && _); [intros [= _ H _]; by apply app_cons_neq in H|].
  assert (Hu : is_undefined v = false) by by destruct v.
  rewrite Hu. simpl.
  destruct (match tr with Some f => f h v | None => (h, v) end) as [h1 v1].
  destruct (match ty with Some _ => _ | None => _ end);
    [intros [= _ H _]; by apply app_cons_neq in H|].
  destruct (match vd with Some _ => _ | None => _ end);
    [intros [= _ H _]; by apply app_cons_neq in H|].
  by intros [= _ <-].
Qed.

(** X30. In a configuration that [validateConfig] reports as valid,
    the validated document holds, at each key of the schema whose rule
    has no children and whose value is present, the value after the
    rule's transform (the value itself when the rule has none): what
    the checks accepted is what is stored. *)
Theorem validateConfig_stores_transformed h config cps schema h' res k r :
  pureSchema schema ->
  NoDup (schema_keys schema) ->
  (k, r) ∈ schema_entries schema ->
  children r = None ->
  ownProps h config = Returns cps ->
  get_prop cps k <> VUndefined ->
  validateConfig h config schema = Returns (h', res) ->
  isValid res = true ->
  exists ha,
    h `prefix_of` ha /\
    get h' (validated res) k = (transformed r ha (get_prop cps k)).2.
Proof.
  intros Hs Hnd Hin Hch Ho Hdef Hv Hvalid.
  unfold validateConfig, validateConfig_body in Hv. rewrite Ho in Hv.
  simpl in Hv.
  destruct (validateEntries schema _ _ _ _) as [[h2 errs]|e] eqn:He;
    simpl in Hv; [|done].
  injection Hv as <- <-. simpl in Hvalid.
  apply bool_decide_eq_true in Hvalid. apply nil_length_inv in Hvalid as ->.
  destruct (validateEntries_outcome schema k r h (h ++ [Obj cps]) [] config cps
              (length h) cps h2 [] Hs Hnd Hin Ho)
    as (ha & ea & hb & eb & out & vp' & Hpa & Hcall & Heb & Hvp & Hout);
    [by apply prefix_app_r|done|apply lookup_alloc|done|].
  apply prefix_nil_inv in Heb as ->.
  pose proof (validateValue_errors _ _ _ _ _ _ _ _ _ Hcall) as Hea.
  apply prefix_nil_inv in Hea as ->.
  exists ha. split; [done|]. simpl. rewrite Hvp. unfold get_prop. rewrite Hout.
  simpl. by eapply validateValue_accepts_value.
Qed.

Lemma validateConfig_stores_transformed_witness :
  let h := [Obj [("port", VStr "8080")]] in
  let toNumber : heap -> value -> heap * value := fun h v =>
    (h, match v with VStr "8080" => VNum 8080 | VNum n => VNum n | _ => VNum 0 end) in
  let r := mkRule (Some TNumber) true VUndefined None (Some toNumber) None in
  let schema := SCons "port" r SNil in
  exists h' res ha,
    validateConfig h (VRef 0) schema = Returns (h', res) /\
    h `prefix_of` ha /\
    get h' (validated res) "port"
      = (transformed r ha (get_prop [("port", VStr "8080")] "port")).2.
Proof.
  intros h toNumber r schema.
  assert (exists h' res, validateConfig h (VRef 0) schema = Returns (h', res)
                         /\ isValid res = true)
    as (h' & res & Hv & Hvalid).
  { vm_compute. by eexists _, _. }
  destruct (validateConfig_stores_transformed h (VRef 0)
              [("port", VStr "8080")] schema h' res "port" r)
    as (ha & Hpa & Hget); try done.
  - apply NoDup_singleton.
  - left.
  - by exists h', res, ha.
Defined.

Lemma bind_Normal {A B} (m : completion A) (f : A -> completion B) b :
  m ≫= f = Normal b -> exists a, m = Normal a /\ f a = Normal b.
Proof. destruct m as [a|e]; [|done]. intros H. by exists a. Qed.

Lemma validateLoaded_valid s h merged h' cfg :
  validateLoaded (Some s) h merged = Normal (h', cfg) ->
  exists res,
    validateConfig h merged s = Returns (h', res) /\
    isValid res = true /\ cfg = validated res.
Proof.
  unfold validateLoaded.
  destruct (validateConfig h merged s) as [[h1 res]|e]; simpl; [|done].
  destruct (isValid res) eqn:Hvalid; [|done].
  intros [= <- <-]. by exists res.
Qed.

(** X19. A configuration that [loadConfig] returns when a validation
    schema is set has, for every required key of the schema whose rule
    has no transform, a value that is neither absent nor null: an
    invalid configuration is never returned, whatever the files hold. *)
Theorem loadConfig_required_present fs parse configName configDir o fuel h env
    h' res s k r :
  loadConfig fs parse configName configDir o fuel h env = Normal (h', res) ->
  validationSchema o = Some s ->
  pureSchema s ->
  NoDup (schema_keys s) ->
  (k, r) ∈ schema_entries s ->
  required r = true ->
  transform r = None ->
  get h' (config res) k <> VUndefined /\ get h' (config res) k <> VNull.
Proof.
  intros Hload Hschema Hs Hnd Hin Hreq Htr.
  unfold loadConfig in Hload. cbv zeta in Hload. rewrite Hschema in Hload.
  assert (exists hv merged cfg,
            validateLoaded (Some s) hv merged = Normal (h', cfg) /\
            config res = cfg) as (hv & merged & cfg & Hval & ->).
  { destruct (bool_decide _) in Hload.
    - unfold alloc in Hload.
      apply bind_Normal in Hload as ([h2 cfg] & Hval & [= <- <-]).
      by eexists _, _, _.
    - apply bind_Normal in Hload as ([h1 cs1] & _ & Hload).
      apply bind_Normal in Hload as ([h2 cs2] & _ & Hload).
      unfold alloc in Hload.
      apply bind_Normal in Hload as ([h4 merged] & _ & Hload).
      apply bind_Normal in Hload as ([h5 cfg] & Hval & [= <- <-]).
      by eexists _, _, _. }
  destruct (validateLoaded_valid _ _ _ _ _ Hval) as (v & Hv & Hvalid & ->).
  by eapply validateConfig_valid_required.
Qed.

Lemma loadConfig_required_present_witness :
  let fs : Discovery.filesystem := fun p =>
    if decide (p = "/cfg/app.config.json") then Some 1%Z else None in
  let parse : parser := fun h p =>
    Some (h ++ [Obj [("port", VNum 8080)]], VRef (length h)) in
  let r := mkRule (Some TNumber) true VUndefined None None None in
  let s := SCons "port" r SNil in
  let o := {| extensions := [Discovery.F_json];
              mergeOptions := Merge.defaultOptions;
              validationSchema := Some s;
              templates := [];
              transformers := [] |} in
  exists h' res,
    loadConfig fs parse "app" "/cfg" o 1 [] None = Normal (h', res) /\
    get h' (config res) "port" <> VUndefined /\
    get h' (config res) "port" <> VNull.
Proof.
  intros fs parse r s o.
  assert (exists h' res,
            loadConfig fs parse "app" "/cfg" o 1 [] None = Normal (h', res))
    as (h' & res & Hload).
  { vm_compute. by eexists _, _. }
  exists h', res. split; [exact Hload|].
  apply (loadConfig_required_present fs parse "app" "/cfg" o 1 [] None
           h' res s "port" r Hload).
  - reflexivity.
  - simpl. tauto.
  - apply NoDup_singleton.
  - left.
  - reflexivity.
  - reflexivity.
Defined.

End LoaderValidation.

(* ================================================================= *)
(** ** Right bias at nested keys *)

Module NestedMerge.
Import Merge Frame Paths.
Import JSFacts MergeFacts GrowthFacts MergeTotal MergeKeyFacts MergeProperties.
Import MergeMore MergeSequence.

Lemma get_path_undefined h path : get_path h VUndefined path = VUndefined.
Proof. induction path as [|k path IH]; [done|]. simpl. apply IH. Qed.

(** A path that leads to a defined value starts at a mapping. *)
Lemma get_path_mapping h x k path v :
  get_path h x (k :: path) = v -> v <> VUndefined ->
  exists l ps, x = VRef l /\ h !! l = Some (Obj ps).
Proof.
  simpl. intros Hp Hv.
  destruct x as [| | | | |l];
    try (simpl in Hp; rewrite get_path_undefined in Hp; congruence).
  simpl in Hp. destruct (h !! l) as [[ps|xs]|] eqn:Hl;
    try (rewrite get_path_undefined in Hp; congruence).
  by exists l, ps.
Qed.

(** A path to a defined value reads only the objects it goes through:
    it gives the same value in every store that holds them. *)
Lemma get_path_agree (h0 h : heap) path : forall x v,
  (forall l, l < length h0 -> h !! l = h0 !! l) ->
  get_path h0 x path = v -> v <> VUndefined ->
  get_path h x path = v.
Proof.
  induction path as [|k path IH]; intros x v Hagree Hp Hv; [done|].
  destruct (get_path_mapping _ _ _ _ _ Hp Hv) as (l & ps & -> & Hl).
  simpl in *. rewrite Hl in Hp.
  rewrite Hagree by by eapply lookup_lt_Some. rewrite Hl.
  by apply IH.
Qed.

Lemma scalar_defined v : is_scalar v = true -> v <> VUndefined.
Proof. by destruct v. Qed.

(** The merged document at a path of [source] that ends in a scalar,
    read in any store that agrees with the final one on the objects of
    the initial store [h0] and on those the merge allocated. *)
Lemma deepMerge_path o k path : forall fuel h0 h target source tp v,
  strategy_of o = deep ->
  pureMergers o ->
  Forall (fun k => unfiltered o k = true /\ customMergers_of o k = None)
    (k :: path) ->
  distinct_keys h0 ->
  h0 `prefix_of` h ->
  ownProps h target = Returns tp ->
  plainKeys fuel h0 source = true ->
  get_path h0 source (k :: path) = v ->
  is_scalar v = true ->
  exists h' res,
    deepMerge fuel h target source o = Returns (h', res) /\
    forall h'',
      (forall l, l < length h0 \/ length h <= l < length h' ->
         h'' !! l = h' !! l) ->
      get_path h'' res (k :: path) = v.
Proof.
  revert k. induction path as [|k2 path IH];
    intros k fuel h0 h target source tp v Hd Hpure Hkeys Hdist Hp0 Ht Hsh Hpath
      Hsc.
  - (* the last key *)
    pose proof (scalar_defined _ Hsc) as Hv.
    destruct (get_path_mapping _ _ _ _ _ Hpath Hv) as (ls & sp & -> & Hls).
    apply Forall_cons in Hkeys as [[Hu Hcm] _].
    assert (Hs : ownProps h (VRef ls) = Returns sp).
    { simpl. rewrite (prefix_lookup_lt h0 h); [by rewrite Hls|done|].
      by eapply lookup_lt_Some. }
    simpl in Hpath. rewrite Hls in Hpath.
    assert (Hk : lookup_prop k sp = Some v).
    { unfold get_prop in Hpath. destruct (lookup_prop k sp); simpl in Hpath;
        congruence. }
    destruct (deepMerge_scalar fuel h target (VRef ls) o tp sp k v Hd Hpure Ht Hs)
      as (h' & res & Hm & Hget); try done.
    { by eapply Hdist. }
    { by eapply plainKeys_prefix. }
    exists h', res. split; [done|]. intros h'' Hagree.
    destruct (deepMerge_result _ _ _ _ _ _ _ (deep_is_deepLike o Hd) Hpure Hm)
      as (-> & rp & Hrp).
    simpl in *. rewrite Hagree; [done|]. right.
    split; [done|]. by eapply lookup_lt_Some.
  - (* a key on the way *)
    pose proof (scalar_defined _ Hsc) as Hv.
    destruct (get_path_mapping _ _ _ _ _ Hpath Hv) as (ls & sp & -> & Hls).
    pose proof Hkeys as [[Hu Hcm] Hkeys']%Forall_cons.
    assert (Hs : ownProps h (VRef ls) = Returns sp).
    { simpl. rewrite (prefix_lookup_lt h0 h); [by rewrite Hls|done|].
      by eapply lookup_lt_Some. }
    assert (Hs0 : ownProps h0 (VRef ls) = Returns sp) by (simpl; by rewrite Hls).
    pose proof (Hdist _ _ Hls) as Hnd.
    change (get_path h0 (get h0 (VRef ls) k) (k2 :: path) = v) in Hpath.
    rewrite (ownProps_get h0 _ sp k Hs0) in Hpath.
    set (sv := get_prop sp k) in *.
    destruct (get_path_mapping _ _ _ _ _ Hpath Hv) as (lv & svp & Hsv & Hlv).
    assert (Hk : lookup_prop k sp = Some sv).
    { unfold sv, get_prop in *. destruct (lookup_prop k sp); [done|].
      simpl in Hsv. done. }
    pose proof (shallower_props_pos _ _ _ _ _ _
                  (plainKeys_shallower _ _ _ Hsh) Hs0 Hk) as Hpos.
    assert (Hin : inherited k = false).
    { eapply plainKeys_key; [exact Hsh|exact Hs0|].
      by eapply lookup_prop_Some_key. }
    destruct (deepMerge_returns o fuel h target (VRef ls) tp sp Hpure Hpos)
      as (h' & res & Hm); try done.
    { by eapply plainKeys_prefix. }
    exists h', res. split; [done|]. intros h'' Hagree.
    destruct fuel as [|fuel]; [lia|].
    destruct (deepMerge_at_key o fuel h target (VRef ls) tp sp k h' res
                (deep_is_deepLike o Hd) Hpure Ht Hs Hnd
                (lookup_prop_Some_key _ _ _ Hk) Hm)
      as (-> & ha & hb & rpa & Hpa & Hra & Heqa & Hkb & Hst & Hafter).
    pose proof (deepMerge_prefix o (S fuel) _ _ _ _ _ Hpure Hm) as Hp'.
    assert (Hp0a : h0 `prefix_of` ha) by by etrans.
    assert (Hgs : get ha (VRef ls) k = sv).
    { rewrite (ownProps_get ha _ sp k); [done|]. by eapply ownProps_prefix. }
    assert (Hsva : ha !! lv = Some (Obj svp)).
    { rewrite (prefix_lookup_lt h0 ha); [done|done|]. by eapply lookup_lt_Some. }
    assert (Hra_lt : length h < length ha) by by eapply lookup_lt_Some.
    rewrite mergeKey_unfiltered in Hkb by done. cbv zeta in Hkb.
    rewrite Hgs, Hcm in Hkb.
    assert (is_undefined sv = false) as Hund by by rewrite Hsv.
    assert (isArray ha sv = false) as Harr by (rewrite Hsv; simpl; by rewrite Hsva).
    assert (isPlainObject ha sv = true) as Hplain.
    { rewrite Hsv. unfold isPlainObject. simpl. by rewrite Hsva. }
    rewrite Hund, Harr, Hplain in Hkb. cbn [andb] in Hkb.
    set (tv := get ha (VRef (length h)) k) in *.
    change (get_path h'' (get h'' (VRef (length h)) k) (k2 :: path) = v).
    assert (Hres_cell : h'' !! length h = h' !! length h).
    { apply Hagree. right. split; [done|].
      destruct Hst as [Hlen _].
      destruct (isPlainObject ha tv);
        [destruct (deepMerge fuel ha tv sv o) as [[hx vx]|e] eqn:Hx;
         simpl in Hkb; [|done];
         pose proof (deepMerge_prefix o fuel _ _ _ _ _ Hpure Hx) as Hpx;
         apply prefix_length in Hpx|];
        injection Hkb as <-; rewrite assign_length in Hlen; lia. }
    destruct (isPlainObject ha tv) eqn:Htv.
    + (* both sides are mappings: the merge recurses *)
      destruct (isPlainObject_ownProps _ _ Htv) as [tvp Htvp].
      destruct (IH k2 fuel h0 ha tv sv tvp v Hd Hpure Hkeys' Hdist Hp0a Htvp)
        as (hx & vx & Hx & Hframe); try done.
      { by apply (plainKeys_get fuel h0 (VRef ls) sp k). }
      rewrite Hx in Hkb. simpl in Hkb. injection Hkb as <-.
      pose proof (deepMerge_prefix o fuel _ _ _ _ _ Hpure Hx) as Hpx.
      destruct (Hafter (set_prop rpa k vx)) as (rp' & Hr' & Heq').
      { apply assign_lookup_eq. rewrite (prefix_lookup_lt ha hx); [done|done|].
        by eapply lookup_lt_Some. }
      simpl. rewrite Hres_cell, Hr'. unfold get_prop.
      rewrite Heq', lookup_set_prop_eq. simpl.
      apply Hframe. intros l Hl.
      destruct Hst as [Hlen Hst]. rewrite assign_length in Hlen, Hst.
      apply prefix_length in Hpx. apply prefix_length in Hp0a.
      apply prefix_length in Hp0. 
      assert (l < length hx /\ l <> length h) as [Hlx Hlr] by lia.
      rewrite Hagree by lia. rewrite Hst by done.
      by apply assign_lookup_ne.
    + (* the target side is no mapping: the source mapping is written *)
      injection Hkb as <-.
      destruct (Hafter (set_prop rpa k sv)) as (rp' & Hr' & Heq').
      { by apply assign_lookup_eq. }
      simpl. rewrite Hres_cell, Hr'. unfold get_prop.
      rewrite Heq', lookup_set_prop_eq. simpl.
      apply (get_path_agree h0 h'' (k2 :: path) sv v); [|done|done].
      intros l Hl. rewrite Hagree by (by left).
      apply (prefix_lookup_lt h0 h'); [|done].
      etrans; [exact Hp0|exact Hp'].
Qed.

(** X20. Right bias holds at every depth.  Under the deep strategy,
    for a source none of whose keys is a name inherited from
    [Object.prototype] and a path of keys that leads through mappings
    of [source] to a scalar, each key of the path passing the filters and having no
    custom merger, the merged document has that scalar at the same
    path, whatever [target] holds there. *)
Theorem deepMerge_nested_right_biased fuel h target source o tp path v :
  strategy_of o = deep ->
  pureMergers o ->
  Forall (fun k => unfiltered o k = true /\ customMergers_of o k = None) path ->
  distinct_keys h ->
  ownProps h target = Returns tp ->
  plainKeys fuel h source = true ->
  path <> [] ->
  get_path h source path = v ->
  is_scalar v = true ->
  exists h' res,
    deepMerge fuel h target source o = Returns (h', res) /\
    get_path h' res path = v.
Proof.
  intros Hd Hpure Hkeys Hdist Ht Hsh Hne Hpath Hsc.
  destruct path as [|k path]; [done|].
  destruct (deepMerge_path o k path fuel h h target source tp v)
    as (h' & res & Hm & Hframe); try done.
  exists h', res. split; [done|]. by apply Hframe.
Qed.

Lemma deepMerge_nested_right_biased_witness :
  let h := [Obj [("port", VNum 5432); ("host", VStr "localhost")];
            Obj [("database", VRef 0); ("name", VStr "app")];
            Obj [("port", VNum 6543)];
            Obj [("database", VRef 2)]] in
  exists h' res,
    deepMerge 2 h (VRef 1) (VRef 3) defaultOptions = Returns (h', res) /\
    get_path h' res ["database"; "port"] = VNum 6543.
Proof.
  cbv zeta.
  apply (deepMerge_nested_right_biased 2 _ (VRef 1) (VRef 3) defaultOptions
           [("database", VRef 0); ("name", VStr "app")]
           ["database"; "port"] (VNum 6543)).
  - reflexivity.
  - intros k m H. discriminate H.
  - repeat constructor.
  - intros l ps Hl.
    do 4 (destruct l as [|l];
          [injection Hl as <-; repeat (apply NoDup_cons; split;
             [rewrite ?elem_of_cons, elem_of_nil; intros H;
              repeat (destruct H as [H|H]; try discriminate H); done|]);
           apply NoDup_nil_2|]).
    discriminate Hl.
  - reflexivity.
  - reflexivity.
  - discriminate.
  - reflexivity.
  - reflexivity.
Defined.

(** *** Filters at nested keys *)

(** A merge that returns binds a filtered key as its target does. *)
Lemma deepMerge_filtered_keeps fuel h target source o tp h' res k :
  deepLike (strategy_of o) = true ->
  pureMergers o ->
  ownProps h target = Returns tp ->
  unfiltered o k = false ->
  deepMerge fuel h target source o = Returns (h', res) ->
  res = VRef (length h) /\
  exists rp, h' !! length h = Some (Obj rp) /\
    lookup_prop k rp = lookup_prop k tp.
Proof.
  intros Hd Hpure Ht Hu Hm. destruct fuel as [|fuel]; [done|].
  rewrite deepMerge_deep in Hm by done. rewrite Ht in Hm. simpl in Hm.
  destruct (ownProps (h ++ [Obj tp]) source) as [sp|e]; [|done]. simpl in Hm.
  destruct (forIn _ _ _) as [h2|e] eqn:Hloop; simpl in Hm; [|done].
  injection Hm as <- <-. split; [done|].
  apply (forIn_keeps _ o source (length h) k _ _ _ tp Hpure
           (deepMerge_self_prefix o fuel Hpure) (fun _ => Hu)
           (lookup_alloc h (Obj tp)) Hloop).
Qed.

(** X29. The key filters apply at every depth.  Under the deep
    strategy, for a source none of whose keys is a name inherited from
    [Object.prototype], when a key passes the filters and both documents
    hold a mapping at it, the two mappings are merged with the same
    [skipKeys] and [onlyKeys]: a nested key that the filters reject
    keeps the value of [target]'s mapping, whatever [source]'s mapping
    holds there.  In particular, with [onlyKeys] naming only top-level
    keys, nothing inside a mapping of [source] reaches the result when
    [target] has a mapping at the same key. *)
Theorem deepMerge_filters_nested fuel h target source o tp sp k k2 sv tvp :
  strategy_of o = deep ->
  pureMergers o ->
  ownProps h target = Returns tp ->
  ownProps h source = Returns sp ->
  NoDup (map fst sp) ->
  plainKeys fuel h source = true ->
  unfiltered o k = true ->
  customMergers_of o k = None ->
  lookup_prop k sp = Some sv ->
  isPlainObject h sv = true ->
  isPlainObject h (get_prop tp k) = true ->
  ownProps h (get_prop tp k) = Returns tvp ->
  unfiltered o k2 = false ->
  exists h' res,
    deepMerge fuel h target source o = Returns (h', res) /\
    get_path h' res [k; k2] = get_prop tvp k2.
Proof.
  intros Hd Hpure Ht Hs Hnd Hsh Hu Hcm Hk Hsv Htv Htvp Hu2.
  pose proof (deep_is_deepLike o Hd) as Hdl.
  pose proof (shallower_props_pos _ _ _ _ _ _
                (plainKeys_shallower _ _ _ Hsh) Hs Hk) as Hpos.
  assert (Hin : inherited k = false).
  { eapply plainKeys_key; [exact Hsh|exact Hs|].
    by eapply lookup_prop_Some_key. }
  destruct (deepMerge_returns o fuel h target source tp sp)
    as (h' & res & Hm); try done.
  exists h', res. split; [done|].
  destruct fuel as [|fuel]; [lia|].
  destruct (deepMerge_at_key o fuel h target source tp sp k h' res
              Hdl Hpure Ht Hs Hnd (lookup_prop_Some_key _ _ _ Hk) Hm)
    as (-> & ha & hb & rpa & Hpa & Hra & Heqa & Hkb & Hst & Hafter).
  assert (Hgs : get ha source k = sv).
  { rewrite (ownProps_get ha _ sp k) by by eapply ownProps_prefix.
    unfold get_prop. by rewrite Hk. }
  assert (Hgt : get ha (VRef (length h)) k = get_prop tp k).
  { simpl. rewrite Hra. unfold get_prop. by rewrite Heqa. }
  destruct (isPlainObject_ownProps _ _ Hsv) as [svp Hsvp].
  assert (Hplain : forall v ps, isPlainObject h v = true ->
            ownProps h v = Returns ps ->
            isPlainObject ha v = true /\ isArray ha v = false).
  { intros v ps Hv Hps. unfold isPlainObject in *.
    destruct v as [| | | | |l]; try done. simpl in *.
    destruct (h !! l) as [[ps0|xs]|] eqn:Hl; try done.
    rewrite (prefix_lookup_lt h ha); [by rewrite Hl|done|].
    by eapply lookup_lt_Some. }
  destruct (Hplain sv svp Hsv Hsvp) as [Hsva Hsarr].
  destruct (Hplain _ tvp Htv Htvp) as [Htva _].
  rewrite mergeKey_unfiltered in Hkb by done. cbv zeta in Hkb.
  rewrite Hgs, Hgt, Hcm in Hkb.
  assert (is_undefined sv = false) as Hund by by destruct sv.
  rewrite Hund, Hsarr, Hsva, Htva in Hkb. cbn [andb] in Hkb.
  destruct (deepMerge fuel ha (get_prop tp k) sv o) as [[hx vx]|e] eqn:Hx;
    simpl in Hkb; [|done].
  injection Hkb as <-.
  pose proof (deepMerge_prefix o fuel _ _ _ _ _ Hpure Hx) as Hpx.
  destruct (deepMerge_filtered_keeps fuel ha (get_prop tp k) sv o tvp hx vx k2
              Hdl Hpure) as (-> & rpx & Hrpx & Heqx); try done.
  { by eapply ownProps_prefix. }
  destruct (Hafter (set_prop rpa k (VRef (length ha)))) as (rp' & Hr' & Heq').
  { apply assign_lookup_eq. rewrite (prefix_lookup_lt ha hx); [done|done|].
    by eapply lookup_lt_Some. }
  assert (Hra_lt : length h < length ha) by by eapply lookup_lt_Some.
  assert (Hcell : h' !! length ha = Some (Obj rpx)).
  { destruct Hst as [_ Hst]. rewrite Hst.
    - rewrite assign_lookup_ne by lia. done.
    - rewrite assign_length. by eapply lookup_lt_Some.
    - lia. }
  simpl. rewrite Hr'. unfold get_prop at 1. rewrite Heq', lookup_set_prop_eq.
  simpl. rewrite Hcell. unfold get_prop. by rewrite Heqx.
Qed.

Lemma deepMerge_filters_nested_witness :
  let h := [Obj [("port", VNum 5432); ("host", VStr "localhost")];
            Obj [("database", VRef 0)];
            Obj [("port", VNum 6543)];
            Obj [("database", VRef 2)]] in
  let o := opts None None (Some ["database"]) in
  exists h' res,
    deepMerge 2 h (VRef 1) (VRef 3) o = Returns (h', res) /\
    get_path h' res ["database"; "port"]
      = get_prop [("port", VNum 5432); ("host", VStr "localhost")] "port".
Proof.
  cbv zeta.
  apply (deepMerge_filters_nested 2 _ (VRef 1) (VRef 3) _
           [("database", VRef 0)] [("database", VRef 2)] "database" "port"
           (VRef 2) [("port", VNum 5432); ("host", VStr "localhost")]).
  - reflexivity.
  - intros k m H. discriminate H.
  - reflexivity.
  - reflexivity.
  - apply NoDup_singleton.
  - reflexivity.
  - reflexivity.
  - reflexivity.
  - reflexivity.
  - reflexivity.
  - reflexivity.
  - reflexivity.
  - reflexivity.
Defined.

End NestedMerge.

(* ================================================================= *)
(** ** [createConfigSchema]: the validator of [define-config.ts] *)

Module SchemaValidator.
Import Validate SchemaFrame Loader.
Import JSFacts GrowthFacts ValidateFacts MergeVariantFacts ValidateMore.
Import LoaderValidation.

(** What one iteration does to the object under construction, when it
    does not throw. *)
Lemma validateField_result key rules h l cps rp h1 :
  h !! l = Some (Obj cps) ->
  DefineConfig.validateField key rules (h ++ [Obj rp]) (VRef l) (length h) = Normal h1 ->
  (h1 = h ++ [Obj rp] /\ get_prop cps key = VUndefined) \/
  (exists v, h1 = h ++ [Obj (set_prop rp key v)] /\
     (v = get_prop cps key \/
      (get_prop cps key = VUndefined /\ v = DefineConfig.default rules))).
Proof.
  intros Hl. unfold DefineConfig.validateField.
  rewrite (member_mapping h (h ++ [Obj rp]) l cps key Hl)
    by by apply prefix_app_r.
  simpl.
  destruct (DefineConfig.required rules && _); [done|].
  destruct (is_undefined (get_prop cps key)) eqn:Hu; simpl.
  - assert (get_prop cps key = VUndefined) as Hv
      by by destruct (get_prop cps key).
    destruct (negb _); intros [= <-].
    + right. eexists. split; [apply assign_alloc|]. by right.
    + by left.
  - destruct (bool_decide _); [done|].
    destruct (match DefineConfig.validator rules with
              | Some _ => _ | None => _ end); [done|].
    intros [= <-]. right. eexists. split; [apply assign_alloc|]. by left.
Qed.

Lemma validateFields_result schema : forall h l cps rp h',
  h !! l = Some (Obj cps) ->
  DefineConfig.validateFields schema (h ++ [Obj rp]) (VRef l) (length h) = Normal h' ->
  exists rp',
    h' = h ++ [Obj rp'] /\
    forall k v, lookup_prop k rp' = Some v ->
      lookup_prop k rp = Some v \/
      exists rules, (k, rules) ∈ schema /\
        (v = get_prop cps k \/
         (get_prop cps k = VUndefined /\ v = DefineConfig.default rules)).
Proof.
  induction schema as [|[key rules] rest IH]; intros h l cps rp h' Hl; simpl.
  - intros [= <-]. exists rp. split; [done|]. intros k v Hk. by left.
  - intros Hv. apply bind_Normal in Hv as (h1 & Hfield & Hrest).
    destruct (validateField_result _ _ _ _ _ _ _ Hl Hfield)
      as [[-> Hu]|(v0 & -> & Hv0)].
    + destruct (IH _ _ _ _ _ Hl Hrest) as (rp' & -> & Hrp').
      exists rp'. split; [done|]. intros k v Hk.
      destruct (Hrp' k v Hk) as [?|(rules' & Hin & ?)]; [by left|].
      right. exists rules'. split; [by right|done].
    + destruct (IH _ _ _ _ _ Hl Hrest) as (rp' & -> & Hrp').
      exists rp'. split; [done|]. intros k v Hk.
      destruct (Hrp' k v Hk) as [Hold|(rules' & Hin & ?)].
      * destruct (decide (k = key)) as [->|Hne].
        -- rewrite lookup_set_prop_eq in Hold. injection Hold as <-.
           right. exists rules. split; [left|done].
        -- rewrite lookup_set_prop_ne in Hold by done. by left.
      * right. exists rules'. split; [by right|done].
Qed.

(** X23. The validator made by [createConfigSchema] returns only what
    the schema names: the configuration it returns is a new object
    whose keys are keys of the schema, each holding the value the
    configuration has at the key or, when it has none, the default of
    the rule.  Unlike [validateConfig], it drops every other key of the
    configuration, which is itself left as it was. *)
Theorem validate_only_schema_keys schema h l cps h' res :
  h !! l = Some (Obj cps) ->
  DefineConfig.validate schema h (VRef l) = Normal (h', res) ->
  exists rp,
    res = VRef (length h) /\ h' = h ++ [Obj rp] /\
    forall k v, lookup_prop k rp = Some v ->
      exists rules, (k, rules) ∈ schema /\
        (v = get_prop cps k \/
         (get_prop cps k = VUndefined /\ v = DefineConfig.default rules)).
Proof.
  intros Hl. unfold DefineConfig.validate, alloc.
  intros Hv. apply bind_Normal in Hv as (h2 & Hfields & [= <- <-]).
  destruct (validateFields_result _ _ _ _ _ _ Hl Hfields) as (rp & -> & Hrp).
  exists rp. repeat split. intros k v Hk.
  by destruct (Hrp k v Hk) as [?|?].
Qed.

Lemma validate_only_schema_keys_witness :
  let h := [Obj [("port", VNum 8080); ("extra", VStr "kept?")]] in
  let port := {| DefineConfig.type := TNumber; DefineConfig.required := true;
                 DefineConfig.default := VUndefined;
                 DefineConfig.validator := None |} in
  let host := {| DefineConfig.type := TString; DefineConfig.required := false;
                 DefineConfig.default := VStr "localhost";
                 DefineConfig.validator := None |} in
  let schema := [("port", port); ("host", host)] in
  exists h' res rp,
    DefineConfig.validate schema h (VRef 0) = Normal (h', res) /\
    res = VRef (length h) /\ h' = h ++ [Obj rp] /\
    lookup_prop "extra" rp = None /\
    forall k v, lookup_prop k rp = Some v ->
      exists rules, (k, rules) ∈ schema /\
        (v = get_prop [("port", VNum 8080); ("extra", VStr "kept?")] k \/
         (get_prop [("port", VNum 8080); ("extra", VStr "kept?")] k = VUndefined /\
          v = DefineConfig.default rules)).
Proof.
  intros h port host schema.
  assert (exists h' res, DefineConfig.validate schema h (VRef 0) = Normal (h', res))
    as (h' & res & Hv).
  { vm_compute. by eexists _, _. }
  destruct (validate_only_schema_keys schema h 0
              [("port", VNum 8080); ("extra", VStr "kept?")] h' res eq_refl Hv)
    as (rp & Hres & Hh' & Hrp).
  exists h', res, rp. repeat split; try done.
  destruct (lookup_prop "extra" rp) as [v|] eqn:Hextra; [|done].
  destruct (Hrp _ _ Hextra) as (rules & Hin & _).
  apply elem_of_cons in Hin as [Hin|Hin]; [discriminate Hin|].
  apply list_elem_of_singleton in Hin. discriminate Hin.
Defined.

(** *** [validate] and [validateConfig] *)



Lemma toSchema_keys schema : schema_keys (DefineConfig.toSchema schema) = map fst schema.
Proof.
  induction schema as [|[key rules] rest IH]; [done|].
  unfold schema_keys in *. simpl. by rewrite IH.
Qed.






End SchemaValidator.

(* ================================================================= *)
(** ** [transformMerge] *)

Module TransformFacts.
Import Merge Frame MergeVariants Transform Paths.
Import JSFacts MergeFacts GrowthFacts MergeTotal MergeKeyFacts MergeProperties.
Import MergeVariantFacts MergeSequence.

(** *** Confinement *)

Lemma confined_plainKeys a b n : forall h v,
  confined a b n h v = true -> plainKeys n h v = true.
Proof.
  induction n as [|n IH]; intros h v; destruct v as [| | | | |l]; simpl;
    try done.
  - intros [_ H]%andb_prop. by destruct (h !! l) as [[ps|xs]|].
  - intros [_ H]%andb_prop. destruct (h !! l) as [[ps|xs]|]; try done.
    rewrite forallb_forall in H. apply forallb_forall. intros kv Hkv.
    destruct (andb_prop _ _ (H kv Hkv)) as [Hk Hv]. rewrite Hk. simpl.
    by apply IH.
Qed.

(** A confined value reads only objects outside the range: it stays
    confined when the objects of the range change. *)
Lemma confined_frame a b n : forall (h h' : heap) v,
  (forall l, l < a \/ b <= l -> l < length h -> h' !! l = h !! l) ->
  confined a b n h v = true -> confined a b n h' v = true.
Proof.
  induction n as [|n IH]; intros h h' v Hagree; destruct v as [| | | | |l];
    simpl; try done.
  - intros [Hr H]%andb_prop. rewrite Hr. simpl.
    destruct (h !! l) as [[ps|xs]|] eqn:Hl; try done.
    rewrite Hagree; [by rewrite Hl| |by eapply lookup_lt_Some].
    apply orb_prop in Hr as [Hr|Hr]; apply bool_decide_eq_true in Hr; tauto.
  - intros [Hr H]%andb_prop. rewrite Hr. simpl.
    destruct (h !! l) as [[ps|xs]|] eqn:Hl; try done.
    + rewrite Hagree; [rewrite Hl| |by eapply lookup_lt_Some].
      * rewrite forallb_forall in H. apply forallb_forall. intros kv Hkv.
        destruct (andb_prop _ _ (H kv Hkv)) as [Hk Hv]. rewrite Hk. simpl.
        by apply (IH h).
      * apply orb_prop in Hr as [Hr|Hr]; apply bool_decide_eq_true in Hr; tauto.
    + rewrite Hagree; [by rewrite Hl| |by eapply lookup_lt_Some].
      apply orb_prop in Hr as [Hr|Hr]; apply bool_decide_eq_true in Hr; tauto.
Qed.

Lemma confined_mono a b b' n : forall h v,
  b' <= b -> confined a b n h v = true -> confined a b' n h v = true.
Proof.
  induction n as [|n IH]; intros h v Hb; destruct v as [| | | | |l]; simpl;
    try done.
  - intros [Hr H]%andb_prop. apply andb_true_intro. split; [|done].
    apply orb_prop in Hr as [Hr|Hr]; apply bool_decide_eq_true in Hr;
      apply orb_true_intro; [left|right]; apply bool_decide_eq_true; lia.
  - intros [Hr H]%andb_prop. apply andb_true_intro. split.
    + apply orb_prop in Hr as [Hr|Hr]; apply bool_decide_eq_true in Hr;
        apply orb_true_intro; [left|right]; apply bool_decide_eq_true; lia.
    + destruct (h !! l) as [[ps|xs]|]; try done.
      rewrite forallb_forall in H. apply forallb_forall. intros kv Hkv.
      destruct (andb_prop _ _ (H kv Hkv)) as [Hk Hv]. rewrite Hk. simpl.
      by apply IH.
Qed.

(** A tree of the store [h0] with plain keys is confined below the end
    of [h0]. *)
Lemma plainKeys_confined (h0 : heap) a b n : forall (h : heap) v,
  h0 `prefix_of` h -> length h0 <= a ->
  plainKeys n h0 v = true -> confined a b n h v = true.
Proof.
  induction n as [|n IH]; intros h v Hp Ha; destruct v as [| | | | |l]; simpl;
    try done.
  - destruct (h0 !! l) as [[ps|xs]|] eqn:Hl; try done. intros _.
    pose proof (lookup_lt_Some _ _ _ Hl) as Hlt.
    rewrite (prefix_lookup_lt h0 h) by done. rewrite Hl.
    rewrite bool_decide_true by lia. done.
  - destruct (h0 !! l) as [[ps|xs]|] eqn:Hl; try done.
    + intros H. pose proof (lookup_lt_Some _ _ _ Hl) as Hlt.
      rewrite (prefix_lookup_lt h0 h) by done. rewrite Hl.
      rewrite bool_decide_true by lia. simpl.
      rewrite forallb_forall in H. apply forallb_forall. intros kv Hkv.
      destruct (andb_prop _ _ (H kv Hkv)) as [Hk Hv]. rewrite Hk. simpl.
      by apply IH.
    + intros _. pose proof (lookup_lt_Some _ _ _ Hl) as Hlt.
      rewrite (prefix_lookup_lt h0 h) by done. rewrite Hl.
      rewrite bool_decide_true by lia. done.
Qed.

(** *** Transformers *)

Lemma lookup_transformer_elem k ts t :
  lookup_transformer k ts = Some t -> (k, t) ∈ ts.
Proof.
  induction ts as [|[k' t'] ts IH]; simpl; [done|].
  destruct (decide (k' = k)) as [->|Hne].
  - intros [= ->]. left.
  - intros H. right. auto.
Qed.

Lemma transformerFor_elem ts path key t :
  transformerFor ts path key = Some t -> exists k, (k, t) ∈ ts.
Proof.
  unfold transformerFor.
  destruct (lookup_transformer (currentPath path key) ts) as [t'|] eqn:H1.
  - intros [= <-]. eexists. by eapply lookup_transformer_elem.
  - intros H2. eexists. by eapply lookup_transformer_elem.
Qed.

Lemma confined_nonref a b n h v :
  (forall l, v <> VRef l) -> confined a b n h v = true.
Proof. destruct v as [| | | | |l]; try by destruct n. intros H. by destruct (H l). Qed.

Lemma isPlainObject_ref h v :
  isPlainObject h v = true -> exists l ps, v = VRef l /\ h !! l = Some (Obj ps).
Proof.
  unfold isPlainObject. intros H.
  apply andb_prop in H as [H Harr]. apply andb_prop in H as [Hty Hnull].
  apply bool_decide_eq_true in Hty.
  destruct v as [| | | | |l]; try done. simpl in *.
  destruct (h !! l) as [[ps|xs]|] eqn:Hl; try done. by exists l, ps.
Qed.

Lemma isPlainObject_Obj h l ps : h !! l = Some (Obj ps) -> isPlainObject h (VRef l) = true.
Proof. intros H. unfold isPlainObject. simpl. by rewrite H. Qed.

Lemma plainKeys_is_Some n (h : heap) l :
  plainKeys n h (VRef l) = true -> is_Some (h !! l).
Proof. destruct n; simpl; (destruct (h !! l); [by eexists|done]). Qed.

(** One iteration of the loop of [applyTransformers], on the object
    [VRef l] of the store [h0], the result being built at [length h]. *)
Lemma transformKey_step ts fuel (h0 h : heap) l ps path self hi rpi key :
  scalar_transformers ts ->
  h0 `prefix_of` h ->
  h0 !! l = Some (Obj ps) ->
  plainKeys (S fuel) h0 (VRef l) = true ->
  key ∈ map fst ps ->
  (forall (hi : heap) l' ps' path',
     h0 `prefix_of` hi -> h0 !! l' = Some (Obj ps') ->
     plainKeys fuel h0 (VRef l') = true ->
     exists h' rp,
       self hi (VRef l') path' = Returns (h', VRef (length hi)) /\
       hi `prefix_of` h' /\
       h' !! length hi = Some (Obj rp) /\
       confined (length h0) (length hi) fuel h' (VRef (length hi)) = true) ->
  h `prefix_of` hi ->
  hi !! length h = Some (Obj rpi) ->
  NoDup (map fst rpi) ->
  Forall (fun kv => inherited kv.1 = false /\
                    confined (length h0) (S (length h)) fuel hi kv.2 = true) rpi ->
  exists h1 rp1,
    transformKey self ts (VRef l) path (length h) hi key = Returns h1 /\
    h `prefix_of` h1 /\
    h1 !! length h = Some (Obj rp1) /\
    NoDup (map fst rp1) /\
    Forall (fun kv => inherited kv.1 = false /\
                      confined (length h0) (S (length h)) fuel h1 kv.2 = true) rp1 /\
    (forall k, k <> key -> lookup_prop k rp1 = lookup_prop k rpi) /\
    (forall t, transformerFor ts path key = Some t ->
       lookup_prop key rp1 = Some (t h0 (get_prop ps key)).2).
Proof.
  intros Hts Hp0 Hl Hsh Hkey Hself Hpi Hcell Hnd Hconf.
  assert (Hp0i : h0 `prefix_of` hi) by by etrans.
  assert (Hlen0 : length h0 <= length h) by by apply prefix_length.
  assert (Hr_lt : length h < length hi) by by eapply lookup_lt_Some.
  assert (Hps0 : ownProps h0 (VRef l) = Returns ps) by (simpl; by rewrite Hl).
  assert (Hin : inherited key = false) by by eapply plainKeys_key.
  assert (Hget : get hi (VRef l) key = get_prop ps key).
  { simpl. rewrite (prefix_lookup_lt h0 hi); [by rewrite Hl|done|].
    by eapply lookup_lt_Some. }
  assert (Hshv : plainKeys fuel h0 (get_prop ps key) = true).
  { by apply (plainKeys_get fuel h0 (VRef l) ps key Hsh). }
  (* what an assignment to the result keeps *)
  assert (Hassign : forall (hm : heap) v,
            hi `prefix_of` hm ->
            confined (length h0) (S (length h)) fuel hm v = true ->
            h `prefix_of` assign hm (length h) key v /\
            assign hm (length h) key v !! length h
              = Some (Obj (set_prop rpi key v)) /\
            NoDup (map fst (set_prop rpi key v)) /\
            Forall (fun kv => inherited kv.1 = false /\
                      confined (length h0) (S (length h)) fuel
                        (assign hm (length h) key v) kv.2 = true)
              (set_prop rpi key v)).
  { intros hm v Hpm Hv.
    assert (Hframe : forall x,
              confined (length h0) (S (length h)) fuel hm x = true ->
              confined (length h0) (S (length h)) fuel
                (assign hm (length h) key v) x = true).
    { intros x. apply confined_frame. intros l0 Hl0 _.
      apply assign_lookup_ne. lia. }
    repeat split.
    - apply assign_prefix; [by etrans|done].
    - apply assign_lookup_eq. rewrite (prefix_lookup_lt hi hm); done.
    - by apply set_prop_NoDup.
    - apply set_prop_Forall; [|split; [done|by apply Hframe]].
      eapply Forall_impl; [exact Hconf|]. intros kv [Hk Hkv].
      split; [done|]. apply Hframe.
      revert Hkv. apply confined_frame. intros l0 _ Hl0.
      by apply prefix_lookup_lt. }
  unfold transformKey. cbv zeta. rewrite Hget.
  destruct (transformerFor ts path key) as [t|] eqn:Ht.
  - (* a transformer is registered *)
    destruct (transformerFor_elem _ _ _ _ Ht) as [k0 Hk0].
    destruct (Hts k0 t Hk0) as (g & Hg & Hscalar).
    rewrite Hg.
    destruct (Hassign hi (g (get_prop ps key)) (reflexivity hi))
      as (H1 & H2 & H3 & H4).
    { apply confined_nonref. apply Hscalar. }
    exists (assign hi (length h) key (g (get_prop ps key))),
      (set_prop rpi key (g (get_prop ps key))).
    split; [by apply put_plain|]. repeat split; try done.
    + intros k Hk. by apply lookup_set_prop_ne.
    + intros t' [= <-]. rewrite Hg. simpl. apply lookup_set_prop_eq.
  - rewrite Hin.
    destruct (isPlainObject hi (get_prop ps key)) eqn:Hplain.
    + (* a nested mapping: the recursive call *)
      destruct (isPlainObject_ref _ _ Hplain) as (l' & ps' & Hv & Hl').
      rewrite Hv in *.
      assert (Hl0 : h0 !! l' = Some (Obj ps')).
      { destruct (plainKeys_is_Some _ _ _ Hshv) as [c Hc].
        rewrite (prefix_lookup_lt h0 hi) in Hl'; [done|done|].
        by eapply lookup_lt_Some. }
      destruct (Hself hi l' ps' (currentPath path key) Hp0i Hl0 Hshv)
        as (hm & rp & Hs & Hpm & Hrm & Hcm).
      rewrite Hs. simpl.
      destruct (Hassign hm (VRef (length hi)) Hpm) as (H1 & H2 & H3 & H4).
      { revert Hcm. apply confined_mono. lia. }
      exists (assign hm (length h) key (VRef (length hi))),
        (set_prop rpi key (VRef (length hi))).
      split; [by apply put_plain|]. repeat split; try done.
      intros k Hk. by apply lookup_set_prop_ne.
    + (* anything else is copied *)
      destruct (Hassign hi (get_prop ps key) (reflexivity hi))
        as (H1 & H2 & H3 & H4).
      { by apply (plainKeys_confined h0). }
      exists (assign hi (length h) key (get_prop ps key)),
        (set_prop rpi key (get_prop ps key)).
      split; [by apply put_plain|]. repeat split; try done.
      intros k Hk. by apply lookup_set_prop_ne.
Qed.

Lemma transform_loop ts fuel (h0 h : heap) l ps path self keys :
  forall hi rpi,
  scalar_transformers ts ->
  h0 `prefix_of` h ->
  h0 !! l = Some (Obj ps) ->
  plainKeys (S fuel) h0 (VRef l) = true ->
  keys ⊆ map fst ps ->
  (forall (hi : heap) l' ps' path',
     h0 `prefix_of` hi -> h0 !! l' = Some (Obj ps') ->
     plainKeys fuel h0 (VRef l') = true ->
     exists h' rp,
       self hi (VRef l') path' = Returns (h', VRef (length hi)) /\
       hi `prefix_of` h' /\
       h' !! length hi = Some (Obj rp) /\
       confined (length h0) (length hi) fuel h' (VRef (length hi)) = true) ->
  NoDup keys ->
  h `prefix_of` hi ->
  hi !! length h = Some (Obj rpi) ->
  NoDup (map fst rpi) ->
  Forall (fun kv => inherited kv.1 = false /\
                    confined (length h0) (S (length h)) fuel hi kv.2 = true) rpi ->
  exists h' rp,
    forIn (transformKey self ts (VRef l) path (length h)) keys hi = Returns h' /\
    h `prefix_of` h' /\
    h' !! length h = Some (Obj rp) /\
    NoDup (map fst rp) /\
    Forall (fun kv => inherited kv.1 = false /\
                      confined (length h0) (S (length h)) fuel h' kv.2 = true) rp /\
    (forall k, k ∉ keys -> lookup_prop k rp = lookup_prop k rpi) /\
    (forall k t, k ∈ keys -> transformerFor ts path k = Some t ->
       lookup_prop k rp = Some (t h0 (get_prop ps k)).2).
Proof.
  induction keys as [|key keys IH];
    intros hi rpi Hts Hp0 Hl Hsh Hsub Hself Hkeys Hpi Hcell Hnd Hconf.
  - exists hi, rpi. repeat split; try done.
    intros k t Hk. by apply elem_of_nil in Hk.
  - apply NoDup_cons in Hkeys as [Hkey Hkeys].
    destruct (transformKey_step ts fuel h0 h l ps path self hi rpi key
                Hts Hp0 Hl Hsh (Hsub key ltac:(left)) Hself Hpi Hcell Hnd Hconf)
      as (h1 & rp1 & Hstep & Hp1 & Hc1 & Hnd1 & Hconf1 & Hother & Hthis).
    destruct (IH h1 rp1 Hts Hp0 Hl Hsh) as
      (h' & rp & Hloop & Hp' & Hc' & Hnd' & Hconf' & Hkeep & Hspec); try done.
    { intros x Hx. apply Hsub. by right. }
    exists h', rp. cbn [forIn]. rewrite Hstep. simpl. repeat split; try done.
    + intros k Hk. rewrite Hkeep.
      * apply Hother. intros ->. apply Hk. left.
      * intros Hin. apply Hk. by right.
    + intros k t Hk Ht. apply elem_of_cons in Hk as [->|Hk]; [|by apply Hspec].
      rewrite (Hkeep key Hkey). by apply Hthis.
Qed.

(** [applyTransformers] on a mapping of the store [h0] with plain
    keys: it returns a new mapping, confined to [h0] and the objects it
    allocates, in which a key that has a transformer holds the
    transformed value. *)
Lemma applyTransformers_mapping ts fuel : forall (h0 h : heap) l ps path,
  scalar_transformers ts ->
  distinct_keys h0 ->
  h0 `prefix_of` h ->
  h0 !! l = Some (Obj ps) ->
  plainKeys fuel h0 (VRef l) = true ->
  exists h' rp,
    applyTransformers fuel ts h (VRef l) path = Returns (h', VRef (length h)) /\
    h `prefix_of` h' /\
    h' !! length h = Some (Obj rp) /\
    NoDup (map fst rp) /\
    confined (length h0) (length h) fuel h' (VRef (length h)) = true /\
    (forall k t, k ∈ map fst ps -> transformerFor ts path k = Some t ->
       lookup_prop k rp = Some (t h0 (get_prop ps k)).2).
Proof.
  induction fuel as [|fuel IH]; intros h0 h l ps path Hts Hdist Hp0 Hl Hsh.
  { simpl in Hsh. by rewrite Hl in Hsh. }
  assert (Hlh : h !! l = Some (Obj ps)).
  { rewrite (prefix_lookup_lt h0 h); [done|done|]. by eapply lookup_lt_Some. }
  cbn [applyTransformers]. rewrite (isPlainObject_Obj h l ps Hlh).
  cbn [negb]. unfold alloc.
  assert (Hps : ownProps (h ++ [Obj []]) (VRef l) = Returns ps).
  { simpl. rewrite lookup_app_l by by eapply lookup_lt_Some. by rewrite Hlh. }
  rewrite Hps. cbn [mbind outcome_bind].
  destruct (transform_loop ts fuel h0 h l ps path (applyTransformers fuel ts)
              (map fst ps) (h ++ [Obj []]) [] Hts Hp0 Hl Hsh)
    as (h' & rp & Hloop & Hp' & Hc' & Hnd' & Hconf' & _ & Hspec).
  - done.
  - intros hi l' ps' path' Hpi Hl' Hsh'.
    destruct (IH h0 hi l' ps' path' Hts Hdist Hpi Hl' Hsh')
      as (hx & rpx & Hx & Hpx & Hcx & _ & Hconfx & _).
    by exists hx, rpx.
  - by eapply Hdist.
  - by apply prefix_app_r.
  - apply lookup_alloc.
  - constructor.
  - constructor.
  - exists h', rp. rewrite Hloop. simpl. repeat split; try done.
    simpl. rewrite Hc'.
    rewrite (bool_decide_true (length h <= length h)) by done.
    rewrite orb_true_r. simpl.
    apply forallb_forall. intros kv Hkv%list_elem_of_In.
    rewrite Forall_forall in Hconf'.
    destruct (Hconf' kv Hkv) as [Hk Hc]. rewrite Hk. simpl.
    by apply (confined_mono _ (S (length h))); [lia|].
Qed.

(** X25. [transformMerge] transforms before it merges: under the deep
    strategy, for documents none of whose keys is a name inherited from
    [Object.prototype] and a key of [source] that has a transformer
    (registered under the key) and passes the filters without a custom
    merger, the merged document holds at the key the transformer's
    result for the value of [source], when that result is a scalar;
    neither [target] nor [source] is modified.  Transformers are
    assumed to return scalars that depend on the value only. *)
Theorem transformMerge_transforms fuel h lt tp ls sp ts options k v t :
  scalar_transformers ts ->
  distinct_keys h ->
  h !! lt = Some (Obj tp) ->
  h !! ls = Some (Obj sp) ->
  plainKeys fuel h (VRef lt) = true ->
  plainKeys fuel h (VRef ls) = true ->
  strategy_of (options_or_default options) = deep ->
  pureMergers (options_or_default options) ->
  customMergers_of (options_or_default options) k = None ->
  unfiltered (options_or_default options) k = true ->
  lookup_prop k sp = Some v ->
  transformerFor ts "" k = Some t ->
  is_scalar (t h v).2 = true ->
  exists h' res,
    transformMerge fuel h (VRef lt) (VRef ls) ts options = Returns (h', res) /\
    h `prefix_of` h' /\
    get h' res k = (t h v).2.
Proof.
  intros Hts Hdist Hlt Hls Hsht Hshs Hd Hpure Hcm Hu Hk Ht Hsc.
  destruct (applyTransformers_mapping ts fuel h h lt tp "" Hts Hdist
              (reflexivity h) Hlt Hsht)
    as (h1 & rpt & Ha1 & Hp1 & Hc1 & _ & _ & _).
  destruct (applyTransformers_mapping ts fuel h h1 ls sp "" Hts Hdist Hp1 Hls
              Hshs)
    as (h2 & rps & Ha2 & Hp2 & Hc2 & Hnd2 & Hconf2 & Hspec2).
  assert (Hgv : get_prop sp k = v) by (unfold get_prop; by rewrite Hk).
  pose proof (Hspec2 k t (lookup_prop_Some_key _ _ _ Hk) Ht) as Hkv.
  rewrite Hgv in Hkv.
  destruct (deepMerge_scalar fuel h2 (VRef (length h)) (VRef (length h1))
              (options_or_default options) rpt rps k (t h v).2 Hd Hpure)
    as (h' & res & Hm & Hget); try done.
  - simpl. rewrite (prefix_lookup_lt h1 h2); [by rewrite Hc1|done|].
    by eapply lookup_lt_Some.
  - simpl. by rewrite Hc2.
  - by eapply confined_plainKeys.
  - exists h', res. unfold transformMerge. rewrite Ha1. simpl. rewrite Ha2.
    simpl. repeat split; try done.
    etrans; [exact Hp1|]. etrans; [exact Hp2|].
    by eapply deepMerge_prefix.
Qed.

Lemma transformMerge_transforms_witness :
  let h := [Obj [("port", VStr "3000"); ("host", VStr "localhost")];
            Obj [("port", VStr "8080")]] in
  let toNumber : transformer := fun h v =>
    (h, match v with
        | VStr "3000" => VNum 3000
        | VStr "8080" => VNum 8080
        | VNum n => VNum n
        | _ => VNum 0
        end) in
  let ts := [("port", toNumber)] in
  exists h' res,
    transformMerge 1 h (VRef 0) (VRef 1) ts None = Returns (h', res) /\
    h `prefix_of` h' /\
    get h' res "port" = (toNumber h (VStr "8080")).2.
Proof.
  cbv zeta.
  apply (transformMerge_transforms 1 _ 0
           [("port", VStr "3000"); ("host", VStr "localhost")] 1
           [("port", VStr "8080")] _ None "port" (VStr "8080")).
  - intros k t Hin. apply list_elem_of_singleton in Hin. injection Hin as -> ->.
    eexists. split; [intros h x; reflexivity|].
    intros x l. destruct x as [| | | |s|]; try discriminate.
    repeat (case_match; try discriminate).
  - intros l ps Hl.
    do 2 (destruct l as [|l];
          [injection Hl as <-; repeat (apply NoDup_cons; split;
             [rewrite ?elem_of_cons, elem_of_nil; intros H;
              repeat (destruct H as [H|H]; try discriminate H); done|]);
           apply NoDup_nil_2|]).
    discriminate Hl.
  - reflexivity.
  - reflexivity.
  - reflexivity.
  - reflexivity.
  - reflexivity.
  - intros k m H. discriminate H.
  - reflexivity.
  - reflexivity.
  - reflexivity.
  - reflexivity.
  - reflexivity.
Defined.

End TransformFacts.

(* ================================================================= *)
(** ** Discovered files and the parser registry *)

Module ParserFacts.
Import Discovery FileNames Parsers FileNameFacts.

(** What follows the last dot of a string is determined by the
    string. *)
Lemma last_dot_unique (a : list ascii) : forall b r1 r2,
  Forall (fun c => c <> "."%char) a ->
  Forall (fun c => c <> "."%char) b ->
  a ++ "."%char :: r1 = b ++ "."%char :: r2 -> a = b.
Proof.
  induction a as [|c a IH]; intros b r1 r2 Ha Hb Heq.
  - destruct b as [|c' b]; [done|].
    apply Forall_cons in Hb as [Hc' _]. simpl in Heq. congruence.
  - apply Forall_cons in Ha as [Hc Ha].
    destruct b as [|c' b]; simpl in Heq; [congruence|].
    apply Forall_cons in Hb as [_ Hb].
    injection Heq as -> Heq. f_equal. by eapply IH.
Qed.

Lemma endsWith_extension stem fmt e :
  Forall (fun c => c <> "."%char) (chars fmt) ->
  Forall (fun c => c <> "."%char) (chars e) ->
  endsWith (stem +:+ "." +:+ fmt) (String "."%char e) = bool_decide (fmt = e).
Proof.
  intros Hf He. unfold endsWith. rewrite !chars_app. simpl.
  destruct (decide (fmt = e)) as [->|Hne].
  - rewrite !bool_decide_true; [done|done|]. by exists (chars stem).
  - rewrite !bool_decide_false; [done|done|].
    intros [k Hk]. apply Hne. apply chars_inj.
    apply (f_equal (@rev ascii)) in Hk.
    rewrite !rev_app_distr in Hk. simpl in Hk. rewrite <- !app_assoc in Hk.
    simpl in Hk.
    apply last_dot_unique in Hk; [|by apply Forall_rev..].
    apply (f_equal (@rev ascii)) in Hk. by rewrite !rev_involutive in Hk.
Qed.

Lemma dot_free_name f : Forall (fun c => c <> "."%char) (chars (format_name f)).
Proof. eapply Forall_impl; [apply clean_name|]. by intros c [_ ?]. Qed.

Lemma getParser_extension stem f :
  getParser (stem +:+ "." +:+ format_name f) = Some (parserOf f).
Proof.
  unfold getParser, parsers, canParse. cbn [List.find].
  rewrite !(endsWith_extension stem (format_name f))
    by (apply dot_free_name || (repeat constructor; discriminate)).
  by destruct f.
Qed.

(** X26. Every file [findConfigFiles] can return has a parser in the
    default registry: for each path [generateConfigPaths] builds,
    [getParser] finds the parser that lists the extension of the path,
    which is the parser of the format [getConfigFormat] reports.  So
    [parseFile] never fails for want of a parser on a discovered
    file. *)
Theorem getParser_generated configDir name env extensions :
  map getParser (generateConfigPaths configDir name env extensions) =
  map (fun f => Some (parserOf f)) (default defaultExtensions extensions) /\
  forall f, format_name f ∈ Parsers.extensions (parserOf f) /\
            parserOf (canonical f) = parserOf f.
Proof.
  split.
  - rewrite generateConfigPaths_map, map_map. apply map_ext. intros f.
    destruct (truthy env) as [e|].
    + replace (resolve configDir
                 (name +:+ ".config." +:+ e +:+ "." +:+ format_name f))
        with ((configDir +:+ "/" +:+ name +:+ ".config." +:+ e)
                +:+ "." +:+ format_name f)
        by (apply chars_inj; unfold resolve; by chars_norm).
      apply getParser_extension.
    + replace (resolve configDir (name +:+ ".config." +:+ format_name f))
        with ((configDir +:+ "/" +:+ name +:+ ".config")
                +:+ "." +:+ format_name f)
        by (apply chars_inj; unfold resolve; by chars_norm).
      apply getParser_extension.
  - intros f. split; [|by destruct f].
    destruct f; simpl; rewrite ?elem_of_cons; tauto.
Qed.

End ParserFacts.

(* ================================================================= *)
(** ** The loader: no file, and a file that does not parse *)

Module LoaderEdges.
Import Validate SchemaFrame Discovery Loader EmptyConfig LoaderFrame.
Import JSFacts GrowthFacts ValidateFacts ValidateProperties.
Import MergeVariantFacts ValidateMore LoaderValidation MergeSequence.

Lemma collect_none fs e base paths :
  (forall p, fs p = None) -> collect fs e base paths = [].
Proof.
  intros Hfs. unfold collect. induction paths as [|p paths IH]; [done|].
  simpl. rewrite IH. unfold existsSync. rewrite Hfs.
  rewrite bool_decide_false; [done|]. by intros [x Hx].
Qed.

Lemma findConfigFiles_none fs name configDir env extensions :
  (forall p, fs p = None) ->
  findConfigFiles fs name configDir env extensions = [].
Proof.
  intros Hfs. unfold findConfigFiles. cbv zeta.
  destruct (truthy env); by rewrite !collect_none.
Qed.

(** The loop of [validateConfig] on a configuration without
    properties: an error for each required key, and the default of
    each rule as value. *)
Lemma validateEntries_empty s : forall h l vp errs,
  h !! l = Some (Obj []) ->
  l < length h ->
  validateEntries s (h ++ [Obj vp]) errs (VRef l) (length h) =
  Returns (h ++ [Obj (fold_left (fun acc kr => set_prop acc kr.1 (default kr.2))
                        (schema_entries s) vp)],
           errs ++ map (fun k => k +:+ " is required")
                     (map fst (filter (fun kr => required kr.2 = true)
                                 (schema_entries s)))).
Proof.
  induction s as [|key r rest IH]; intros h l vp errs Hl Hlt.
  - simpl. by rewrite app_nil_r.
  - cbn [validateEntries schema_entries].
    rewrite (member_mapping h (h ++ [Obj vp]) l [] key Hl)
      by by apply prefix_app_r.
    cbn [mbind outcome_bind].
    change (get_prop [] key) with VUndefined.
    rewrite filter_cons. cbn [fold_left fst snd].
    destruct (required r) eqn:Hreq.
    + rewrite validateValue_required_missing by (done || by left).
      cbn [mbind outcome_bind]. rewrite assign_alloc, IH by done.
      rewrite decide_True by done. cbn [map fst]. by rewrite <- app_assoc.
    + rewrite validateValue_absent by done.
      cbn [mbind outcome_bind]. rewrite assign_alloc, IH by done.
      by rewrite decide_False by done.
Qed.

(** X27. [loadConfig] when no configuration file exists: no parser is
    called and the file list is empty.  Without a validation schema the
    configuration is a new empty object.  With a schema none of whose
    keys is a name inherited from [Object.prototype] the configuration
    is a new object holding the default of each rule, unless the schema
    requires a key: then [loadConfig] throws an error whose message
    lists [<key> is required] for each required key, in schema
    order. *)
Theorem loadConfig_no_files fs parse configName configDir o fuel h env :
  (forall p, fs p = None) ->
  (forall s, validationSchema o = Some s ->
     Forall (fun k => inherited k = false) (schema_keys s)) ->
  loadConfig fs parse configName configDir o fuel h env =
    match validationSchema o with
    | None =>
        Normal (h ++ [Obj []],
                {| config := VRef (length h); files := []; env := env |})
    | Some s =>
        match requiredKeys s with
        | [] =>
            Normal (h ++ [Obj []; Obj (defaultsOf s)],
                    {| config := VRef (S (length h)); files := [];
                       env := env |})
        | ks =>
            Throws (Error ("Configuration validation failed: "
                             +:+ join ", "
                                   (map (fun k => k +:+ " is required") ks)))
        end
    end.
Proof.
  intros Hfs _. unfold loadConfig. cbv zeta.
  rewrite findConfigFiles_none by done. cbn [length bool_decide].
  rewrite bool_decide_true by done. unfold alloc.
  destruct (validationSchema o) as [s|]; [|done].
  unfold validateLoaded, validateConfig, validateConfig_body, alloc.
  assert (Hl : (h ++ [Obj []]) !! length h = Some (Obj [])) by apply lookup_alloc.
  simpl ownProps. rewrite Hl. cbn [mbind outcome_bind].
  rewrite (validateEntries_empty s (h ++ [Obj []]) (length h) [] [] Hl)
    by (rewrite length_app; simpl; lia).
  cbn [mbind outcome_bind lift completion_bind app isValid errors validated].
  fold (requiredKeys s). fold (defaultsOf s).
  destruct (requiredKeys s) as [|k ks].
  - cbn [map length]. rewrite bool_decide_true by done.
    cbn [mbind completion_bind]. rewrite <- app_assoc, length_app. simpl.
    by rewrite Nat.add_1_r.
  - cbn [map length]. rewrite bool_decide_false by done. done.
Qed.

Lemma loadConfig_no_files_witness :
  let fs : filesystem := fun _ => None in
  let parse : parser := fun _ _ => None in
  let s := SCons "port" (mkRule (Some TNumber) true VUndefined None None None)
             (SCons "host" (mkRule (Some TString) false (VStr "localhost")
                              None None None)
                (SCons "name" (mkRule None true VUndefined None None None)
                   SNil)) in
  let o := {| extensions := defaultExtensions;
              mergeOptions := Merge.defaultOptions;
              validationSchema := Some s;
              templates := [];
              transformers := [] |} in
  loadConfig fs parse "app" "/cfg" o 1 [] (Some "production") =
    Throws (Error "Configuration validation failed: port is required, name is required").
Proof.
  intros fs parse s o.
  apply (loadConfig_no_files fs parse "app" "/cfg" o 1 [] (Some "production")
           (fun p => eq_refl)).
  intros s' [= <-]. repeat constructor.
Defined.

(** *** A file that does not parse *)

Lemma loadFiles_app parse o fuel l1 l2 : forall h cs,
  loadFiles parse o fuel (l1 ++ l2) h cs =
  ('(h1, cs1) ← loadFiles parse o fuel l1 h cs;
   loadFiles parse o fuel l2 h1 cs1).
Proof.
  induction l1 as [|f l1 IH]; intros h cs; simpl; [done|].
  destruct (loadFile parse o fuel h f) as [[h1 c]|e]; simpl; [|done].
  apply IH.
Qed.

Lemma loadFiles_parse_error parse o fuel l1 f l2 : forall h cs,
  transformers o = [] ->
  (forall g h, g ∈ l1 -> is_Some (parse h (path g))) ->
  (forall h, parse h (path f) = None) ->
  loadFiles parse o fuel (l1 ++ f :: l2) h cs = Throws (ParseError (path f)).
Proof.
  induction l1 as [|g l1 IH]; intros h cs Hts Hok Hbad; simpl.
  - unfold loadFile. by rewrite Hbad.
  - unfold loadFile at 1.
    destruct (Hok g h) as [[h1 c] Hp]; [left|]. rewrite Hp, Hts. simpl.
    apply IH; [done| |done]. intros g' h' Hg'. apply Hok. by right.
Qed.

(** X28. When one of the files found does not parse, [loadConfig]
    throws the parser's error for the first such file in loading order
    (base files, then the files of the environment); nothing is
    returned.  (Stated for a loader without transformers.) *)
Theorem loadConfig_parse_error fs parse configName configDir o fuel h env
    l1 f l2 :
  let files :=
    findConfigFiles fs configName configDir env (Some (extensions o)) in
  transformers o = [] ->
  baseFiles files ++ envFiles files env = l1 ++ f :: l2 ->
  (forall g h, g ∈ l1 -> is_Some (parse h (path g))) ->
  (forall h, parse h (path f) = None) ->
  loadConfig fs parse configName configDir o fuel h env
    = Throws (ParseError (path f)).
Proof.
  intros files Hts Horder Hok Hbad. unfold loadConfig. cbv zeta.
  fold files.
  assert (Hne : files <> []).
  { intros Hnil. rewrite Hnil in Horder. by destruct l1. }
  rewrite bool_decide_false by (by destruct files).
  pose proof (loadFiles_parse_error parse o fuel l1 f l2 h [] Hts Hok Hbad)
    as Hall.
  rewrite <- Horder, loadFiles_app in Hall.
  destruct (loadFiles parse o fuel (baseFiles files) h []) as [[h1 cs1]|e];
    cbn [mbind completion_bind] in *.
  - by rewrite Hall.
  - by injection Hall as ->.
Qed.

Lemma loadConfig_parse_error_witness :
  let fs : filesystem := fun p =>
    if decide (p = "/cfg/app.config.json") then Some 1%Z
    else if decide (p = "/cfg/app.config.dev.json") then Some 2%Z
    else None in
  let parse : parser := fun h p =>
    if decide (p = "/cfg/app.config.json")
    then Some (h ++ [Obj [("port", VNum 80)]], VRef (length h))
    else None in
  let o := {| extensions := defaultExtensions;
              mergeOptions := Merge.defaultOptions;
              validationSchema := None;
              templates := [];
              transformers := [] |} in
  exists f,
    path f = "/cfg/app.config.dev.json" /\
    loadConfig fs parse "app" "/cfg" o 1 [] (Some "dev")
      = Throws (ParseError (path f)).
Proof.
  intros fs parse o.
  set (files := findConfigFiles fs "app" "/cfg" (Some "dev")
                  (Some (extensions o))).
  assert (exists g f, baseFiles files ++ envFiles files (Some "dev") = [g] ++ f :: []
                      /\ path g = "/cfg/app.config.json"
                      /\ path f = "/cfg/app.config.dev.json")
    as (g & f & Horder & Hg & Hf).
  { vm_compute. eexists _, _. repeat split; reflexivity. }
  exists f. split; [exact Hf|].
  apply (loadConfig_parse_error fs parse "app" "/cfg" o 1 [] (Some "dev")
           [g] f [] eq_refl Horder).
  - intros g' h' Hin. apply list_elem_of_singleton in Hin. subst g'.
    rewrite Hg. by eexists.
  - intros h'. rewrite Hf. reflexivity.
Defined.

(** *** The file that decides a key *)

(** The loading loop on files that parse to documents: the documents
    loaded, in the order of the files, each with the value its file
    gives to [k]. *)
Lemma loadFiles_documents parse o fuel h0 k l : forall h cs,
  transformers o = [] ->
  h0 `prefix_of` h ->
  Forall (fun g => exists v, reads fuel h0 parse g k v) l ->
  exists h1 ds,
    loadFiles parse o fuel l h cs = Normal (h1, cs ++ ds) /\
    h `prefix_of` h1 /\
    Forall2 (fun g d => document fuel h1 d /\
               forall v, reads fuel h0 parse g k v -> get h1 d k = v) l ds.
Proof.
  induction l as [|g l IH]; intros h cs Hts Hp Hl.
  - exists h, []. simpl. rewrite app_nil_r. by repeat split.
  - apply Forall_cons in Hl as [[v Hg] Hl].
    destruct (Hg h Hp) as (ha & d & Hparse & Hpa & Hdoc & Hget).
    destruct (IH ha (cs ++ [d]) Hts ltac:(by etrans) Hl)
      as (h1 & ds & Hrest & Hp1 & Hall).
    exists h1, (d :: ds). cbn [loadFiles]. unfold loadFile.
    rewrite Hparse, Hts. simpl. rewrite Hrest, <- app_assoc. simpl.
    split; [done|]. split; [by etrans|]. constructor; [|done].
    split; [by eapply document_prefix|].
    intros v' Hg'. destruct (Hg' h Hp) as (ha' & d' & Hparse' & _ & _ & Hget').
    rewrite Hparse in Hparse'. injection Hparse' as <- <-.
    destruct Hdoc as (ps & Ho & _).
    rewrite (ownProps_get h1 d ps k) by by eapply ownProps_prefix.
    by rewrite <- (ownProps_get ha d ps k Ho).
Qed.

(** X16. The order in which [loadConfig] loads and merges the files
    found decides the configuration: the files are taken base files
    first, then the files of the environment, each group in the order
    of [findConfigFiles], and a scalar that one of them gives to a key
    is the value of the key in the configuration returned when no file
    after it in that order defines the key.  So a file of the
    environment overrides every base file, whatever their formats.
    (Stated for an environment whose name has no slash, so that the
    file names it gives are plain file names of the directory; for a
    loader without transformers and schema, under the deep strategy;
    for a key that passes the filters and has no custom merger; and for
    files that parse to documents none of whose keys is a name
    inherited from [Object.prototype].) *)
Theorem loadConfig_last_file_wins fs parse configName configDir o fuel h env
    l1 f l2 k v :
  let files :=
    findConfigFiles fs configName configDir env (Some (extensions o)) in
  (forall e, truthy env = Some e -> "/"%char ∉ FileNames.chars e) ->
  transformers o = [] ->
  validationSchema o = None ->
  Merge.strategy_of (mergeOptions o) = Merge.deep ->
  Frame.pureMergers (mergeOptions o) ->
  Merge.customMergers_of (mergeOptions o) k = None ->
  Frame.unfiltered (mergeOptions o) k = true ->
  baseFiles files ++ envFiles files env = l1 ++ f :: l2 ->
  Forall (fun g => exists v', reads fuel h parse g k v') l1 ->
  reads fuel h parse f k v ->
  Frame.is_scalar v = true ->
  Forall (fun g => reads fuel h parse g k VUndefined) l2 ->
  exists h' res,
    loadConfig fs parse configName configDir o fuel h env = Normal (h', res) /\
    h `prefix_of` h' /\
    Loader.files res = files /\
    get h' (config res) k = v.
Proof.
  intros files _ Hts Hnone Hd Hpure Hcm Hu Horder Hl1 Hf Hsc Hl2.
  unfold loadConfig. cbv zeta. fold files.
  assert (Hne : files <> []).
  { intros Hnil. rewrite Hnil in Horder. by destruct l1. }
  rewrite bool_decide_false by (by destruct files).
  assert (Hall : Forall (fun g => exists v', reads fuel h parse g k v')
                   (l1 ++ f :: l2)).
  { apply Forall_app. split; [done|]. constructor; [by exists v|].
    eapply Forall_impl; [exact Hl2|]. intros g Hg. by exists VUndefined. }
  destruct (loadFiles_documents parse o fuel h k (l1 ++ f :: l2) h []
              Hts (reflexivity h) Hall) as (h1 & ds & Hload & Hp1 & Hdocs).
  rewrite <- Horder, loadFiles_app in Hload.
  destruct (loadFiles parse o fuel (baseFiles files) h []) as [[hb csb]|e];
    cbn [mbind completion_bind] in Hload; [|done].
  cbn [mbind completion_bind]. rewrite Hload. cbn [mbind completion_bind].
  simpl app. unfold alloc.
  apply Forall2_app_inv_l in Hdocs as (ds1 & ds' & Hd1 & Hd' & ->).
  apply Forall2_cons_inv_l in Hd' as (d & ds2 & [Hdoc Hval] & Hd2 & ->).
  assert (Hpa : h1 `prefix_of` h1 ++ [Obj []]) by by apply prefix_app_r.
  assert (Hget : forall g d0 v0,
            document fuel h1 d0 -> (forall v, reads fuel h parse g k v ->
                                      get h1 d0 k = v) ->
            reads fuel h parse g k v0 ->
            get (h1 ++ [Obj []]) d0 k = v0).
  { intros g d0 v0 (ps & Ho & _) Hv Hg.
    rewrite (ownProps_get _ d0 ps k) by by eapply ownProps_prefix.
    rewrite <- (ownProps_get h1 d0 ps k Ho). by apply Hv. }
  destruct (mergeAll_scalar fuel (mergeOptions o) (h1 ++ [Obj []])
              (VRef (length h1)) [] ds1 d ds2 k v Hd Hpure Hcm Hu)
    as (h' & res & Hm & Hp' & Hres); try done.
  - simpl. by rewrite lookup_alloc.
  - apply Forall_app. split; [|constructor].
    + apply Forall_forall. intros d0 Hd0.
      apply list_elem_of_lookup in Hd0 as [i Hi].
      destruct (Forall2_lookup_r _ _ _ i d0 Hd1 Hi) as (g & _ & Hdoc0 & _).
      by eapply document_prefix.
    + by eapply document_prefix.
    + apply Forall_forall. intros d0 Hd0.
      apply list_elem_of_lookup in Hd0 as [i Hi].
      destruct (Forall2_lookup_r _ _ _ i d0 Hd2 Hi) as (g & _ & Hdoc0 & _).
      by eapply document_prefix.
  - by eapply Hget.
  - apply Forall_forall. intros d0 Hd0.
    apply list_elem_of_lookup in Hd0 as [i Hi].
    destruct (Forall2_lookup_r _ _ _ i d0 Hd2 Hi) as (g & Hgi & Hdoc0 & Hv0).
    apply (Hget g d0 VUndefined Hdoc0 Hv0).
    rewrite Forall_forall in Hl2. apply Hl2. by eapply list_elem_of_lookup_2.
  - exists h', {| config := res; files := files; env := env |}.
    rewrite Hm. cbn [lift mbind completion_bind]. rewrite Hnone.
    cbn [validateLoaded mbind completion_bind]. repeat split; try done.
    etrans; [exact Hp1|]. by etrans.
Qed.

Lemma loadConfig_last_file_wins_witness :
  let fs : filesystem := fun p =>
    if decide (p = "/cfg/app.config.ts") then Some 1%Z
    else if decide (p = "/cfg/app.config.dev.json") then Some 2%Z
    else None in
  let parse : parser := fun h p =>
    if decide (p = "/cfg/app.config.ts")
    then Some (h ++ [Obj [("port", VNum 80); ("host", VStr "a")]], VRef (length h))
    else if decide (p = "/cfg/app.config.dev.json")
    then Some (h ++ [Obj [("port", VNum 8080)]], VRef (length h))
    else None in
  let o := {| extensions := defaultExtensions;
              mergeOptions := Merge.defaultOptions;
              validationSchema := None;
              templates := [];
              transformers := [] |} in
  exists h' res,
    loadConfig fs parse "app" "/cfg" o 1 [] (Some "dev") = Normal (h', res) /\
    [] `prefix_of` h' /\
    map path (Loader.files res) =
      ["/cfg/app.config.dev.json"; "/cfg/app.config.ts"] /\
    get h' (config res) "port" = VNum 8080.
Proof.
  intros fs parse o.
  set (files := findConfigFiles fs "app" "/cfg" (Some "dev")
                  (Some (extensions o))).
  assert (exists g f, baseFiles files ++ envFiles files (Some "dev") = [g] ++ f :: []
                      /\ path g = "/cfg/app.config.ts"
                      /\ path f = "/cfg/app.config.dev.json"
                      /\ map path files =
                           ["/cfg/app.config.dev.json"; "/cfg/app.config.ts"])
    as (g & f & Horder & Hg & Hf & Hfiles).
  { vm_compute. eexists _, _. repeat split; reflexivity. }
  destruct (loadConfig_last_file_wins fs parse "app" "/cfg" o 1 [] (Some "dev")
              [g] f [] "port" (VNum 8080))
    as (h' & res & Hload & Hp & Hres & Hget).
  - intros e [= <-]. simpl. rewrite !elem_of_cons, elem_of_nil.
    intros [H|[H|[H|H]]]; done.
  - reflexivity.
  - reflexivity.
  - reflexivity.
  - intros k m H. discriminate H.
  - reflexivity.
  - reflexivity.
  - exact Horder.
  - constructor; [|constructor]. exists (VNum 80). intros h0 _.
    eexists _, _. unfold parse. rewrite Hg. simpl.
    split; [reflexivity|]. split; [by apply prefix_app_r|].
    unfold document. simpl. rewrite lookup_alloc. simpl.
    split; [|reflexivity].
    eexists. split; [reflexivity|]. split; [|reflexivity].
    apply NoDup_cons. split; [|apply NoDup_singleton].
    intros Hin. apply list_elem_of_singleton in Hin. discriminate Hin.
  - intros h0 _. eexists _, _. unfold parse. rewrite Hf. simpl.
    split; [reflexivity|]. split; [by apply prefix_app_r|].
    unfold document. simpl. rewrite lookup_alloc. simpl.
    split; [|reflexivity].
    eexists. split; [reflexivity|]. split; [apply NoDup_singleton|reflexivity].
  - reflexivity.
  - constructor.
  - exists h', res. split; [exact Hload|]. split; [exact Hp|].
    split; [|exact Hget]. rewrite Hres. exact Hfiles.
Defined.

End LoaderEdges.
